(** * CPPScriptSignal: a shallow embedding of [Source/CPPScriptSignal.hpp]

    The header defines one class template, [ScriptSignal<Parameters...>],
    with a nested [Connection] struct.  The embedding has two layers:

    - a sequential layer: the memory of one signal (its three data members
      and the heap cells of the [Connection] objects it allocated) and the
      member functions [Connect], [Disconnect], [Connected], [Fire] and the
      destructor as functions on that memory;
    - a concurrent layer: the statements of [Fire] and [Wait] as atomic
      steps of threads that share the signal, its mutex [Current] and its
      condition variable [Condition], interleaved by a scheduler.

    Undefined behaviour of the C++ abstract machine (an out-of-range
    [vector::erase], a dangling [Connection*]) is an explicit outcome.
    The concurrent layer is sequentially consistent: every statement takes
    effect at once and in program order, and the dispatch sequence does not
    change while threads are inside [Fire] and [Wait]. *)

From stdpp Require Import base numbers option list strings.
From Stdlib Require Import ZArith.

Local Open Scope Z_scope.
Local Open Scope nat_scope.

(** ** Outcomes *)

(** The result of a member function: a value, or undefined behaviour. *)
Inductive result (A : Type) : Type :=
  | Done (a : A)
  | Undefined.
Arguments Done {A} a.
Arguments Undefined {A}.

Definition result_bind {A B : Type} (r : result A) (k : A → result B) : result B :=
  match r with
  | Done a => k a
  | Undefined => Undefined
  end.

(** ** The heap of [Connection] objects *)

(** [struct Connection]: the [Destroy] closure and the [isConnected] flag.
    The only closure ever stored is the lambda of [Connect],
    [[this, Index = Functions.size()] { Functions.erase(Functions.begin() + Index); }],
    so [Destroy] is represented by the value it captured, [Index]. *)
Record Connection : Type := mkConnection {
  Destroy : nat;
  isConnected : bool
}.

(** A [Connection*]: the address of a heap cell. *)
Abbreviation ptr := nat (only parsing).

(** The free store.  [new] takes the next unused address, [delete] leaves a
    dead cell behind, so a deleted pointer dangles and is never reused. *)
Abbreviation Heap := (list (option Connection)) (only parsing).

Definition heap_new (c : Connection) (h : Heap) : ptr * Heap :=
  (length h, h ++ [Some c]).

Definition heap_load (p : ptr) (h : Heap) : result Connection :=
  match h !! p with
  | Some (Some c) => Done c
  | _ => Undefined
  end.

Definition heap_store (p : ptr) (c : Connection) (h : Heap) : Heap :=
  <[p := Some c]> h.

Definition heap_delete (p : ptr) (h : Heap) : result Heap :=
  match h !! p with
  | Some (Some _) => Done (<[p := None]> h)
  | _ => Undefined
  end.

(** [v.erase(v.begin() + i)]: [begin() + i] must be dereferenceable. *)
Definition vector_erase {A : Type} (v : list A) (i : nat) : result (list A) :=
  if decide (i < length v) then Done (delete i v) else Undefined.

(** A cell that holds a live [Connection] object. *)
Definition holds (h : Heap) (p : ptr) (c : Connection) : Prop :=
  h !! p = Some (Some c).

Section Model.
Context {Parameters Callable Exn : Type}.

(** What a call [Function(Arguments...)] of a stored [std::function] does
    as far as the signal can tell: it returns ([None]) or throws. A
    listener is taken not to re-enter the signal it is connected to. *)
Variable throws : Callable → Parameters → option Exn.

(** ** Sequential layer *)

(** The data members of [ScriptSignal] that hold values; [Condition] and
    [Current] only matter between threads and live in [System] below. *)
Record ScriptSignal : Type := mkScriptSignal {
  Functions : list Callable;
  Connections : list ptr;
  Idle : bool
}.

Record Memory : Type := mkMemory {
  this : ScriptSignal;
  heap : Heap
}.

(** A freshly constructed signal: empty vectors, [Idle = false]. *)
Definition ScriptSignal_new : Memory :=
  {| this := {| Functions := []; Connections := []; Idle := false |};
     heap := [] |}.

Definition M (A : Type) : Type := Memory → result (A * Memory).

#[global] Instance M_ret : MRet M := λ A a m, Done (a, m).

#[global] Instance M_bind : MBind M := λ A B k c m,
  match c m with
  | Done (a, m') => k a m'
  | Undefined => Undefined
  end.

Definition lift {A : Type} (r : result A) : M A :=
  λ m, match r with
       | Done a => Done (a, m)
       | Undefined => Undefined
       end.

Definition get_Functions : M (list Callable) := λ m, Done (Functions (this m), m).

Definition set_Functions (v : list Callable) : M unit :=
  λ m, Done (tt, {| this := {| Functions := v;
                               Connections := Connections (this m);
                               Idle := Idle (this m) |};
                    heap := heap m |}).

Definition push_Connections (p : ptr) : M unit :=
  λ m, Done (tt, {| this := {| Functions := Functions (this m);
                               Connections := Connections (this m) ++ [p];
                               Idle := Idle (this m) |};
                    heap := heap m |}).

Definition set_Idle (b : bool) (m : Memory) : Memory :=
  {| this := {| Functions := Functions (this m);
                Connections := Connections (this m);
                Idle := b |};
     heap := heap m |}.

Definition new (c : Connection) : M ptr :=
  λ m, let '(p, h) := heap_new c (heap m) in
       Done (p, {| this := this m; heap := h |}).

Definition load (p : ptr) : M Connection :=
  λ m, lift (heap_load p (heap m)) m.

Definition store (p : ptr) (c : Connection) : M unit :=
  λ m, Done (tt, {| this := this m; heap := heap_store p c (heap m) |}).

(** [Connection::Connected] (lines 59-61). *)
Definition Connected (p : ptr) : M bool :=
  c ← load p;
  mret (isConnected c).

(** The call [Destroy()]: the body of the lambda of [Connect]. *)
Definition call_Destroy (Index : nat) : M unit :=
  v ← get_Functions;
  v' ← lift (vector_erase v Index);
  set_Functions v'.

(** [Connection::Disconnect] (lines 75-80). *)
Definition Disconnect (p : ptr) : M unit :=
  c ← load p;
  if isConnected c then
    call_Destroy (Destroy c);;
    store p {| Destroy := Destroy c; isConnected := false |}
  else mret tt.

(** [ScriptSignal::Connect] (lines 156-164). *)
Definition Connect (Function : Callable) : M ptr :=
  v ← get_Functions;
  New ← new {| Destroy := length v; isConnected := true |};
  set_Functions (v ++ [Function]);;
  push_Connections New;;
  mret New.

(** What one call of a member function does that another party can see. *)
Inductive event : Type :=
  | Invoke (f : Callable) (a : Parameters)   (* [Function(Arguments...)] *)
  | Lock                                     (* [Current.lock()] *)
  | Unlock                                   (* [Current.unlock()] *)
  | SetIdle (b : bool)                       (* [Idle = b] *)
  | NotifyAll                                (* [Condition.notify_all()] *)
  | Block                                    (* sleep inside [Condition.wait] *)
  | Return (elapsed : Z).                    (* [Wait] returns *)

(** How a call of [Fire] ends. *)
Inductive completion : Type :=
  | Returned
  | Threw (e : Exn).

(** The range-for of [Fire] (lines 187-189): the first listener that
    throws ends the loop, nothing catches the exception. *)
Fixpoint invoke_all (fs : list Callable) (a : Parameters) : list event * completion :=
  match fs with
  | [] => ([], Returned)
  | f :: fs' =>
      match throws f a with
      | Some e => ([Invoke f a], Threw e)
      | None => let '(evs, c) := invoke_all fs' a in (Invoke f a :: evs, c)
      end
  end.

(** [ScriptSignal::Fire] (lines 182-193), run without interference. *)
Definition Fire (Arguments : Parameters) (m : Memory) : list event * completion * Memory :=
  match Functions (this m) with
  | [] => ([], Returned, m)
  | _ :: _ =>
      match invoke_all (Functions (this m)) Arguments with
      | (evs, Threw e) => (evs, Threw e, m)
      | (evs, Returned) =>
          (evs ++ [Lock; SetIdle true; NotifyAll; Unlock], Returned, set_Idle true m)
      end
  end.

(** [ScriptSignal::~ScriptSignal] (lines 135-139): [delete] every element
    of [Connections]; what is left is the free store. *)
Fixpoint delete_all (ps : list ptr) (h : Heap) : result Heap :=
  match ps with
  | [] => Done h
  | p :: ps' => result_bind (heap_delete p h) (delete_all ps')
  end.

Definition ScriptSignal_destructor (m : Memory) : result Heap :=
  delete_all (Connections (this m)) (heap m).

(** The listeners a call of [Fire] invoked, in order. *)
Definition invoked (evs : list event) : list (Callable * Parameters) :=
  omap (λ ev, match ev with Invoke f a => Some (f, a) | _ => None end) evs.

(** Whether a call performed the wake-up [Condition.notify_all()]. *)
Definition notifies (evs : list event) : bool :=
  existsb (λ ev, match ev with NotifyAll => true | _ => false end) evs.

(** The callables registered through the handles of [regs] whose
    [Connection] still answers [Connected() = true], in the order of
    [regs]. *)
Definition still_connected (m : Memory) (regs : list (ptr * Callable)) : list Callable :=
  omap (λ '(p, f), match heap_load p (heap m) with
                   | Done c => if isConnected c then Some f else None
                   | Undefined => None
                   end) regs.

(** The cells [Connect] allocates for listeners number [n], [n + 1], ... *)
Definition fresh_cells (n k : nat) : Heap :=
  (λ i, Some {| Destroy := i; isConnected := true |}) <$> seq n k.

(** The signal owns the whole free store: every cell is a live
    [Connection] and [Connections] lists their addresses in the order of
    allocation. *)
Definition owns_heap (m : Memory) : Prop :=
  Connections (this m) = seq 0 (length (heap m)) ∧
  ∀ q, q < length (heap m) → ∃ c, holds (heap m) q c.

(** *** Histories of calls on one signal *)

(** A call a client can make through the public interface while the
    signal is alive.  [OpWait idle] stands for a call of [Wait] that
    returned, together with whatever calls of [Fire] and [Wait] other
    threads made meanwhile: between them they write no member but [Idle]
    (lemma [exec_mem] below), and [idle] is the value they left there. *)
Inductive op : Type :=
  | OpConnect (Function : Callable)
  | OpDisconnect (p : ptr)
  | OpConnected (p : ptr)
  | OpFire (Arguments : Parameters)
  | OpWait (idle : bool).

Definition run_op (o : op) (m : Memory) : result Memory :=
  match o with
  | OpConnect f => match Connect f m with Done (_, m') => Done m' | Undefined => Undefined end
  | OpDisconnect p => match Disconnect p m with Done (_, m') => Done m' | Undefined => Undefined end
  | OpConnected p => match Connected p m with Done (_, m') => Done m' | Undefined => Undefined end
  | OpFire a => Done (Fire a m).2
  | OpWait idle => Done (set_Idle idle m)
  end.

Fixpoint run_ops (os : list op) (m : Memory) : result Memory :=
  match os with
  | [] => Done m
  | o :: os' => result_bind (run_op o m) (run_ops os')
  end.

(** [Connect] every callable of a list, in order, collecting the handles. *)
Fixpoint Connect_all (fs : list Callable) (m : Memory) : result (list ptr * Memory) :=
  match fs with
  | [] => Done ([], m)
  | f :: fs' =>
      match Connect f m with
      | Done (p, m') =>
          match Connect_all fs' m' with
          | Done (ps, m'') => Done (p :: ps, m'')
          | Undefined => Undefined
          end
      | Undefined => Undefined
      end
  end.

(** ** Concurrent layer *)

(** Threads are numbered; the mutex [Current] records its owner. *)
Abbreviation tid := nat (only parsing).

(** Where a thread stands inside its call of [Fire] or [Wait].  Each
    constructor is the statement the thread executes next. *)
Inductive pc : Type :=
  | FireEntry (a : Parameters)         (* line 183: [if (Functions.empty())] *)
  | FireLoop (a : Parameters) (i : nat) (* lines 187-189: iterator at [begin() + i] *)
  | FireLock                           (* line 191: [lock_guard Hold(Current)] *)
  | FireSet                            (* line 192: [Idle = true] *)
  | FireNotify                         (* line 192: [Condition.notify_all()] *)
  | FireUnlock                         (* line 193: [~lock_guard] *)
  | FireDone
  | FireThrew (e : Exn)
  | WaitEntry                          (* line 208: [Idle = false] *)
  | WaitClock                          (* line 210: [Time = Clock::now()] *)
  | WaitLock (Time : Z)                (* line 211: [unique_lock Lock(Current)] *)
  | WaitCheck (Time : Z)               (* line 212: the predicate, mutex held *)
  | WaitBlocked (Time : Z)             (* line 212: asleep on [Condition], mutex released *)
  | WaitWoken (Time : Z)               (* line 212: awake, re-acquiring the mutex *)
  | WaitReturn (Time : Z)              (* line 213: [Clock::now() - Time], [~unique_lock] *)
  | WaitDone (elapsed : Z).

Record System : Type := mkSystem {
  mem : Memory;
  Current : option tid;
  threads : list pc;
  now : Z                              (* [steady_clock], in milliseconds *)
}.

Definition at_pc (t : tid) (p : pc) (σ : System) : System :=
  {| mem := mem σ; Current := Current σ;
     threads := <[t := p]> (threads σ); now := now σ |}.

Definition write_Idle (b : bool) (σ : System) : System :=
  {| mem := set_Idle b (mem σ); Current := Current σ;
     threads := threads σ; now := now σ |}.

Definition set_Current (o : option tid) (σ : System) : System :=
  {| mem := mem σ; Current := o; threads := threads σ; now := now σ |}.

(** [Condition.notify_all()]: every sleeper becomes runnable. *)
Definition wake (p : pc) : pc :=
  match p with
  | WaitBlocked Time => WaitWoken Time
  | _ => p
  end.

Definition notify_all (σ : System) : System :=
  {| mem := mem σ; Current := Current σ;
     threads := wake <$> threads σ; now := now σ |}.

(** [ScriptSignal::Fire] (lines 182-193), one statement at a time, for a
    thread [t] that stands at [p]; [None] when [t] cannot move (it waits
    for the mutex or has finished). *)
Definition Fire_step (t : tid) (p : pc) (σ : System) : option (System * list (tid * event)) :=
  match p with
  | FireEntry a =>
      match Functions (this (mem σ)) with
      | [] => Some (at_pc t FireDone σ, [])
      | _ :: _ => Some (at_pc t (FireLoop a 0) σ, [])
      end
  | FireLoop a i =>
      match Functions (this (mem σ)) !! i with
      | None => Some (at_pc t FireLock σ, [])
      | Some f =>
          match throws f a with
          | Some e => Some (at_pc t (FireThrew e) σ, [(t, Invoke f a)])
          | None => Some (at_pc t (FireLoop a (S i)) σ, [(t, Invoke f a)])
          end
      end
  | FireLock =>
      match Current σ with
      | None => Some (at_pc t FireSet (set_Current (Some t) σ), [(t, Lock)])
      | Some _ => None
      end
  | FireSet => Some (at_pc t FireNotify (write_Idle true σ), [(t, SetIdle true)])
  | FireNotify => Some (at_pc t FireUnlock (notify_all σ), [(t, NotifyAll)])
  | FireUnlock => Some (at_pc t FireDone (set_Current None σ), [(t, Unlock)])
  | _ => None
  end.

(** [ScriptSignal::Wait] (lines 207-214), one statement at a time;
    [Condition.wait(Lock, pred)] is [while (!pred()) wait(Lock)].  [None]
    when [t] cannot move (it waits for the mutex, sleeps, or has returned). *)
Definition Wait_step (t : tid) (p : pc) (σ : System) : option (System * list (tid * event)) :=
  match p with
  | WaitEntry => Some (at_pc t WaitClock (write_Idle false σ), [(t, SetIdle false)])
  | WaitClock => Some (at_pc t (WaitLock (now σ)) σ, [])
  | WaitLock Time =>
      match Current σ with
      | None => Some (at_pc t (WaitCheck Time) (set_Current (Some t) σ), [(t, Lock)])
      | Some _ => None
      end
  | WaitCheck Time =>
      if Idle (this (mem σ))
      then Some (at_pc t (WaitReturn Time) σ, [])
      else Some (at_pc t (WaitBlocked Time) (set_Current None σ),
                 [(t, Unlock); (t, Block)])
  | WaitWoken Time =>
      match Current σ with
      | None => Some (at_pc t (WaitCheck Time) (set_Current (Some t) σ), [(t, Lock)])
      | Some _ => None
      end
  | WaitReturn Time =>
      let elapsed := (now σ - Time)%Z in
      Some (at_pc t (WaitDone elapsed) (set_Current None σ),
            [(t, Unlock); (t, Return elapsed)])
  | _ => None
  end.

(** A thread inside a call of [Fire]. *)
Definition in_Fire (p : pc) : bool :=
  match p with
  | FireEntry _ | FireLoop _ _ | FireLock | FireSet | FireNotify | FireUnlock
  | FireDone | FireThrew _ => true
  | _ => false
  end.

(** The next statement of thread [t]. *)
Definition step_thread (t : tid) (σ : System) : option (System * list (tid * event)) :=
  match threads σ !! t with
  | None => None
  | Some p => if in_Fire p then Fire_step t p σ else Wait_step t p σ
  end.

(** What the scheduler and the environment can do. *)
Inductive action : Type :=
  | Run (t : tid)          (* thread [t] executes its next statement *)
  | Spurious (t : tid)     (* a sleeper wakes up without a notification *)
  | Tick (d : nat).        (* [d] milliseconds pass *)

Definition step (α : action) (σ : System) : option (System * list (tid * event)) :=
  match α with
  | Run t => step_thread t σ
  | Spurious t =>
      match threads σ !! t with
      | Some (WaitBlocked Time) => Some (at_pc t (WaitWoken Time) σ, [])
      | _ => None
      end
  | Tick d =>
      Some ({| mem := mem σ; Current := Current σ; threads := threads σ;
               now := (now σ + Z.of_nat d)%Z |}, [])
  end.

(** A schedule, run from left to right. *)
Fixpoint exec (sch : list action) (σ : System) : option (System * list (tid * event)) :=
  match sch with
  | [] => Some (σ, [])
  | α :: sch' =>
      match step α σ with
      | None => None
      | Some (σ1, evs1) =>
          match exec sch' σ1 with
          | None => None
          | Some (σ2, evs2) => Some (σ2, evs1 ++ evs2)
          end
      end
  end.

(** A thread that has passed the emptiness test of [Fire] (line 183). *)
Definition firing (p : pc) : bool :=
  match p with
  | FireLoop _ _ | FireLock | FireSet | FireNotify | FireUnlock => true
  | _ => false
  end.

(** A thread inside [Wait] that has cleared [Idle] and not yet seen it set. *)
Definition waiting (p : pc) : bool :=
  match p with
  | WaitClock | WaitLock _ | WaitCheck _ | WaitBlocked _ | WaitWoken _ => true
  | _ => false
  end.

(** A thread inside [Wait] that has cleared [Idle] and not yet returned. *)
Definition unreturned (p : pc) : bool :=
  match p with
  | WaitClock | WaitLock _ | WaitCheck _ | WaitBlocked _ | WaitWoken _
  | WaitReturn _ => true
  | _ => false
  end.

(** A thread whose call of [Wait] has seen [Idle] set. *)
Definition released (p : pc) : bool :=
  match p with
  | WaitReturn _ | WaitDone _ => true
  | _ => false
  end.

(** No thread is past the emptiness test of an empty dispatch sequence:
    true when every call starts at its entry, kept by every step. *)
Definition consistent (σ : System) : Prop :=
  ∀ t p, threads σ !! t = Some p → firing p = true →
         Functions (this (mem σ)) ≠ [].

(** No call of [Fire] can reach its wake-up any more and no call of [Wait]
    has seen [Idle] set: no thread is past the emptiness test, a thread at
    the entry of [Fire] faces an empty dispatch sequence, and [Idle] is
    clear once some [Wait] has cleared it. *)
Definition stranded (σ : System) : Prop :=
  ∀ t p, threads σ !! t = Some p →
    firing p = false ∧ released p = false ∧
    (waiting p = true → Idle (this (mem σ)) = false) ∧
    (∀ a, p = FireEntry a → Functions (this (mem σ)) = []).

(** A call that has not started yet. *)
Definition entry (p : pc) : bool :=
  match p with
  | FireEntry _ | WaitEntry => true
  | _ => false
  end.

(** A new signal with the callables of [fs] connected in order. *)
Definition connected_signal (fs : list Callable) : Memory :=
  match Connect_all fs ScriptSignal_new with
  | Done (_, m) => m
  | Undefined => ScriptSignal_new
  end.

(** Threads about to call, on a signal in memory [m] at time 0. *)
Definition spawn (m : Memory) (calls : list pc) : System :=
  {| mem := m; Current := None; threads := calls; now := 0%Z |}.

End Model.

Arguments ScriptSignal : clear implicits.
Arguments Memory : clear implicits.
Arguments M : clear implicits.
Arguments event : clear implicits.
Arguments completion : clear implicits.
Arguments op : clear implicits.
Arguments pc : clear implicits.
Arguments System : clear implicits.

(** ** A schedule that loses the wake-up

    Thread 0 calls [Wait], thread 1 calls [Fire] on a signal with one
    listener.  [Fire] runs up to and including [Idle = true]; [Wait] then
    clears [Idle]; [Fire] notifies and unlocks; [Wait] locks, tests the
    predicate and goes to sleep. *)
Definition lost_wakeup : list action :=
  [Run 1; Run 1; Run 1; Run 1; Run 1;
   Run 0;
   Run 1; Run 1;
   Run 0; Run 0; Run 0].

(** ** A concrete instance

    Callables, payloads and exceptions are strings, as in
    [Examples/General.cpp], where [ScriptSignal<std::string> Welcome] is
    fired with ["Blue"] and ["Purple"].  The callable ["Boom"] throws. *)
Module Demo.
Local Open Scope string_scope.

Definition throws (f a : string) : option string :=
  if decide (f = "Boom") then Some ("Boom: " +:+ a) else None.

(** One listener connected, as in [Examples/Threads.cpp]. *)
Definition one_listener : Memory string := connected_signal ["Hello"].

(** [one_listener] after its handle has been disconnected. *)
Definition one_listener_disconnected : Memory string :=
  {| this := {| Functions := []; Connections := [0]; Idle := false |};
     heap := [Some {| Destroy := 0; isConnected := false |}] |}.

(** Two listeners connected through the public interface. *)
Definition two_connects : list (op string string) := [OpConnect "A"; OpConnect "B"].

Definition two_listeners : Memory string := connected_signal ["A"; "B"].

(** [two_listeners] after the handle of B has been disconnected. *)
Definition two_listeners_B_disconnected : Memory string :=
  {| this := {| Functions := ["A"]; Connections := [0; 1]; Idle := false |};
     heap := [Some {| Destroy := 0; isConnected := true |};
              Some {| Destroy := 1; isConnected := false |}] |}.

(** Three listeners, the second of which throws. *)
Definition with_thrower : Memory string := connected_signal ["A"; "Boom"; "C"].

(** Thread 0 calls [Wait()], thread 1 calls [Fire("Blue")]. *)
Definition wait_and_fire : System string string string :=
  spawn one_listener [WaitEntry; FireEntry "Blue"].

(** Where [wait_then_fire] below leaves [wait_and_fire]. *)
Definition waited_and_fired : System string string string :=
  {| mem := set_Idle true one_listener; Current := None;
     threads := [WaitDone 5000; FireDone]; now := 5000 |}.

(** [Wait] goes to sleep first, [Fire] runs afterwards. *)
Definition wait_then_fire : list action :=
  [Run 0; Run 0; Run 0; Run 0;
   Tick 5000;
   Run 1; Run 1; Run 1; Run 1; Run 1; Run 1; Run 1;
   Run 0; Run 0; Run 0].
End Demo.

(** ** Notions used by the further properties *)

(** What a heap cell contributes to the number of connections that answer
    [Connected() = true]. *)
Definition connected_cell (o : option Connection) : nat :=
  match o with
  | Some c => if isConnected c then 1 else 0
  | None => 0
  end.

Definition count_connected (h : Heap) : nat := sum_list_with connected_cell h.

(** Handles given in strictly decreasing order of registration. *)
Fixpoint decreasing (bound : nat) (ps : list ptr) : Prop :=
  match ps with
  | [] => True
  | p :: ps' => p < bound ∧ decreasing p ps'
  end.

(** The dispatch sequence after [erase] at the positions of [ps], first
    to last. *)
Definition erase_all {A : Type} (ps : list nat) (v : list A) : list A :=
  foldl (λ v p, delete p v) v ps.

(** The heap after the connections at [ps], each holding its own position
    as [Index], have had [isConnected] cleared. *)
Definition flags_cleared (ps : list ptr) (h : Heap) : Heap :=
  foldl (λ h p, <[p := Some {| Destroy := p; isConnected := false |}]> h) h ps.

Section Model_of_callers.
Context {Parameters Callable Exn : Type}.
Variable throws : Callable → Parameters → option Exn.

(** The handles and callables of the registrations [Connect_all fs] makes
    on a new signal. *)
Definition registrations (fs : list Callable) : list (ptr * Callable) :=
  zip (seq 0 (length fs)) fs.

(** What [main] of [Examples/General.cpp] shows on [std::cout]: a line of
    the connected listener, or a boolean. *)
Inductive shown : Type :=
  | Listener (f : Callable) (a : Parameters)
  | Boolean (b : bool).

Definition listener_lines (evs : list (event Parameters Callable)) : list shown :=
  (λ '(f, a), Listener f a) <$> invoked evs.

(** [main] of [Examples/General.cpp] (lines 7-35) for a listener [Hello]
    and the arguments [Blue] and [Purple] of the two calls of [Fire]; the
    signal [Welcome] is destroyed when [main] returns.  An exception that
    leaves [Fire] is not caught and ends the program. *)
Definition General_main (Hello : Callable) (Blue Purple : Parameters)
    : result (list shown * completion Exn * Heap) :=
  let Welcome := ScriptSignal_new in
  match Connect Hello Welcome with
  | Undefined => Undefined
  | Done (h, m1) =>
      match Fire throws Blue m1 with
      | (evs1, Threw e, m2) => Done (listener_lines evs1, Threw e, heap m2)
      | (evs1, Returned, m2) =>
          match Connected h m2 with
          | Undefined => Undefined
          | Done (c1, m3) =>
              match Disconnect h m3 with
              | Undefined => Undefined
              | Done (_, m4) =>
                  match Connected h m4 with
                  | Undefined => Undefined
                  | Done (c2, m5) =>
                      match Fire throws Purple m5 with
                      | (evs2, Threw e, m6) =>
                          Done (listener_lines evs1 ++ [Boolean c1; Boolean c2]
                                  ++ listener_lines evs2, Threw e, heap m6)
                      | (evs2, Returned, m6) =>
                          match ScriptSignal_destructor m6 with
                          | Undefined => Undefined
                          | Done h' =>
                              Done (listener_lines evs1 ++ [Boolean c1; Boolean c2]
                                      ++ listener_lines evs2, Returned, h')
                          end
                      end
                  end
              end
          end
      end
  end.

End Model_of_callers.

Arguments shown : clear implicits.

Section Notions_of_threads.
Context {Parameters Callable Exn : Type}.

(** A thread between taking and releasing [Current]: inside the scope of
    the [lock_guard] of [Fire] (lines 191-193) or holding the
    [unique_lock] of [Wait] (lines 211-213) outside the sleep. *)
Definition critical (p : pc Parameters Exn) : bool :=
  match p with
  | FireSet | FireNotify | FireUnlock | WaitCheck _ | WaitReturn _ => true
  | _ => false
  end.

(** The mutex is owned by exactly the thread that is in such a scope. *)
Definition mutex_held (σ : System Parameters Callable Exn) : Prop :=
  (∀ t p, threads σ !! t = Some p → (critical p = true ↔ Current σ = Some t)) ∧
  (∀ o, Current σ = Some o → is_Some (threads σ !! o)).

(** What the clock readings kept by a call of [Wait] that started no
    earlier than [lo] satisfy at time [hi]. *)
Definition timed (lo hi : Z) (p : pc Parameters Exn) : Prop :=
  match p with
  | WaitLock Time | WaitCheck Time | WaitBlocked Time | WaitWoken Time
  | WaitReturn Time => (lo ≤ Time ≤ hi)%Z
  | WaitDone elapsed => (0 ≤ elapsed ≤ hi - lo)%Z
  | _ => True
  end.

(** A call of [Wait] that has executed its reset of [Idle] (line 208) and
    is outside the scope of its lock. *)
Definition reset_done (p : pc Parameters Exn) : bool :=
  match p with
  | WaitClock | WaitLock _ | WaitBlocked _ | WaitWoken _ => true
  | _ => false
  end.

(** The statements a thread has still to execute, at most, before its call
    ends, when the dispatch sequence has [n] listeners and [Idle] is
    [idle]: a call of [Wait] that finds [Idle] clear goes to sleep and
    tests the predicate once more after it has been woken. *)
Definition steps_left (n : nat) (idle : bool) (p : pc Parameters Exn) : nat :=
  match p with
  | FireEntry _ => n + 6
  | FireLoop _ i => (n - i) + 5
  | FireLock => 4
  | FireSet => 3
  | FireNotify => 2
  | FireUnlock => 1
  | FireDone | FireThrew _ => 0
  | WaitEntry => 7
  | WaitClock => if idle then 4 else 6
  | WaitLock _ | WaitWoken _ => if idle then 3 else 5
  | WaitCheck _ => if idle then 2 else 4
  | WaitBlocked _ => 3
  | WaitReturn _ => 1
  | WaitDone _ => 0
  end.

Definition work (σ : System Parameters Callable Exn) : nat :=
  sum_list_with (steps_left (length (Functions (this (mem σ)))) (Idle (this (mem σ))))
    (threads σ).

(** What is known of the system when the one thread that calls [Fire(a)]
    stands at [p]: [Idle] is set from line 192 on, and after
    [notify_all] nobody sleeps. *)
Definition fire_phase (a : Parameters) (σ : System Parameters Callable Exn)
    (p : pc Parameters Exn) : Prop :=
  match p with
  | FireEntry a' | FireLoop a' _ => a' = a
  | FireLock | FireSet => True
  | FireNotify => Idle (this (mem σ)) = true
  | FireUnlock | FireDone =>
      Idle (this (mem σ)) = true ∧
      ∀ t Time, threads σ !! t ≠ Some (WaitBlocked Time)
  | _ => False
  end.

(** Thread [f] calls [Fire(a)] and every other thread is inside [Wait],
    past its reset of [Idle]. *)
Definition releasing (f : nat) (a : Parameters) (σ : System Parameters Callable Exn) : Prop :=
  (∃ p, threads σ !! f = Some p ∧ fire_phase a σ p) ∧
  (∀ t p, t ≠ f → threads σ !! t = Some p → in_Fire p = false ∧ entry p = false).

End Notions_of_threads.

(** The statements a schedule executes, and the spurious wake-ups in it. *)
Definition runs (sch : list action) : nat :=
  sum_list_with (λ α, match α with Run _ => 1 | _ => 0 end) sch.

Definition wake_ups (sch : list action) : nat :=
  sum_list_with (λ α, match α with Spurious _ => 1 | _ => 0 end) sch.

(** The events of thread [t] in a trace, in order. *)
Definition events_of {E : Type} (t : nat) (evs : list (nat * E)) : list E :=
  (filter (λ ev, ev.1 = t) evs).*2.

Section Notions_of_dispatch.
Context {Parameters Callable Exn : Type}.
Variable throws : Callable → Parameters → option Exn.

Definition returning (fs : list Callable) (a : Parameters) : Prop :=
  ∀ g, g ∈ fs → throws g a = None.

Definition calls (fs : list Callable) (a : Parameters) : list (event Parameters Callable) :=
  (λ g, Invoke g a) <$> fs.

(** The events a call of [Fire(a)] on the dispatch sequence [fs] has
    produced when its thread stands at [p]. *)
Definition dispatched (fs : list Callable) (a : Parameters) (p : pc Parameters Exn)
    (tr : list (event Parameters Callable)) : Prop :=
  match p with
  | FireEntry a' => a' = a ∧ tr = []
  | FireLoop a' i => a' = a ∧ fs ≠ [] ∧ returning (take i fs) a ∧ tr = calls (take i fs) a
  | FireLock => fs ≠ [] ∧ returning fs a ∧ tr = calls fs a
  | FireSet => fs ≠ [] ∧ returning fs a ∧ tr = calls fs a ++ [Lock]
  | FireNotify => fs ≠ [] ∧ returning fs a ∧ tr = calls fs a ++ [Lock; SetIdle true]
  | FireUnlock =>
      fs ≠ [] ∧ returning fs a ∧ tr = calls fs a ++ [Lock; SetIdle true; NotifyAll]
  | FireDone =>
      (fs = [] ∧ tr = []) ∨
      (fs ≠ [] ∧ returning fs a ∧
       tr = calls fs a ++ [Lock; SetIdle true; NotifyAll; Unlock])
  | FireThrew e =>
      ∃ pre g post, fs = pre ++ g :: post ∧ returning pre a ∧ throws g a = Some e ∧
                    tr = calls (pre ++ [g]) a
  | _ => False
  end.

End Notions_of_dispatch.

(** ** The earlier header, [Source/CPPScriptSignal-old.hpp]

    The same class with the handle as a value ([Handler], returned by
    copy), no mutex and no condition variable: [Fire] clears [Idle] while
    it calls the listeners and [Wait] polls [Idle] until it reads it
    clear.  Threads are interleaved statement by statement as above. *)
Module Old.
Section Model.
Context {Parameters Callable Exn : Type}.
Variable throws : Callable → Parameters → option Exn.

(** The data members (lines 11-12). *)
Record ScriptSignal : Type := mkScriptSignal {
  Connections : list Callable;
  Idle : bool
}.

(** [class Handler] (lines 15-34): the closure [ExternDisconnect], which is
    always the lambda of [Connect] and is represented by the [Index] it
    captured, and the public flag [Connected]. *)
Record Handler : Type := mkHandler {
  ExternDisconnect : nat;
  Connected : bool
}.

(** A new signal: no connection, [Idle{true}]. *)
Definition ScriptSignal_new : ScriptSignal :=
  {| Connections := []; Idle := true |}.

(** [ScriptSignal::Connect] (lines 37-48): the handle is returned by value. *)
Definition Connect (Function : Callable) (s : ScriptSignal) : Handler * ScriptSignal :=
  let v := Connections s ++ [Function] in
  ({| ExternDisconnect := length v - 1; Connected := true |},
   {| Connections := v; Idle := Idle s |}).

(** [Handler::Disconnect] (lines 29-33) on the handle object [h]. *)
Definition Disconnect (h : Handler) (s : ScriptSignal) : result (Handler * ScriptSignal) :=
  if negb (Connected h) then Done (h, s)
  else
    match vector_erase (Connections s) (ExternDisconnect h) with
    | Done v =>
        Done ({| ExternDisconnect := ExternDisconnect h; Connected := false |},
              {| Connections := v; Idle := Idle s |})
    | Undefined => Undefined
    end.

(** [ScriptSignal::Fire] (lines 60-68), run without interference. *)
Definition Fire (Arguments : Parameters) (s : ScriptSignal)
    : list (event Parameters Callable) * completion Exn * ScriptSignal :=
  match Connections s with
  | [] => ([], Returned, s)
  | _ :: _ =>
      match invoke_all throws (Connections s) Arguments with
      | (evs, Threw e) =>
          (SetIdle false :: evs, Threw e,
           {| Connections := Connections s; Idle := false |})
      | (evs, Returned) =>
          (SetIdle false :: evs ++ [SetIdle true], Returned,
           {| Connections := Connections s; Idle := true |})
      end
  end.

(** The conversion of the millisecond count, a [long long], to the [int]
    that [Wait] returns (line 56). *)
Definition to_int (z : Z) : Z := ((z + 2 ^ 31) `mod` 2 ^ 32 - 2 ^ 31)%Z.

(** Where a thread stands inside its call. *)
Inductive pc : Type :=
  | FireEntry (a : Parameters)          (* line 61: [if (Connections.size() == 0)] *)
  | FireClear (a : Parameters)          (* line 63: [Idle = false] *)
  | FireLoop (a : Parameters) (i : nat) (* lines 64-65 *)
  | FireSet                             (* line 67: [Idle = true] *)
  | FireDone
  | FireThrew (e : Exn)
  | WaitEntry                           (* line 52: [Time {now()}] *)
  | WaitSpin (Time : Z)                 (* line 53: [while (Idle) yield()] *)
  | WaitReturn (Time : Z)               (* line 56 *)
  | WaitDone (elapsed : Z).

Record System : Type := mkSystem {
  mem : ScriptSignal;
  threads : list pc;
  now : Z
}.

Definition at_pc (t : nat) (p : pc) (σ : System) : System :=
  {| mem := mem σ; threads := <[t := p]> (threads σ); now := now σ |}.

Definition write_Idle (b : bool) (σ : System) : System :=
  {| mem := {| Connections := Connections (mem σ); Idle := b |};
     threads := threads σ; now := now σ |}.

(** [Fire], one statement at a time. *)
Definition Fire_step (t : nat) (p : pc) (σ : System)
    : option (System * list (nat * event Parameters Callable)) :=
  match p with
  | FireEntry a =>
      match Connections (mem σ) with
      | [] => Some (at_pc t FireDone σ, [])
      | _ :: _ => Some (at_pc t (FireClear a) σ, [])
      end
  | FireClear a => Some (at_pc t (FireLoop a 0) (write_Idle false σ), [(t, SetIdle false)])
  | FireLoop a i =>
      match Connections (mem σ) !! i with
      | None => Some (at_pc t FireSet σ, [])
      | Some f =>
          match throws f a with
          | Some e => Some (at_pc t (FireThrew e) σ, [(t, Invoke f a)])
          | None => Some (at_pc t (FireLoop a (S i)) σ, [(t, Invoke f a)])
          end
      end
  | FireSet => Some (at_pc t FireDone (write_Idle true σ), [(t, SetIdle true)])
  | _ => None
  end.

(** [Wait] (lines 51-57), one statement or one turn of the loop at a time. *)
Definition Wait_step (t : nat) (p : pc) (σ : System)
    : option (System * list (nat * event Parameters Callable)) :=
  match p with
  | WaitEntry => Some (at_pc t (WaitSpin (now σ)) σ, [])
  | WaitSpin Time =>
      if Idle (mem σ)
      then Some (σ, [])
      else Some (at_pc t (WaitReturn Time) σ, [])
  | WaitReturn Time =>
      let elapsed := to_int (now σ - Time) in
      Some (at_pc t (WaitDone elapsed) σ, [(t, Return elapsed)])
  | _ => None
  end.

Definition in_Fire (p : pc) : bool :=
  match p with
  | FireEntry _ | FireClear _ | FireLoop _ _ | FireSet | FireDone | FireThrew _ => true
  | _ => false
  end.

Definition step_thread (t : nat) (σ : System)
    : option (System * list (nat * event Parameters Callable)) :=
  match threads σ !! t with
  | None => None
  | Some p => if in_Fire p then Fire_step t p σ else Wait_step t p σ
  end.

Inductive action : Type :=
  | Run (t : nat)
  | Tick (d : nat).

Definition step (α : action) (σ : System)
    : option (System * list (nat * event Parameters Callable)) :=
  match α with
  | Run t => step_thread t σ
  | Tick d =>
      Some ({| mem := mem σ; threads := threads σ; now := (now σ + Z.of_nat d)%Z |}, [])
  end.

Fixpoint exec (sch : list action) (σ : System)
    : option (System * list (nat * event Parameters Callable)) :=
  match sch with
  | [] => Some (σ, [])
  | α :: sch' =>
      match step α σ with
      | None => None
      | Some (σ1, evs1) =>
          match exec sch' σ1 with
          | None => None
          | Some (σ2, evs2) => Some (σ2, evs1 ++ evs2)
          end
      end
  end.

(** A thread inside [Wait] that has not yet read [Idle] clear. *)
Definition polling (p : pc) : bool :=
  match p with
  | WaitEntry | WaitSpin _ => true
  | _ => false
  end.

(** A thread inside [Wait] that has not returned yet. *)
Definition unreturned (p : pc) : bool :=
  match p with
  | WaitEntry | WaitSpin _ | WaitReturn _ => true
  | _ => false
  end.

(** A thread that will not write [Idle] any more. *)
Definition quiet (p : pc) : bool :=
  match p with
  | FireDone | FireThrew _ | WaitEntry | WaitSpin _ => true
  | _ => false
  end.

End Model.

Arguments ScriptSignal : clear implicits.
Arguments pc : clear implicits.
Arguments System : clear implicits.

(** Case analysis of a step of the earlier header. *)
Ltac step_cases H :=
  match type of H with
  | step _ ?α _ = Some _ =>
      destruct α as [?t | ?d]; cbn [step] in H;
      [ unfold step_thread in H;
        match type of H with
        | context [threads ?σ !! ?t] => destruct (threads σ !! t) as [[]|] eqn:?
        end;
        cbn [in_Fire Fire_step Wait_step] in H; try discriminate H
      | ]
  end;
  repeat match type of H with
    | context [match ?x with _ => _ end] => destruct x eqn:?; try discriminate H
    end;
  injection H as <- <-.

Ltac thread_lookup :=
  cbn [threads mem Idle Connections now at_pc write_Idle] in *;
  repeat match goal with
    | |- context [<[?t := _]> _ !! ?w] =>
        destruct (decide (t = w)) as [-> | ?];
        [rewrite list_lookup_insert_eq by (eapply lookup_lt_Some; eassumption)
        | rewrite list_lookup_insert_ne by assumption]
    | H : context [<[?t := _]> _ !! ?w] |- _ =>
        destruct (decide (t = w)) as [-> | ?];
        [rewrite list_lookup_insert_eq in H by (eapply lookup_lt_Some; eassumption)
        | rewrite list_lookup_insert_ne in H by assumption]
    end.

End Old.

(** ** Concrete instances for the further properties *)
Module Scenes.
Local Open Scope string_scope.

(** Three listeners, then the first two handles disconnected in the order
    of registration. *)
Definition stale_history : list (op string string) :=
  [OpConnect "A"; OpConnect "B"; OpConnect "C"; OpDisconnect 0; OpDisconnect 1].

Definition stale_memory : Memory string :=
  {| this := {| Functions := ["B"]; Connections := [0; 1; 2]; Idle := false |};
     heap := [Some {| Destroy := 0; isConnected := false |};
              Some {| Destroy := 1; isConnected := false |};
              Some {| Destroy := 2; isConnected := true |}] |}.

(** [Wait] goes to sleep, then [Fire] calls the listener and takes the
    mutex. *)
Definition until_locked : list action :=
  [Run 0; Run 0; Run 0; Run 0; Run 1; Run 1; Run 1; Run 1].

Definition locked_by_Fire : System string string string :=
  {| mem := connected_signal ["Hello"]; Current := Some 1;
     threads := [WaitBlocked 0; FireSet]; now := 0 |}.

(** Two threads asleep inside [Wait], a third about to call [Fire]. *)
Definition two_asleep : System string string string :=
  {| mem := connected_signal ["Hello"]; Current := None;
     threads := [WaitBlocked 0; WaitBlocked 3; FireEntry "Blue"]; now := 7 |}.

(** Thread 0 is woken for no reason and goes back to sleep, [Fire] runs,
    five milliseconds pass, and the two waiters return. *)
Definition woken_early : list action :=
  [Spurious 0; Run 0; Run 0;
   Run 2; Run 2; Run 2; Run 2; Run 2; Run 2; Run 2;
   Tick 5;
   Run 1; Run 1; Run 1;
   Run 0; Run 0; Run 0].

Definition all_returned : System string string string :=
  {| mem := set_Idle true (connected_signal ["Hello"]); Current := None;
     threads := [WaitDone 12; WaitDone 9; FireDone]; now := 12 |}.

(** One thread asleep inside [Wait], one about to call [Fire] on a signal
    whose second listener throws. *)
Definition asleep_before_throw : System string string string :=
  {| mem := connected_signal ["A"; "Boom"; "C"]; Current := None;
     threads := [WaitBlocked 0; FireEntry "Blue"]; now := 0 |}.

(** The earlier header: a signal with one listener, with a thrower. *)
Definition old_one_listener : Old.ScriptSignal string :=
  (Old.Connect "Hello" Old.ScriptSignal_new).2.

Definition old_thrower : Old.ScriptSignal string :=
  (Old.Connect "Boom" Old.ScriptSignal_new).2.

(** Thread 0 calls [Wait()], thread 1 calls [Fire("Blue")]. *)
Definition old_wait_and_fire : Old.System string string string :=
  {| Old.mem := old_one_listener;
     Old.threads := [Old.WaitEntry; Old.FireEntry "Blue"]; Old.now := 0 |}.

(** [Wait] tests [Idle] right after [Fire] has cleared it. *)
Definition old_seen : list Old.action :=
  [Old.Run 0; Old.Run 1; Old.Run 1; Old.Run 0; Old.Tick 5; Old.Run 0].

Definition old_seen_end : Old.System string string string :=
  {| Old.mem := {| Old.Connections := ["Hello"]; Old.Idle := false |};
     Old.threads := [Old.WaitDone 5; Old.FireLoop "Blue" 0]; Old.now := 5 |}.

(** Thread 0 is polling, thread 1 is about to call [Fire("Blue")]. *)
Definition old_polling : Old.System string string string :=
  {| Old.mem := old_one_listener;
     Old.threads := [Old.WaitSpin 0; Old.FireEntry "Blue"]; Old.now := 0 |}.
End Scenes.

(** ** Proof automation for the step function *)

(** Case analysis of a step: the action, the statement the thread is at,
    and whatever that statement tests. *)
Ltac step_cases H :=
  match type of H with
  | step _ ?α _ = Some _ =>
      destruct α as [?t | ?t | ?d]; cbn [step] in H;
      [ unfold step_thread in H;
        match type of H with
        | context [threads ?σ !! ?t] => destruct (threads σ !! t) as [[]|] eqn:?
        end;
        cbn [in_Fire Fire_step Wait_step] in H; try discriminate H
      | | ]
  end;
  repeat match type of H with
    | context [match ?x with _ => _ end] => destruct x eqn:?; try discriminate H
    end;
  injection H as <- <-.

(** Reading a thread after a step. *)
Ltac thread_lookup :=
  cbn [threads mem this Idle Functions at_pc write_Idle set_Current notify_all set_Idle] in *;
  repeat match goal with
    | |- context [<[?t := _]> _ !! ?w] =>
        destruct (decide (t = w)) as [-> | ?];
        [rewrite list_lookup_insert_eq
           by (rewrite ?length_fmap; eapply lookup_lt_Some; eassumption)
        | rewrite list_lookup_insert_ne by assumption]
    | H : context [<[?t := _]> _ !! ?w] |- _ =>
        destruct (decide (t = w)) as [-> | ?];
        [rewrite list_lookup_insert_eq in H
           by (rewrite ?length_fmap; eapply lookup_lt_Some; eassumption)
        | rewrite list_lookup_insert_ne in H by assumption]
    | |- context [(wake <$> _) !! _] => rewrite list_lookup_fmap
    | H : context [(wake <$> _) !! _] |- _ => rewrite list_lookup_fmap in H
    end.

(** * Properties *)

Section Sequential.
Context {Parameters Callable Exn : Type}.
Variable throws : Callable → Parameters → option Exn.

Implicit Types (m : Memory Callable) (p q : ptr) (f g : Callable)
  (a : Parameters) (c : Connection) (h : Heap).

(** ** The member functions, in closed form *)

Lemma Connect_eq f m :
  Connect f m =
    Done (length (heap m),
          {| this := {| Functions := Functions (this m) ++ [f];
                        Connections := Connections (this m) ++ [length (heap m)];
                        Idle := Idle (this m) |};
             heap := heap m ++ [Some {| Destroy := length (Functions (this m));
                                        isConnected := true |}] |}).
Proof. reflexivity. Qed.

Lemma Connected_eq p m :
  Connected p m =
    match heap m !! p with
    | Some (Some c) => Done (isConnected c, m)
    | _ => Undefined
    end.
Proof.
  unfold Connected, mbind, M_bind, load, lift, heap_load.
  destruct (heap m !! p) as [[c|]|]; reflexivity.
Qed.

Lemma Disconnect_eq p m :
  Disconnect p m =
    match heap m !! p with
    | Some (Some c) =>
        if isConnected c then
          if decide (Destroy c < length (Functions (this m))) then
            Done (tt, {| this := {| Functions := delete (Destroy c) (Functions (this m));
                                    Connections := Connections (this m);
                                    Idle := Idle (this m) |};
                         heap := <[p := Some {| Destroy := Destroy c;
                                                isConnected := false |}]> (heap m) |})
          else Undefined
        else Done (tt, m)
    | _ => Undefined
    end.
Proof.
  unfold Disconnect, mbind, M_bind, load, lift, heap_load.
  destruct (heap m !! p) as [[c|]|]; try reflexivity.
  destruct (isConnected c); try reflexivity.
  unfold call_Destroy, mbind, M_bind, get_Functions, lift, vector_erase; simpl.
  destruct (decide _); reflexivity.
Qed.

Lemma holds_lt h p c : holds h p c → p < length h.
Proof. intros H. by eapply lookup_lt_Some. Qed.

Lemma Connected_holds p m c :
  holds (heap m) p c → Connected p m = Done (isConnected c, m).
Proof. intros H. rewrite Connected_eq, H. reflexivity. Qed.

(** ** [Fire] visits the dispatch sequence from front to back *)

Lemma invoke_all_returns (fs : list Callable) a :
  (∀ f, f ∈ fs → throws f a = None) →
  invoke_all throws fs a = ((λ f, Invoke f a) <$> fs, Returned).
Proof.
  induction fs as [|f fs IH]; intros Hfs; simpl; [done|].
  rewrite (Hfs f) by left. rewrite IH; [done|].
  intros g Hg. apply Hfs. by right.
Qed.

Lemma invoke_all_throws (pre post : list Callable) f a e :
  (∀ g, g ∈ pre → throws g a = None) →
  throws f a = Some e →
  invoke_all throws (pre ++ f :: post) a =
    ((λ g, Invoke g a) <$> (pre ++ [f]), Threw e).
Proof.
  induction pre as [|g pre IH]; intros Hpre Hf; simpl.
  - by rewrite Hf.
  - rewrite (Hpre g) by left. rewrite IH; [done| |done].
    intros g' Hg'. apply Hpre. by right.
Qed.

Lemma invoked_Invoke (fs : list Callable) a :
  invoked ((λ f, Invoke f a) <$> fs) = (λ f, (f, a)) <$> fs.
Proof. unfold invoked. induction fs as [|f fs IH]; simpl; [done | by f_equal]. Qed.

Lemma invoked_app (evs1 evs2 : list (event Parameters Callable)) :
  invoked (evs1 ++ evs2) = invoked evs1 ++ invoked evs2.
Proof. unfold invoked. apply omap_app. Qed.

Lemma Fire_returns a m :
  (∀ f, f ∈ Functions (this m) → throws f a = None) →
  Functions (this m) ≠ [] →
  Fire throws a m =
    (((λ f, Invoke f a) <$> Functions (this m)) ++ [Lock; SetIdle true; NotifyAll; Unlock],
     Returned, set_Idle true m).
Proof.
  intros Hfs Hne. unfold Fire.
  destruct (Functions (this m)) as [|f fs] eqn:E; [done|].
  by rewrite invoke_all_returns.
Qed.

Lemma Fire_invoked a m :
  (∀ f, f ∈ Functions (this m) → throws f a = None) →
  invoked (Fire throws a m).1.1 = (λ f, (f, a)) <$> Functions (this m).
Proof.
  intros Hfs. destruct (Functions (this m)) as [|f fs] eqn:E.
  - unfold Fire. by rewrite E.
  - rewrite Fire_returns by (rewrite ?E; done). simpl.
    rewrite invoked_app, invoked_Invoke, E. simpl. by rewrite app_nil_r.
Qed.

(** ** Registration *)

Lemma Connect_all_eq (fs : list Callable) m :
  Connect_all fs m =
    Done (seq (length (heap m)) (length fs),
          {| this := {| Functions := Functions (this m) ++ fs;
                        Connections := Connections (this m)
                                         ++ seq (length (heap m)) (length fs);
                        Idle := Idle (this m) |};
             heap := heap m ++ fresh_cells (length (Functions (this m))) (length fs) |}).
Proof.
  revert m. induction fs as [|f fs IH]; intros m.
  - simpl. unfold fresh_cells. simpl. rewrite !app_nil_r. by destruct m as [[] ?].
  - cbn [Connect_all]. rewrite Connect_eq, IH. cbn [this heap Functions Connections Idle].
    rewrite !length_app. cbn [length]. rewrite !Nat.add_1_r.
    rewrite <- !app_assoc. reflexivity.
Qed.

Lemma fresh_cells_holds n k i :
  i < k → fresh_cells n k !! i = Some (Some {| Destroy := n + i; isConnected := true |}).
Proof.
  intros Hi. unfold fresh_cells. rewrite list_lookup_fmap, lookup_seq_lt by done.
  reflexivity.
Qed.

Lemma still_connected_all m (ps : list ptr) (fs : list Callable) :
  length ps = length fs →
  (∀ p, p ∈ ps → ∃ c, holds (heap m) p c ∧ isConnected c = true) →
  still_connected m (zip ps fs) = fs.
Proof.
  revert fs. induction ps as [|p ps IH]; intros [|f fs] Hlen Hps; try done.
  destruct (Hps p) as (c & Hc & Hconn); [left|].
  unfold still_connected in *. simpl.
  unfold holds in Hc. unfold heap_load at 1. rewrite Hc, Hconn. f_equal.
  apply IH; [by injection Hlen|]. intros q Hq. apply Hps. by right.
Qed.

(** As long as no handle has been disconnected: after any sequence of
    [Connect] calls on a new signal, [Fire(a)] invokes the listeners of
    the connections that are still connected, each once with [a], in
    registration order; these are all the registered listeners.  Listeners
    are taken to return. *)
Theorem Fire_invokes_connected_in_order (fs : list Callable) a :
  (∀ f, f ∈ fs → throws f a = None) →
  ∃ ps m,
    Connect_all fs ScriptSignal_new = Done (ps, m) ∧
    length ps = length fs ∧
    still_connected m (zip ps fs) = fs ∧
    invoked (Fire throws a m).1.1 = (λ f, (f, a)) <$> still_connected m (zip ps fs) ∧
    (Fire throws a m).1.2 = Returned.
Proof.
  intros Hfs. rewrite Connect_all_eq. eexists _, _. split; [reflexivity|].
  cbn [heap this Functions ScriptSignal_new length app].
  assert (Hsc : ∀ X I, still_connected
            {| this := {| Functions := fs; Connections := X; Idle := I |};
               heap := fresh_cells 0 (length fs) |} (zip (seq 0 (length fs)) fs) = fs).
  { intros X I. apply still_connected_all; [by rewrite length_seq|].
    intros p Hp. apply elem_of_seq in Hp. eexists. split.
    - unfold holds. cbn [heap]. apply fresh_cells_holds. lia.
    - reflexivity. }
  split; [by rewrite length_seq|]. split; [apply Hsc|].
  rewrite Hsc. split.
  - by rewrite Fire_invoked.
  - destruct fs as [|f fs']; [reflexivity|].
    rewrite Fire_returns; [reflexivity|done|done].
Qed.

(** ** What a call leaves alone *)

Lemma Fire_mem a m :
  (Fire throws a m).2 = m ∨ (Fire throws a m).2 = set_Idle true m.
Proof.
  unfold Fire. destruct (Functions (this m)) as [|f fs]; [by left|].
  destruct (invoke_all _ _ _) as [evs [|e]]; [by right | by left].
Qed.

Lemma Fire_heap a m : heap (Fire throws a m).2 = heap m.
Proof. by destruct (Fire_mem a m) as [-> | ->]. Qed.

Lemma Fire_Connections a m :
  Connections (this (Fire throws a m).2) = Connections (this m).
Proof. by destruct (Fire_mem a m) as [-> | ->]. Qed.

Lemma Fire_Functions a m :
  Functions (this (Fire throws a m).2) = Functions (this m).
Proof. by destruct (Fire_mem a m) as [-> | ->]. Qed.

(** A call changes the [Connection] behind [p] only if it is
    [p->Disconnect()] and [p] is connected. *)
Lemma run_op_holds (o : op Parameters Callable) m m' p c :
  run_op throws o m = Done m' →
  holds (heap m) p c →
  o ≠ OpDisconnect p ∨ isConnected c = false →
  holds (heap m') p c.
Proof.
  intros Hrun Hp Hor. unfold holds in *.
  destruct o as [f | q | q | a' | b]; cbn [run_op] in Hrun.
  - rewrite Connect_eq in Hrun. injection Hrun as <-. cbn [heap].
    rewrite lookup_app_l; [done | by eapply lookup_lt_Some].
  - rewrite Disconnect_eq in Hrun.
    destruct (heap m !! q) as [[c0|]|] eqn:Hq; try done.
    destruct (isConnected c0) eqn:Hc0; [|by injection Hrun as <-].
    destruct (decide _); [|done]. injection Hrun as <-. cbn [heap].
    destruct (decide (q = p)) as [-> | Hne].
    + rewrite Hp in Hq. injection Hq as ->.
      destruct Hor as [Hor | Hor]; [done | congruence].
    + by rewrite list_lookup_insert_ne.
  - rewrite Connected_eq in Hrun.
    destruct (heap m !! q) as [[c0|]|]; try done. by injection Hrun as <-.
  - injection Hrun as <-. by rewrite Fire_heap.
  - by injection Hrun as <-.
Qed.

Lemma run_ops_holds (os : list (op Parameters Callable)) m m' p c :
  run_ops throws os m = Done m' →
  holds (heap m) p c →
  OpDisconnect p ∉ os ∨ isConnected c = false →
  holds (heap m') p c.
Proof.
  revert m. induction os as [|o os IH]; intros m Hrun Hp Hor; simpl in Hrun.
  - by injection Hrun as <-.
  - destruct (run_op throws o m) as [m1|] eqn:Ho; [|done]. simpl in Hrun.
    apply (IH m1); [done | |].
    + eapply run_op_holds; [done..|].
      destruct Hor as [Hor | Hor]; [left | by right].
      intros ->. apply Hor. left.
    + destruct Hor as [Hor | Hor]; [left | by right].
      intros Hin. apply Hor. by right.
Qed.

(** No call frees a [Connection], and [Connections] only grows. *)
Lemma run_op_alive (o : op Parameters Callable) m m' p c :
  run_op throws o m = Done m' →
  holds (heap m) p c →
  ∃ c', holds (heap m') p c' ∧ Destroy c' = Destroy c.
Proof.
  intros Hrun Hp.
  assert (Hkeep : o ≠ OpDisconnect p ∨ isConnected c = false →
                  ∃ c', holds (heap m') p c' ∧ Destroy c' = Destroy c).
  { intros Hor. exists c. split; [|done]. by eapply run_op_holds. }
  destruct o as [f | q | q | a' | b]; try (apply Hkeep; by left).
  destruct (decide (q = p)) as [-> | Hne]; [|apply Hkeep; left; congruence].
  destruct (isConnected c) eqn:Hc; [|apply Hkeep; by right].
  cbn [run_op] in Hrun. rewrite Disconnect_eq in Hrun. unfold holds in *.
  rewrite Hp, Hc in Hrun. destruct (decide _); [|done].
  injection Hrun as <-. cbn [heap]. eexists. split.
  - apply list_lookup_insert_eq. by eapply lookup_lt_Some.
  - reflexivity.
Qed.

Lemma run_op_Connections (o : op Parameters Callable) m m' :
  run_op throws o m = Done m' →
  Connections (this m) `prefix_of` Connections (this m').
Proof.
  intros Hrun. destruct o as [f | q | q | a' | b]; cbn [run_op] in Hrun.
  - rewrite Connect_eq in Hrun. injection Hrun as <-. cbn. by eexists.
  - rewrite Disconnect_eq in Hrun.
    destruct (heap m !! q) as [[c0|]|]; try done.
    destruct (isConnected c0); [|by injection Hrun as <-].
    destruct (decide _); [|done]. by injection Hrun as <-.
  - rewrite Connected_eq in Hrun.
    destruct (heap m !! q) as [[c0|]|]; try done. by injection Hrun as <-.
  - injection Hrun as <-. by rewrite Fire_Connections.
  - by injection Hrun as <-.
Qed.

Lemma run_ops_alive (os : list (op Parameters Callable)) m m' p c :
  run_ops throws os m = Done m' →
  holds (heap m) p c →
  ∃ c', holds (heap m') p c' ∧ Destroy c' = Destroy c.
Proof.
  revert m c. induction os as [|o os IH]; intros m c Hrun Hp; simpl in Hrun.
  - injection Hrun as <-. by exists c.
  - destruct (run_op throws o m) as [m1|] eqn:Ho; [|done]. simpl in Hrun.
    destruct (run_op_alive _ _ _ _ _ Ho Hp) as (c1 & Hc1 & E1).
    destruct (IH _ _ Hrun Hc1) as (c2 & Hc2 & E2).
    exists c2. split; [done | congruence].
Qed.

Lemma run_ops_Connections (os : list (op Parameters Callable)) m m' :
  run_ops throws os m = Done m' →
  Connections (this m) `prefix_of` Connections (this m').
Proof.
  revert m. induction os as [|o os IH]; intros m Hrun; simpl in Hrun.
  - by injection Hrun as <-.
  - destruct (run_op throws o m) as [m1|] eqn:Ho; [|done]. simpl in Hrun.
    etrans; [by eapply run_op_Connections | by apply IH].
Qed.

(** ** Connection state *)

(** C10. [Connect] returns a handle whose [Connected()] is true, and it
    stays true through every later call on the signal that is not
    [Disconnect] on that handle. *)
Theorem Connect_starts_Connected f m :
  ∃ p m1,
    Connect f m = Done (p, m1) ∧
    Connected p m1 = Done (true, m1) ∧
    ∀ (os : list (op Parameters Callable)) m2,
      OpDisconnect p ∉ os →
      run_ops throws os m1 = Done m2 →
      Connected p m2 = Done (true, m2).
Proof.
  rewrite Connect_eq. eexists _, _. split; [reflexivity|].
  set (c := {| Destroy := length (Functions (this m)); isConnected := true |}).
  set (m1 := mkMemory _ _).
  assert (Hc : holds (heap m1) (length (heap m)) c).
  { unfold holds, m1. cbn [heap]. by apply list_lookup_middle. }
  split.
  - by rewrite (Connected_holds _ _ _ Hc).
  - intros os m2 Hos Hrun.
    assert (Hc2 : holds (heap m2) (length (heap m)) c).
    { eapply run_ops_holds; [done.. | by left]. }
    by rewrite (Connected_holds _ _ _ Hc2).
Qed.

(** What a successful [Disconnect] leaves behind its handle. *)
Lemma Disconnect_holds p m m1 :
  Disconnect p m = Done (tt, m1) →
  ∃ c, holds (heap m) p c ∧
       holds (heap m1) p {| Destroy := Destroy c; isConnected := false |}.
Proof.
  intros HD. rewrite Disconnect_eq in HD. unfold holds.
  destruct (heap m !! p) as [[c|]|] eqn:Hp; try done.
  exists c. split; [done|].
  destruct (isConnected c) eqn:Hc.
  - destruct (decide _); [|done]. injection HD as <-. cbn [heap].
    apply list_lookup_insert_eq. by eapply lookup_lt_Some.
  - injection HD as <-. rewrite Hp. by destruct c as [d []].
Qed.

Lemma Disconnect_disconnected p m c :
  holds (heap m) p c → isConnected c = false → Disconnect p m = Done (tt, m).
Proof. intros Hp Hc. unfold holds in Hp. by rewrite Disconnect_eq, Hp, Hc. Qed.

(** C6. Once [Disconnect] has returned, [Connected()] is false, a further
    [Disconnect] changes nothing and returns, and both stay so through
    every later call on the signal. *)
Theorem Disconnect_idempotent p m m1 :
  Disconnect p m = Done (tt, m1) →
  Connected p m1 = Done (false, m1) ∧
  Disconnect p m1 = Done (tt, m1) ∧
  ∀ (os : list (op Parameters Callable)) m2,
    run_ops throws os m1 = Done m2 →
    Connected p m2 = Done (false, m2) ∧ Disconnect p m2 = Done (tt, m2).
Proof.
  intros HD. destruct (Disconnect_holds _ _ _ HD) as (c & _ & Hc1).
  split; [by rewrite (Connected_holds _ _ _ Hc1)|].
  split; [by eapply Disconnect_disconnected|].
  intros os m2 Hrun.
  assert (Hc2 : holds (heap m2) p {| Destroy := Destroy c; isConnected := false |}).
  { eapply run_ops_holds; [done.. | by right]. }
  split; [by rewrite (Connected_holds _ _ _ Hc2) | by eapply Disconnect_disconnected].
Qed.

(** ** Failure of a listener *)

(** C4. When the listener at some position throws [e] and the ones before
    it return, [Fire] ends with [e] itself, has invoked the listeners up to
    and including that one and none after it, has not notified, and leaves
    the memory of the signal, [Idle] included, as it was. *)
Theorem Fire_propagates_throw a m (pre post : list Callable) f e :
  Functions (this m) = pre ++ f :: post →
  (∀ g, g ∈ pre → throws g a = None) →
  throws f a = Some e →
  Fire throws a m = ((λ g, Invoke g a) <$> (pre ++ [f]), Threw e, m) ∧
  invoked (Fire throws a m).1.1 = (λ g, (g, a)) <$> (pre ++ [f]) ∧
  notifies (Fire throws a m).1.1 = false ∧
  Idle (this (Fire throws a m).2) = Idle (this m).
Proof.
  intros HF Hpre Hf.
  assert (E : Fire throws a m = ((λ g, Invoke g a) <$> (pre ++ [f]), Threw e, m)).
  { unfold Fire. rewrite HF. rewrite (invoke_all_throws pre post f a e) by done.
    by destruct pre. }
  rewrite E. cbn [fst snd]. split; [done|]. split; [apply invoked_Invoke|].
  split; [|done]. unfold notifies. apply not_true_is_false. intros H.
  apply existsb_exists in H as (ev & Hin & Hev).
  apply list_elem_of_In, list_elem_of_fmap in Hin as (g & -> & _). done.
Qed.

(** ** The same callable connected twice *)

(** C3. Connecting one callable twice appends two entries and yields two
    distinct handles, both connected, and [Fire] invokes the callable once
    per entry.  Disconnecting either handle next removes one of the two
    entries, leaves the other handle connected, and [Fire] still invokes
    the callable for it. *)
Theorem Connect_same_callable_twice f a m :
  (∀ g, g ∈ Functions (this m) ++ [f] → throws g a = None) →
  ∃ p1 p2 m2,
    (p1 ← Connect f; p2 ← Connect f; mret (p1, p2)) m = Done ((p1, p2), m2) ∧
    p1 ≠ p2 ∧
    Functions (this m2) = Functions (this m) ++ [f; f] ∧
    Connected p1 m2 = Done (true, m2) ∧
    Connected p2 m2 = Done (true, m2) ∧
    invoked (Fire throws a m2).1.1
      = ((λ g, (g, a)) <$> Functions (this m)) ++ [(f, a); (f, a)] ∧
    (∃ m3, Disconnect p1 m2 = Done (tt, m3) ∧
           Connected p1 m3 = Done (false, m3) ∧
           Connected p2 m3 = Done (true, m3) ∧
           invoked (Fire throws a m3).1.1
             = ((λ g, (g, a)) <$> Functions (this m)) ++ [(f, a)]) ∧
    (∃ m3, Disconnect p2 m2 = Done (tt, m3) ∧
           Connected p2 m3 = Done (false, m3) ∧
           Connected p1 m3 = Done (true, m3) ∧
           invoked (Fire throws a m3).1.1
             = ((λ g, (g, a)) <$> Functions (this m)) ++ [(f, a)]).
Proof.
  intros Hret.
  set (n := length (Functions (this m))).
  set (c1 := {| Destroy := n; isConnected := true |}).
  set (c2 := {| Destroy := S n; isConnected := true |}).
  set (m2 := {| this := {| Functions := Functions (this m) ++ [f; f];
                           Connections := Connections (this m)
                                            ++ [length (heap m); S (length (heap m))];
                           Idle := Idle (this m) |};
                heap := heap m ++ [Some c1; Some c2] |}).
  assert (Hret2 : ∀ g, g ∈ Functions (this m) ++ [f; f] → throws g a = None).
  { intros g Hg. apply Hret.
    apply elem_of_app in Hg as [Hg | Hg]; apply elem_of_app; [by left | right].
    apply elem_of_cons in Hg as [-> | Hg]; [by left | done]. }
  assert (H1 : heap m2 !! length (heap m) = Some (Some c1)).
  { unfold m2. cbn [heap]. by apply list_lookup_middle. }
  assert (H2 : heap m2 !! S (length (heap m)) = Some (Some c2)).
  { unfold m2. cbn [heap]. change [Some c1; Some c2] with ([Some c1] ++ [Some c2]).
    rewrite app_assoc. apply list_lookup_middle. rewrite length_app. simpl. lia. }
  assert (Hlen : length (Functions (this m2)) = S (S n)).
  { unfold m2, n. cbn [this Functions]. rewrite length_app. simpl. lia. }
  exists (length (heap m)), (S (length (heap m))), m2.
  split.
  { unfold mbind, M_bind, mret, M_ret. rewrite Connect_eq.
    cbn [heap this Functions Connections Idle]. rewrite Connect_eq.
    cbn [heap this Functions Connections Idle].
    unfold m2, c1, c2, n. rewrite !length_app. cbn [length].
    rewrite !Nat.add_1_r, <- !app_assoc. reflexivity. }
  split; [lia|]. split; [reflexivity|].
  split; [by rewrite Connected_eq, H1|].
  split; [by rewrite Connected_eq, H2|].
  split.
  { rewrite Fire_invoked by done. unfold m2. cbn [this Functions].
    by rewrite fmap_app. }
  assert (Hdel1 : delete n (Functions (this m2)) = Functions (this m) ++ [f]).
  { unfold n. apply (delete_middle (Functions (this m)) [f] f). }
  assert (Hdel2 : delete (S n) (Functions (this m2)) = Functions (this m) ++ [f]).
  { unfold m2. cbn [this Functions]. change [f; f] with ([f] ++ [f]). rewrite app_assoc.
    replace (S n) with (length (Functions (this m) ++ [f]))
      by (rewrite length_app; simpl; unfold n; lia).
    rewrite (delete_middle (Functions (this m) ++ [f]) [] f). by rewrite app_nil_r. }
  assert (Hlt1 : length (heap m) < length (heap m2)) by (by eapply lookup_lt_Some).
  assert (Hlt2 : S (length (heap m)) < length (heap m2)) by (by eapply lookup_lt_Some).
  split.
  - eexists. split.
    { rewrite Disconnect_eq, H1. cbn [isConnected Destroy c1].
      rewrite decide_True by lia. rewrite Hdel1. reflexivity. }
    split; [|split].
    + rewrite Connected_eq. cbn [heap]. by rewrite list_lookup_insert_eq.
    + rewrite Connected_eq. cbn [heap]. rewrite list_lookup_insert_ne by lia.
      by rewrite H2.
    + rewrite Fire_invoked by done. cbn [this Functions]. by rewrite fmap_app.
  - eexists. split.
    { rewrite Disconnect_eq, H2. cbn [isConnected Destroy c2].
      rewrite decide_True by lia. rewrite Hdel2. reflexivity. }
    split; [|split].
    + rewrite Connected_eq. cbn [heap]. by rewrite list_lookup_insert_eq.
    + rewrite Connected_eq. cbn [heap]. rewrite list_lookup_insert_ne by lia.
      by rewrite H1.
    + rewrite Fire_invoked by done. cbn [this Functions]. by rewrite fmap_app.
Qed.

(** ** Ownership of the handles *)

Lemma owns_heap_new : owns_heap (ScriptSignal_new (Callable := Callable)).
Proof. split; [done|]. simpl. lia. Qed.

Lemma run_op_owns_heap (o : op Parameters Callable) m m' :
  run_op throws o m = Done m' → owns_heap m → owns_heap m'.
Proof.
  intros Hrun [HC Hlive].
  destruct o as [f | q | q | a' | b]; cbn [run_op] in Hrun.
  - rewrite Connect_eq in Hrun. injection Hrun as <-. split; cbn [this heap Connections].
    + rewrite length_app, HC. simpl. by rewrite seq_app.
    + intros q Hq. rewrite length_app in Hq. simpl in Hq. unfold holds.
      destruct (decide (q = length (heap m))) as [-> | Hne].
      * eexists. by apply list_lookup_middle.
      * destruct (Hlive q) as [c Hc]; [lia|]. exists c.
        rewrite lookup_app_l by lia. done.
  - rewrite Disconnect_eq in Hrun.
    destruct (heap m !! q) as [[c0|]|] eqn:Hq; try done.
    destruct (isConnected c0); [|by injection Hrun as <-].
    destruct (decide _); [|done]. injection Hrun as <-.
    split; cbn [this heap Connections].
    + by rewrite length_insert.
    + intros q' Hq'. rewrite length_insert in Hq'. unfold holds.
      destruct (decide (q = q')) as [-> | Hne].
      * eexists. by apply list_lookup_insert_eq.
      * rewrite list_lookup_insert_ne by done. by apply Hlive.
  - rewrite Connected_eq in Hrun.
    destruct (heap m !! q) as [[c0|]|]; try done. by injection Hrun as <-.
  - injection Hrun as <-. split.
    + by rewrite Fire_Connections, Fire_heap.
    + rewrite Fire_heap. apply Hlive.
  - by injection Hrun as <-.
Qed.

Lemma run_ops_owns_heap (os : list (op Parameters Callable)) m m' :
  run_ops throws os m = Done m' → owns_heap m → owns_heap m'.
Proof.
  revert m. induction os as [|o os IH]; intros m Hrun Hm; simpl in Hrun.
  - by injection Hrun as <-.
  - destruct (run_op throws o m) as [m1|] eqn:Ho; [|done]. simpl in Hrun.
    apply (IH m1); [done|]. by eapply run_op_owns_heap.
Qed.

(** The loop of the destructor over live cells [k], ..., [k + j - 1]. *)
Lemma delete_all_seq j : ∀ k h,
  (∀ q, k ≤ q < k + j → ∃ c, holds h q c) →
  ∃ h', delete_all (seq k j) h = Done h' ∧
        (∀ q, k ≤ q < k + j → h' !! q = Some None) ∧
        (∀ q, ¬ (k ≤ q < k + j) → h' !! q = h !! q).
Proof.
  induction j as [|j IH]; intros k h Hlive.
  - exists h. split; [done|]. split; [lia | done].
  - destruct (Hlive k) as [c Hc]; [lia|]. unfold holds in Hc.
    cbn [seq delete_all]. unfold heap_delete. rewrite Hc. cbn [result_bind].
    destruct (IH (S k) (<[k := None]> h)) as (h' & Hdel & Hin & Hout).
    { intros q Hq. destruct (Hlive q) as [c' Hc']; [lia|]. exists c'.
      unfold holds. rewrite list_lookup_insert_ne by lia. done. }
    exists h'. split; [done|]. split.
    + intros q Hq. destruct (decide (q = k)) as [-> | Hne].
      * rewrite Hout by lia. apply list_lookup_insert_eq. by eapply lookup_lt_Some.
      * apply Hin. lia.
    + intros q Hq. rewrite Hout by lia. apply list_lookup_insert_ne. lia.
Qed.

Lemma destructor_frees_all m :
  owns_heap m →
  ∃ h, ScriptSignal_destructor m = Done h ∧
       ∀ q, q ∈ Connections (this m) → h !! q = Some None.
Proof.
  intros [HC Hlive]. unfold ScriptSignal_destructor. rewrite HC.
  destruct (delete_all_seq (length (heap m)) 0 (heap m)) as (h & Hdel & Hin & _).
  { intros q Hq. apply Hlive. lia. }
  exists h. split; [done|]. intros q Hq. apply elem_of_seq in Hq. apply Hin. lia.
Qed.

(** C9. On a signal built by any history of calls, a [Disconnect] that
    returns leaves [Connections], [Idle] and every other [Connection]
    untouched and only clears the flag of its own [Connection]; the handle
    stays in [Connections] and stays allocated through every later call, and
    the destructor returns and has freed every handle in [Connections]. *)
Theorem Disconnect_keeps_Connections (os0 : list (op Parameters Callable)) p m m1 :
  run_ops throws os0 ScriptSignal_new = Done m →
  Disconnect p m = Done (tt, m1) →
  Connections (this m1) = Connections (this m) ∧
  Idle (this m1) = Idle (this m) ∧
  p ∈ Connections (this m1) ∧
  (∀ q, q ≠ p → heap m1 !! q = heap m !! q) ∧
  (∃ c, holds (heap m) p c ∧
        holds (heap m1) p {| Destroy := Destroy c; isConnected := false |}) ∧
  ∀ (os : list (op Parameters Callable)) m2,
    run_ops throws os m1 = Done m2 →
    p ∈ Connections (this m2) ∧
    (∃ c', holds (heap m2) p c') ∧
    ∃ h, ScriptSignal_destructor m2 = Done h ∧
         ∀ q, q ∈ Connections (this m2) → h !! q = Some None.
Proof.
  intros Hreach HD.
  assert (Hown : owns_heap m) by (eapply run_ops_owns_heap; [done | apply owns_heap_new]).
  assert (Hown1 : owns_heap m1).
  { apply (run_op_owns_heap (OpDisconnect p) m); [|done]. cbn [run_op]. by rewrite HD. }
  destruct (Disconnect_holds _ _ _ HD) as (c & Hc & Hc1).
  assert (Hp1 : p ∈ Connections (this m1)).
  { destruct Hown1 as [-> _]. apply elem_of_seq. apply holds_lt in Hc1. lia. }
  assert (Hframe : Connections (this m1) = Connections (this m) ∧
                   Idle (this m1) = Idle (this m) ∧
                   ∀ q, q ≠ p → heap m1 !! q = heap m !! q).
  { rewrite Disconnect_eq in HD. unfold holds in Hc. rewrite Hc in HD.
    destruct (isConnected c); [|by injection HD as <-].
    destruct (decide _); [|done]. injection HD as <-. cbn [this heap Connections Idle].
    split; [done|]. split; [done|]. intros q Hq. by apply list_lookup_insert_ne. }
  destruct Hframe as (HC & HI & Hother).
  split; [done|]. split; [done|]. split; [done|]. split; [done|].
  split; [by exists c|].
  intros os m2 Hrun. split; [|split].
  - eapply elem_of_prefix; [done|]. by eapply run_ops_Connections.
  - destruct (run_ops_alive _ _ _ _ _ Hrun Hc1) as (c' & Hc' & _). by exists c'.
  - apply destructor_frees_all. by eapply run_ops_owns_heap.
Qed.

End Sequential.

Section Concurrent.
Context {Parameters Callable Exn : Type}.
Variable throws : Callable → Parameters → option Exn.

Implicit Types (σ : System Parameters Callable Exn) (p : pc Parameters Exn)
  (t w : nat) (evs : list (nat * event Parameters Callable)) (α : action).

(** ** One step *)

Lemma step_thread_at t σ p :
  threads σ !! t = Some p →
  step_thread throws t σ = if in_Fire p then Fire_step throws t p σ else Wait_step t p σ.
Proof. intros Ht. unfold step_thread. by rewrite Ht. Qed.

Lemma step_Functions α σ σ' evs :
  step throws α σ = Some (σ', evs) →
  Functions (this (mem σ')) = Functions (this (mem σ)).
Proof. intros H. step_cases H; cbn; congruence. Qed.

(** A step of [Fire] or [Wait] writes no member of the signal but [Idle]. *)
Lemma step_mem α σ σ' evs :
  step throws α σ = Some (σ', evs) →
  ∃ b, mem σ' = set_Idle b (mem σ).
Proof.
  intros H.
  assert (E : mem σ = set_Idle (Idle (this (mem σ))) (mem σ))
    by (by destruct (mem σ) as [[] ?]).
  step_cases H; cbn [mem at_pc write_Idle set_Current notify_all];
    by eexists.
Qed.

Lemma exec_mem sch σ σ' evs :
  exec throws sch σ = Some (σ', evs) →
  ∃ b, mem σ' = set_Idle b (mem σ).
Proof.
  revert σ evs. induction sch as [|α sch IH]; intros σ evs H; cbn [exec] in H.
  - injection H as <- <-. exists (Idle (this (mem σ))). by destruct (mem σ) as [[] ?].
  - destruct (step throws α σ) as [[σ1 evs1]|] eqn:Hstep; [|done].
    destruct (exec throws sch σ1) as [[σ2 evs2]|] eqn:Hexec; [|done].
    injection H as <- <-.
    destruct (step_mem _ _ _ _ Hstep) as [b1 E1].
    destruct (IH _ _ Hexec) as [b2 E2]. exists b2. by rewrite E2, E1.
Qed.

Lemma step_stranded α σ σ' evs :
  step throws α σ = Some (σ', evs) →
  stranded σ →
  stranded σ' ∧
  ∀ t, ((t, SetIdle true) ∉ evs) ∧ ((t, NotifyAll) ∉ evs) ∧
       ∀ f a, (t, Invoke f a) ∉ evs.
Proof.
  intros H Hs.
  step_cases H;
    try match goal with
      | Ht : threads σ !! _ = Some _ |- _ =>
          destruct (Hs _ _ Ht) as (Hf & Hr & Hw & He); cbn in Hf, Hr, Hw;
          try discriminate;
          try specialize (Hw eq_refl); try specialize (He _ eq_refl);
          try congruence
      end.
  all: split;
    [ intros t' p' Hl; thread_lookup
    | intros t'; split; [|split; [|intros f' a']];
      (repeat (apply not_elem_of_cons; split; [discriminate|])); apply not_elem_of_nil ].
  all: try (injection Hl as <-; cbn; repeat split; try done; congruence).
  all: destruct (Hs _ _ Hl) as (? & ? & ? & ?); repeat split; auto.
Qed.

Lemma exec_stranded sch σ σ' evs :
  exec throws sch σ = Some (σ', evs) →
  stranded σ →
  stranded σ' ∧
  ∀ t, ((t, SetIdle true) ∉ evs) ∧ ((t, NotifyAll) ∉ evs) ∧
       ∀ f a, (t, Invoke f a) ∉ evs.
Proof.
  revert σ evs. induction sch as [|α sch IH]; intros σ evs H Hs; cbn [exec] in H.
  - injection H as <- <-. split; [done|]. intros t.
    split; [|split; [|intros f a]]; apply not_elem_of_nil.
  - destruct (step throws α σ) as [[σ1 evs1]|] eqn:Hstep; [|done].
    destruct (exec throws sch σ1) as [[σ2 evs2]|] eqn:Hexec; [|done].
    injection H as <- <-.
    destruct (step_stranded _ _ _ _ Hstep Hs) as [Hs1 Hevs1].
    destruct (IH _ _ Hexec Hs1) as [Hs2 Hevs2].
    split; [done|]. intros t.
    destruct (Hevs1 t) as (Hs1' & Hn1 & Hi1). destruct (Hevs2 t) as (Hs2' & Hn2 & Hi2).
    split; [|split; [|intros f a]]; rewrite elem_of_app; intros [? | ?];
      try done; first [by eapply Hi1 | by eapply Hi2].
Qed.


Lemma step_consistent α σ σ' evs :
  step throws α σ = Some (σ', evs) → consistent σ → consistent σ'.
Proof.
  intros H Hc t' p' Hl Hp' Hnil. rewrite (step_Functions _ _ _ _ H) in Hnil.
  step_cases H; thread_lookup;
    try (injection Hl as <-; cbn in Hp');
    try discriminate; try congruence;
    try match goal with
      | Ht : threads σ !! ?t = Some ?q |- _ =>
          solve [apply (Hc t q Ht); [reflexivity || assumption | assumption]]
      end.
  all: destruct (threads σ !! t') as [q|] eqn:Hq; [|done];
    injection Hl as <-; apply (Hc t' q Hq); [by destruct q | done].
Qed.

Lemma exec_consistent sch σ σ' evs :
  exec throws sch σ = Some (σ', evs) → consistent σ → consistent σ'.
Proof.
  revert σ evs. induction sch as [|α sch IH]; intros σ evs H Hc; cbn [exec] in H.
  - by injection H as <- <-.
  - destruct (step throws α σ) as [[σ1 evs1]|] eqn:Hstep; [|done].
    destruct (exec throws sch σ1) as [[σ2 evs2]|] eqn:Hexec; [|done].
    injection H as <- <-. eapply IH; [done|]. by eapply step_consistent.
Qed.

Lemma exec_Functions sch σ σ' evs :
  exec throws sch σ = Some (σ', evs) →
  Functions (this (mem σ')) = Functions (this (mem σ)).
Proof.
  revert σ evs. induction sch as [|α sch IH]; intros σ evs H; cbn [exec] in H.
  - by injection H as <- <-.
  - destruct (step throws α σ) as [[σ1 evs1]|] eqn:Hstep; [|done].
    destruct (exec throws sch σ1) as [[σ2 evs2]|] eqn:Hexec; [|done].
    injection H as <- <-. rewrite (IH _ _ Hexec). by eapply step_Functions.
Qed.

(** ** The life of one call of [Wait] *)

(** Before its first statement a call of [Wait] either stays where it is
    or clears [Idle]. *)
Lemma step_WaitEntry α σ σ' evs w :
  step throws α σ = Some (σ', evs) →
  threads σ !! w = Some WaitEntry →
  threads σ' !! w = Some WaitEntry ∨
  (evs = [(w, SetIdle false)] ∧ threads σ' !! w = Some WaitClock ∧
   Idle (this (mem σ')) = false).
Proof.
  intros H Hw.
  step_cases H; thread_lookup;
    try (rewrite Hw in *; cbn);
    try (right; done); try (left; done); congruence.
Qed.

(** While [Idle] is clear, a call of [Wait] that has cleared it keeps
    waiting, unless the step is the [Idle = true] of some call of [Fire]. *)
Lemma step_waiting α σ σ' evs w p :
  step throws α σ = Some (σ', evs) →
  threads σ !! w = Some p → waiting p = true →
  Idle (this (mem σ)) = false →
  (∃ f, f ≠ w ∧ threads σ !! f = Some FireSet ∧ evs = [(f, SetIdle true)] ∧
        threads σ' !! w = Some p) ∨
  (∃ p', threads σ' !! w = Some p' ∧ waiting p' = true ∧
         Idle (this (mem σ')) = false).
Proof.
  intros H Hw Hp HI.
  step_cases H; thread_lookup;
    try match goal with
      | H1 : threads σ !! w = Some ?q |- _ =>
          lazymatch q with p => fail | _ => idtac end;
          assert (p = q) by congruence; subst p; cbn in Hp; try discriminate Hp
      end;
    try congruence.
  all: try rewrite Hw; cbn [fmap option_fmap option_map].
  all: try (right; eexists; split; [reflexivity|]; split; [done || by destruct p|]; done).
  left. by exists t.
Qed.

(** A call of [Wait] that has cleared [Idle] stays inside [Wait] until the
    step that makes it return, which says so. *)
Lemma step_unreturned α σ σ' evs w p :
  step throws α σ = Some (σ', evs) →
  threads σ !! w = Some p → unreturned p = true →
  ∃ p', threads σ' !! w = Some p' ∧
        (unreturned p' = true ∨
         ∃ e, p' = WaitDone e ∧ evs = [(w, Unlock); (w, Return e)]).
Proof.
  intros H Hw Hp.
  step_cases H; thread_lookup;
    try match goal with
      | H1 : threads σ !! w = Some ?q |- _ =>
          lazymatch q with p => fail | _ => idtac end;
          assert (p = q) by congruence; subst p; cbn in Hp; try discriminate Hp
      end;
    try congruence.
  all: try rewrite Hw; cbn [fmap option_fmap option_map].
  all: try (eexists; split; [reflexivity|]; left; done || by destruct p).
  eexists; split; [reflexivity|]. right. by eexists.
Qed.

Lemma step_WaitDone α σ σ' evs w e :
  step throws α σ = Some (σ', evs) →
  threads σ !! w = Some (WaitDone e) →
  threads σ' !! w = Some (WaitDone e).
Proof.
  intros H Hw.
  step_cases H; thread_lookup; try (rewrite Hw in *; cbn); congruence.
Qed.

Lemma exec_WaitDone sch σ σ' evs w e :
  exec throws sch σ = Some (σ', evs) →
  threads σ !! w = Some (WaitDone e) →
  threads σ' !! w = Some (WaitDone e).
Proof.
  revert σ evs. induction sch as [|α sch IH]; intros σ evs H Hw; cbn [exec] in H.
  - by injection H as <- <-.
  - destruct (step throws α σ) as [[σ1 evs1]|] eqn:Hstep; [|done].
    destruct (exec throws sch σ1) as [[σ2 evs2]|] eqn:Hexec; [|done].
    injection H as <- <-. eapply IH; [done|]. by eapply step_WaitDone.
Qed.

Lemma exec_unreturned sch σ σ' evs w p e :
  exec throws sch σ = Some (σ', evs) →
  threads σ !! w = Some p → unreturned p = true →
  threads σ' !! w = Some (WaitDone e) →
  ∃ evs1 evs2, evs = evs1 ++ (w, Return e) :: evs2.
Proof.
  revert σ evs p. induction sch as [|α sch IH]; intros σ evs p H Hw Hp Hw'; cbn [exec] in H.
  - injection H as <- <-. rewrite Hw in Hw'. injection Hw' as ->. done.
  - destruct (step throws α σ) as [[σ1 evs1]|] eqn:Hstep; [|done].
    destruct (exec throws sch σ1) as [[σ2 evs2]|] eqn:Hexec; [|done].
    injection H as <- <-.
    destruct (step_unreturned _ _ _ _ _ _ Hstep Hw Hp) as (p1 & Hw1 & [Hp1 | (e1 & -> & ->)]).
    + destruct (IH _ _ _ Hexec Hw1 Hp1 Hw') as (l1 & l2 & ->).
      exists (evs1 ++ l1), l2. by rewrite app_assoc.
    + assert (E := exec_WaitDone _ _ _ _ _ _ Hexec Hw1). rewrite E in Hw'.
      injection Hw' as ->. by exists [(w, Unlock)], evs2.
Qed.

Lemma exec_waiting sch σ σ' evs w p e :
  exec throws sch σ = Some (σ', evs) →
  consistent σ →
  threads σ !! w = Some p → waiting p = true →
  Idle (this (mem σ)) = false →
  threads σ' !! w = Some (WaitDone e) →
  Functions (this (mem σ)) ≠ [] ∧
  ∃ f evs1 evs2 evs3,
    f ≠ w ∧ evs = evs1 ++ (f, SetIdle true) :: evs2 ++ (w, Return e) :: evs3.
Proof.
  revert σ evs p. induction sch as [|α sch IH]; intros σ evs p H Hc Hw Hp HI Hw';
    cbn [exec] in H.
  - injection H as <- <-. rewrite Hw in Hw'. injection Hw' as ->. done.
  - destruct (step throws α σ) as [[σ1 evs1]|] eqn:Hstep; [|done].
    destruct (exec throws sch σ1) as [[σ2 evs2]|] eqn:Hexec; [|done].
    injection H as <- <-.
    destruct (step_waiting _ _ _ _ _ _ Hstep Hw Hp HI)
      as [(f & Hf & Hset & -> & Hw1) | (p1 & Hw1 & Hp1 & HI1)].
    + split; [by apply (Hc f FireSet)|].
      destruct (exec_unreturned _ _ _ _ _ _ e Hexec Hw1) as (l1 & l2 & ->);
        [by destruct p | done |].
      by exists f, [], l1, l2.
    + destruct (IH σ1 evs2 p1 Hexec) as (HF & f & l1 & l2 & l3 & Hf & ->);
        [by eapply step_consistent | done..|].
      rewrite <- (step_Functions _ _ _ _ Hstep). split; [done|].
      exists f, (evs1 ++ l1), l2, l3. by rewrite <- app_assoc.
Qed.

(** C7. Whatever [Idle] holds when a thread calls [Wait] (an earlier
    [Fire] may have set it), and whatever the other threads and the
    scheduler do, a call of [Wait] that returns has first cleared [Idle],
    then some other thread has executed the [Idle = true] of a call of
    [Fire] that found the dispatch sequence non-empty, and only then has
    [Wait] returned. *)
Theorem Wait_returns_only_after_later_Fire sch σ σ' evs w elapsed :
  consistent σ →
  threads σ !! w = Some WaitEntry →
  exec throws sch σ = Some (σ', evs) →
  threads σ' !! w = Some (WaitDone elapsed) →
  Functions (this (mem σ)) ≠ [] ∧
  ∃ f evs1 evs2 evs3 evs4,
    f ≠ w ∧
    evs = evs1 ++ (w, SetIdle false) :: evs2
               ++ (f, SetIdle true) :: evs3
               ++ (w, Return elapsed) :: evs4.
Proof.
  intros Hc Hw H Hw'.
  revert σ evs Hc Hw H. induction sch as [|α sch IH]; intros σ evs Hc Hw H; cbn [exec] in H.
  - injection H as <- <-. congruence.
  - destruct (step throws α σ) as [[σ1 evs1]|] eqn:Hstep; [|done].
    destruct (exec throws sch σ1) as [[σ2 evs2]|] eqn:Hexec; [|done].
    injection H as <- <-.
    rewrite <- (step_Functions _ _ _ _ Hstep).
    assert (Hc1 : consistent σ1) by (by eapply step_consistent).
    destruct (step_WaitEntry _ _ _ _ _ Hstep Hw) as [Hw1 | (-> & Hw1 & HI1)].
    + destruct (IH _ _ Hc1 Hw1 Hexec) as (HF & f & l1 & l2 & l3 & l4 & Hf & ->).
      split; [done|]. exists f, (evs1 ++ l1), l2, l3, l4. by rewrite <- app_assoc.
    + destruct (exec_waiting _ _ _ _ _ _ _ Hexec Hc1 Hw1 eq_refl HI1 Hw')
        as (HF & f & l1 & l2 & l3 & Hf & ->).
      split; [done|]. by exists f, [], l1, l2, l3.
Qed.

Lemma exec_stranded_waiting sch σ σ' evs w p :
  exec throws sch σ = Some (σ', evs) →
  stranded σ →
  threads σ !! w = Some p → waiting p = true →
  ∃ p', threads σ' !! w = Some p' ∧ waiting p' = true.
Proof.
  revert σ evs p. induction sch as [|α sch IH]; intros σ evs p H Hs Hw Hp; cbn [exec] in H.
  - injection H as <- <-. by exists p.
  - destruct (step throws α σ) as [[σ1 evs1]|] eqn:Hstep; [|done].
    destruct (exec throws sch σ1) as [[σ2 evs2]|] eqn:Hexec; [|done].
    injection H as <- <-.
    destruct (Hs w p Hw) as (_ & _ & HI & _).
    destruct (step_waiting _ _ _ _ _ _ Hstep Hw Hp (HI Hp))
      as [(f & _ & Hset & _) | (p1 & Hw1 & Hp1 & _)].
    + by destruct (Hs f _ Hset) as (? & _).
    + eapply IH; [done | | done..]. by eapply step_stranded.
Qed.

(** ** An empty dispatch sequence *)

Lemma spawn_stranded (m : Memory Callable) (calls : list (pc Parameters Exn)) :
  Functions (this m) = [] →
  (∀ p, p ∈ calls → entry p = true) →
  stranded (spawn m calls).
Proof.
  intros HF Hcalls t p Hl. cbn in Hl.
  assert (Hp : entry p = true) by (apply Hcalls; by eapply list_elem_of_lookup_2).
  destruct p; try discriminate Hp; cbn; repeat split; try done.
Qed.

(** C5. With an empty dispatch sequence [Fire] returns at once: run on its
    own it produces no event and leaves the memory as it is; as a thread it
    takes one step that changes nothing but its own position; and when any
    number of threads call [Fire] and [Wait] on such a signal, under every
    schedule no listener is invoked, [Idle] is never set, nobody is
    notified, and no call of [Wait] is released. *)
Theorem Fire_empty_is_noop a (m : Memory Callable) :
  Functions (this m) = [] →
  Fire throws a m = ([], Returned, m) ∧
  (∀ σ t, mem σ = m → threads σ !! t = Some (FireEntry a) →
     step throws (Run t) σ = Some (at_pc t FireDone σ, [])) ∧
  (∀ (calls : list (pc Parameters Exn)) sch σ' evs,
     (∀ p, p ∈ calls → entry p = true) →
     exec throws sch (spawn m calls) = Some (σ', evs) →
     (∀ t, ((t, SetIdle true) ∉ evs) ∧ ((t, NotifyAll) ∉ evs) ∧
           ∀ f a', (t, Invoke f a') ∉ evs) ∧
     (∀ w p, threads σ' !! w = Some p → released p = false)).
Proof.
  intros HF. split; [|split].
  - unfold Fire. by rewrite HF.
  - intros σ t <- Ht. cbn [step]. rewrite (step_thread_at _ _ _ Ht).
    cbn [in_Fire Fire_step]. by rewrite HF.
  - intros calls sch σ' evs Hcalls Hexec.
    destruct (exec_stranded _ _ _ _ Hexec (spawn_stranded _ _ HF Hcalls)) as [Hs Hevs].
    split; [done|]. intros w p Hw. by destruct (Hs w p Hw) as (_ & ? & _).
Qed.

(** ** A call of [Fire] run without interference *)

Lemma exec_app sch1 sch2 σ σ1 σ2 evs1 evs2 :
  exec throws sch1 σ = Some (σ1, evs1) →
  exec throws sch2 σ1 = Some (σ2, evs2) →
  exec throws (sch1 ++ sch2) σ = Some (σ2, evs1 ++ evs2).
Proof.
  revert σ evs1. induction sch1 as [|α sch1 IH]; intros σ evs1 H1 H2; cbn [exec app] in *.
  - by injection H1 as <- <-.
  - destruct (step throws α σ) as [[σ' evs']|]; [|done].
    destruct (exec throws sch1 σ') as [[σ'' evs'']|] eqn:E; [|done].
    injection H1 as <- <-. rewrite (IH _ _ E H2). by rewrite app_assoc.
Qed.

(** The loop of [Fire] from position [length pre] on. *)
Lemma FireLoop_alone (rest : list Callable) : ∀ (pre : list Callable) σ t a,
  Functions (this (mem σ)) = pre ++ rest →
  threads σ !! t = Some (FireLoop a (length pre)) →
  ∃ n σ',
    exec throws (replicate n (Run t)) σ
      = Some (σ', (λ ev, (t, ev)) <$> (invoke_all throws rest a).1) ∧
    mem σ' = mem σ ∧ Current σ' = Current σ ∧ now σ' = now σ ∧
    threads σ' = <[t := match (invoke_all throws rest a).2 with
                        | Returned => FireLock
                        | Threw e => FireThrew e
                        end]> (threads σ).
Proof.
  induction rest as [|f rest IH]; intros pre σ t a HF Ht.
  - exists 1, (at_pc t FireLock σ). cbn [replicate exec step].
    rewrite (step_thread_at _ _ _ Ht). cbn [in_Fire Fire_step].
    rewrite HF, app_nil_r, lookup_ge_None_2 by done. done.
  - assert (Hf : Functions (this (mem σ)) !! length pre = Some f).
    { rewrite HF. by apply list_lookup_middle. }
    cbn [invoke_all]. destruct (throws f a) as [e|] eqn:Hthrow.
    + exists 1, (at_pc t (FireThrew e) σ). cbn [replicate exec step].
      rewrite (step_thread_at _ _ _ Ht). cbn [in_Fire Fire_step].
      by rewrite Hf, Hthrow.
    + destruct (IH (pre ++ [f]) (at_pc t (FireLoop a (S (length pre))) σ) t a)
        as (n & σ' & Hexec & Hmem & Hcur & Hnow & Hthr).
      { cbn. by rewrite <- app_assoc. }
      { cbn. rewrite length_app, Nat.add_1_r.
        apply list_lookup_insert_eq. by eapply lookup_lt_Some. }
      destruct (invoke_all throws rest a) as [evs c].
      exists (S n), σ'. cbn [replicate exec step].
      rewrite (step_thread_at _ _ _ Ht). cbn [in_Fire Fire_step].
      rewrite Hf, Hthrow, Hexec. cbn [fst snd] in *.
      split; [done|]. split; [done|]. split; [done|]. split; [done|].
      rewrite Hthr. cbn. apply list_insert_insert_eq.
Qed.

(** The statements of [Fire], executed by one thread with the mutex free
    and nobody else moving, produce the events, the memory and the outcome
    of the function [Fire]; other threads are touched only by the wake-up. *)
Lemma Fire_thread_alone σ t a :
  threads σ !! t = Some (FireEntry a) →
  Current σ = None →
  ∃ n σ',
    exec throws (replicate n (Run t)) σ
      = Some (σ', (λ ev, (t, ev)) <$> (Fire throws a (mem σ)).1.1) ∧
    mem σ' = (Fire throws a (mem σ)).2 ∧
    Current σ' = None ∧
    threads σ' !! t = Some (match (Fire throws a (mem σ)).1.2 with
                            | Returned => FireDone
                            | Threw e => FireThrew e
                            end) ∧
    ∀ w, w ≠ t →
      threads σ' !! w
        = (if notifies (Fire throws a (mem σ)).1.1 then wake else id) <$> threads σ !! w.
Proof.
  intros Ht Hcur.
  assert (Hlt : t < length (threads σ)) by (by eapply lookup_lt_Some).
  unfold Fire. destruct (Functions (this (mem σ))) as [|f0 fs] eqn:HF.
  - exists 1, (at_pc t FireDone σ). cbn [replicate exec step].
    rewrite (step_thread_at _ _ _ Ht). cbn [in_Fire Fire_step].
    rewrite HF. cbn. split; [done|]. split; [done|]. split; [done|].
    split; [by apply list_lookup_insert_eq|].
    intros w Hw. rewrite list_lookup_insert_ne by done. by destruct (threads σ !! w).
  - set (σ0 := at_pc t (FireLoop a 0) σ).
    assert (H0 : exec throws [Run t] σ = Some (σ0, [])).
    { cbn [exec step]. rewrite (step_thread_at _ _ _ Ht). cbn [in_Fire Fire_step].
      by rewrite HF. }
    destruct (FireLoop_alone (f0 :: fs) [] σ0 t a)
      as (n & σ1 & Hexec & Hmem & Hcur1 & Hnow & Hthr).
    { done. }
    { cbn. by apply list_lookup_insert_eq. }
    assert (H1 := exec_app _ _ _ _ _ _ _ H0 Hexec). cbn [app] in H1.
    change (Run t :: replicate n (Run t)) with (replicate (S n) (Run t)) in H1.
    destruct (invoke_all throws (f0 :: fs) a) as [evs [|e]] eqn:Hinv; cbn [fst snd] in *.
    + set (σ2 := at_pc t FireSet (set_Current (Some t) σ1)).
      set (σ3 := at_pc t FireNotify (write_Idle true σ2)).
      set (σ4 := at_pc t FireUnlock (notify_all σ3)).
      set (σ5 := at_pc t FireDone (set_Current None σ4)).
      assert (Hlt1 : t < length (threads σ1)).
      { rewrite Hthr. unfold σ0. cbn. by rewrite !length_insert. }
      assert (H2 : exec throws (replicate 4 (Run t)) σ1
                   = Some (σ5, (λ ev, (t, ev)) <$> [Lock; SetIdle true; NotifyAll; Unlock])).
      { assert (E1 : threads σ1 !! t = Some FireLock).
        { rewrite Hthr. apply list_lookup_insert_eq. unfold σ0. cbn.
          by rewrite length_insert. }
        assert (E2 : threads σ2 !! t = Some FireSet).
        { unfold σ2. cbn. by apply list_lookup_insert_eq. }
        assert (E3 : threads σ3 !! t = Some FireNotify).
        { unfold σ3. cbn. apply list_lookup_insert_eq. by rewrite length_insert. }
        assert (E4 : threads σ4 !! t = Some FireUnlock).
        { unfold σ4. cbn. apply list_lookup_insert_eq.
          by rewrite length_fmap, !length_insert. }
        assert (Hc1 : Current σ1 = None) by (by rewrite Hcur1).
        cbn [replicate exec step].
        rewrite (step_thread_at _ _ _ E1). cbn [in_Fire Fire_step]. rewrite Hc1.
        fold σ2. rewrite (step_thread_at _ _ _ E2). cbn [in_Fire Fire_step].
        fold σ3. rewrite (step_thread_at _ _ _ E3). cbn [in_Fire Fire_step].
        fold σ4. rewrite (step_thread_at _ _ _ E4). cbn [in_Fire Fire_step].
        fold σ5. done. }
      assert (H3 := exec_app _ _ _ _ _ _ _ H1 H2). cbn [app] in H3.
      rewrite <- replicate_add in H3.
      exists (S n + 4), σ5. rewrite H3, fmap_app. split; [done|].
      split; [unfold σ5, σ4, σ3, σ2; cbn; by rewrite Hmem|].
      split; [done|].
      split.
      { unfold σ5. cbn. apply list_lookup_insert_eq.
        by rewrite length_insert, length_fmap, !length_insert. }
      intros w Hw.
      assert (Hn : notifies (evs ++ [Lock; SetIdle true; NotifyAll; Unlock]) = true).
      { unfold notifies. rewrite existsb_app. apply orb_true_r. }
      rewrite Hn. unfold σ5, σ4, σ3, σ2. cbn.
      rewrite !list_lookup_insert_ne by done. rewrite list_lookup_fmap.
      rewrite !list_lookup_insert_ne by done. rewrite Hthr. unfold σ0. cbn.
      by rewrite !list_lookup_insert_ne by done.
    + exists (S n), σ1. rewrite H1. split; [done|]. split; [by rewrite Hmem|].
      split; [by rewrite Hcur1|]. split.
      { rewrite Hthr. apply list_lookup_insert_eq. unfold σ0. cbn. by rewrite length_insert. }
      intros w Hw.
      assert (Hn : notifies evs = false).
      { clear -Hinv. revert evs Hinv. generalize (f0 :: fs) as l.
        induction l as [|g l IH]; intros evs Hinv; cbn [invoke_all] in Hinv; [done|].
        destruct (throws g a); [by injection Hinv as <-|].
        destruct (invoke_all throws l a) as [evs' c] eqn:E.
        injection Hinv as <- ->. cbn. by apply IH. }
      rewrite Hn, Hthr. unfold σ0. cbn. rewrite !list_lookup_insert_ne by done.
      by destruct (threads σ !! w).
Qed.

(** ** The reset of [Wait] is outside the mutex *)

(** C8 fails on the code.  [Wait] executes [Idle = false] (line 208) before
    it locks [Current] (line 211).  With one listener that returns, the
    schedule [lost_wakeup] lets that store fall between the [Idle = true]
    and the [notify_all] of a concurrent [Fire], which holds the mutex:
    [Fire] completes its wake-up, [Wait] then finds [Idle] clear and goes
    to sleep, and no continuation of the schedule ever releases it. *)
Theorem Wait_reset_outside_lock_loses_wakeup f a :
  throws f a = None →
  ∃ σ,
    exec throws lost_wakeup (spawn (connected_signal [f]) [WaitEntry; FireEntry a])
      = Some (σ, [(1, Invoke f a); (1, Lock); (1, SetIdle true);
                  (0, SetIdle false);
                  (1, NotifyAll); (1, Unlock);
                  (0, Lock); (0, Unlock); (0, Block)]) ∧
    threads σ = [WaitBlocked 0; FireDone] ∧
    Idle (this (mem σ)) = false ∧
    ∀ sch σ' evs,
      exec throws sch σ = Some (σ', evs) →
      ∃ p, threads σ' !! 0 = Some p ∧ waiting p = true.
Proof.
  intros Hf. eexists. split.
  { unfold lost_wakeup, connected_signal, spawn. rewrite Connect_all_eq.
    cbn. rewrite Hf. cbn. reflexivity. }
  split; [reflexivity|]. split; [reflexivity|].
  intros sch σ' evs Hexec.
  eapply exec_stranded_waiting; [done | | reflexivity | reflexivity].
  intros t p Hl. destruct t as [|[|t]]; cbn in Hl; [| |done]; by injection Hl as <-.
Qed.

End Concurrent.

(** * The index captured by [Connect] goes stale *)

(** C1 fails on the code.  [Connect] captures [Index = Functions.size()]
    and [Destroy] erases [Functions.begin() + Index] whatever has been
    erased before.  With listeners A, B, C connected and the handle of A
    disconnected, disconnecting the handle of B erases C: B is reported
    disconnected and C connected, yet [Fire] invokes B and not C.  With
    only A and B connected, disconnecting A and then B erases at [end()],
    which is undefined. *)
Theorem Disconnect_erases_by_stale_index {Parameters Callable Exn : Type}
    (throws : Callable → Parameters → option Exn) (A B C : Callable) (a : Parameters) :
  (∃ m, (Disconnect 0;; Disconnect 1) (connected_signal [A; B; C]) = Done (tt, m) ∧
        Connected 0 m = Done (false, m) ∧
        Connected 1 m = Done (false, m) ∧
        Connected 2 m = Done (true, m) ∧
        still_connected m [(0, A); (1, B); (2, C)] = [C] ∧
        invoked (Fire throws a m).1.1 = [(B, a)]) ∧
  (Disconnect 0;; Disconnect 1) (connected_signal [A; B]) = Undefined.
Proof.
  split; [|reflexivity].
  exists {| this := {| Functions := [B]; Connections := [0; 1; 2]; Idle := false |};
            heap := [Some {| Destroy := 0; isConnected := false |};
                     Some {| Destroy := 1; isConnected := false |};
                     Some {| Destroy := 2; isConnected := true |}] |}.
  repeat (split; [reflexivity|]).
  unfold Fire. cbn. by destruct (throws B a).
Qed.

(** C2 fails on the code, by the same stale index.  After [Connect] of A,
    B and C and [Disconnect] through the handles of A and then of B, the
    only connection that is still connected is that of C, and [Fire(a)]
    invokes B and nothing else: the still-connected listener is not
    invoked and a disconnected one is.  What [Fire] invokes is what the
    claim says only when B and C are one callable. *)
Theorem Fire_invokes_by_stale_dispatch {Parameters Callable Exn : Type}
    (throws : Callable → Parameters → option Exn) (A B C : Callable) (a : Parameters) :
  ∃ m,
    run_ops throws [OpConnect A; OpConnect B; OpConnect C; OpDisconnect 0; OpDisconnect 1]
      ScriptSignal_new = Done m ∧
    Connected 0 m = Done (false, m) ∧
    Connected 1 m = Done (false, m) ∧
    Connected 2 m = Done (true, m) ∧
    still_connected m (registrations [A; B; C]) = [C] ∧
    invoked (Fire throws a m).1.1 = [(B, a)] ∧
    (invoked (Fire throws a m).1.1
       = (λ f, (f, a)) <$> still_connected m (registrations [A; B; C]) ↔ B = C).
Proof.
  exists {| this := {| Functions := [B]; Connections := [0; 1; 2]; Idle := false |};
            heap := [Some {| Destroy := 0; isConnected := false |};
                     Some {| Destroy := 1; isConnected := false |};
                     Some {| Destroy := 2; isConnected := true |}] |}.
  repeat (split; [reflexivity|]).
  assert (E : ∀ m : Memory Callable, Functions (this m) = [B] →
                invoked (Fire throws a m).1.1 = [(B, a)]).
  { intros m Hm. unfold Fire. rewrite Hm. cbn. by destruct (throws B a). }
  rewrite E by reflexivity. split; [reflexivity|].
  change (still_connected _ (registrations [A; B; C])) with [C]. cbn.
  split; [by intros [= ->] | by intros ->].
Qed.

(** * Further properties of the registry *)

Section Registry.
Context {Parameters Callable Exn : Type}.
Variable throws : Callable → Parameters → option Exn.

Implicit Types (m : Memory Callable) (p q : ptr) (f g : Callable)
  (a : Parameters) (c : Connection) (h : Heap) (b i j : nat).

(** ** What [Fire] does depends on the dispatch sequence only *)

Lemma Fire_invoke_all a m :
  invoked (Fire throws a m).1.1 = invoked (invoke_all throws (Functions (this m)) a).1 ∧
  (Fire throws a m).1.2 = (invoke_all throws (Functions (this m)) a).2.
Proof.
  unfold Fire. destruct (Functions (this m)) as [|f fs]; [done|].
  destruct (invoke_all throws (f :: fs) a) as [evs [|e]]; [|done].
  cbn [fst snd]. rewrite invoked_app. cbn. by rewrite app_nil_r.
Qed.

Lemma Fire_same_Functions a m m' :
  Functions (this m) = Functions (this m') →
  (Fire throws a m).1 = (Fire throws a m').1.
Proof.
  intros E. unfold Fire. rewrite E. destruct (Functions (this m')) as [|f fs]; [done|].
  by destruct (invoke_all throws (f :: fs) a) as [evs [|e]].
Qed.

Lemma invoke_all_snoc (fs : list Callable) f a :
  invoke_all throws (fs ++ [f]) a =
    match invoke_all throws fs a with
    | (evs, Returned) =>
        (evs ++ [Invoke f a],
         match throws f a with Some e => Threw e | None => Returned end)
    | (evs, Threw e) => (evs, Threw e)
    end.
Proof.
  induction fs as [|g fs IH]; cbn [app invoke_all].
  - by destruct (throws f a).
  - destruct (throws g a); [done|]. rewrite IH.
    by destruct (invoke_all throws fs a) as [evs [|e]].
Qed.

(** X1. [Connect] followed by [Disconnect] on the handle it returned always
    returns and restores the dispatch sequence: [Functions] and [Idle] are
    as before, the [Connection] objects that existed are untouched, the new
    handle answers [Connected() = false], and [Fire] does what it did
    before the two calls. *)
Theorem Connect_then_Disconnect_restores f m :
  ∃ p m1 m2,
    Connect f m = Done (p, m1) ∧
    Disconnect p m1 = Done (tt, m2) ∧
    Functions (this m2) = Functions (this m) ∧
    Idle (this m2) = Idle (this m) ∧
    (∀ q c, holds (heap m) q c → holds (heap m2) q c) ∧
    Connected p m2 = Done (false, m2) ∧
    ∀ a, (Fire throws a m2).1 = (Fire throws a m).1.
Proof.
  rewrite Connect_eq. eexists _, _, _. split; [reflexivity|].
  set (cell := {| Destroy := length (Functions (this m)); isConnected := true |}).
  assert (Hp : (heap m ++ [Some cell]) !! length (heap m) = Some (Some cell))
    by (by apply list_lookup_middle).
  assert (Hdel : delete (length (Functions (this m))) (Functions (this m) ++ [f])
                 = Functions (this m)).
  { rewrite (delete_middle (Functions (this m)) [] f). apply app_nil_r. }
  split.
  { rewrite Disconnect_eq. cbn [heap this Functions Connections Idle].
    rewrite Hp. cbn [isConnected Destroy cell].
    rewrite decide_True by (rewrite length_app; simpl; lia).
    rewrite Hdel. reflexivity. }
  cbn [this heap Functions Idle].
  split; [done|]. split; [done|]. split.
  { intros q c Hq. unfold holds in *.
    rewrite list_lookup_insert_ne by (apply lookup_lt_Some in Hq; lia).
    by rewrite lookup_app_l by (by eapply lookup_lt_Some). }
  split.
  { rewrite Connected_eq. cbn [heap].
    by rewrite list_lookup_insert_eq by (by eapply lookup_lt_Some). }
  intros a. by apply Fire_same_Functions.
Qed.

(** X2. [Connect] always returns and puts the new listener last: [Fire]
    then invokes what it invoked before and, if that call returned, the new
    listener after them; a listener that threw before still ends the call.
    The existing handles answer [Connected()] as before. *)
Theorem Connect_extends_dispatch f a m :
  ∃ p m1,
    Connect f m = Done (p, m1) ∧
    invoked (Fire throws a m1).1.1
      = invoked (Fire throws a m).1.1
          ++ match (Fire throws a m).1.2 with
             | Returned => [(f, a)]
             | Threw _ => []
             end ∧
    ∀ q, q < length (heap m) →
         Connected q m1 = match Connected q m with
                          | Done (b, _) => Done (b, m1)
                          | Undefined => Undefined
                          end.
Proof.
  rewrite Connect_eq. eexists _, _. split; [reflexivity|]. split.
  - destruct (Fire_invoke_all a m) as [-> ->].
    match goal with |- invoked (Fire throws a ?m1).1.1 = _ =>
      destruct (Fire_invoke_all a m1) as [-> _] end.
    cbn [this Functions]. rewrite invoke_all_snoc.
    destruct (invoke_all throws (Functions (this m)) a) as [evs [|e]]; cbn [fst snd].
    + rewrite invoked_app. done.
    + by rewrite app_nil_r.
  - intros q Hq. rewrite !Connected_eq. cbn [heap].
    rewrite lookup_app_l by done. by destruct (heap m !! q) as [[c|]|].
Qed.

(** ** Disconnecting after a history of [Connect] calls *)

Lemma connected_signal_eq (fs : list Callable) :
  connected_signal fs =
    {| this := {| Functions := fs; Connections := seq 0 (length fs); Idle := false |};
       heap := fresh_cells 0 (length fs) |}.
Proof. unfold connected_signal. by rewrite Connect_all_eq. Qed.

Lemma still_connected_app m (r1 r2 : list (ptr * Callable)) :
  still_connected m (r1 ++ r2) = still_connected m r1 ++ still_connected m r2.
Proof. unfold still_connected. apply omap_app. Qed.

Lemma still_connected_ext m m' (r : list (ptr * Callable)) :
  (∀ p f, (p, f) ∈ r → heap m !! p = heap m' !! p) →
  still_connected m r = still_connected m' r.
Proof.
  induction r as [|[p f] r IH]; intros Hr; [done|].
  change ((p, f) :: r) with ([(p, f)] ++ r). rewrite !still_connected_app.
  f_equal.
  - unfold still_connected, heap_load. cbn. rewrite (Hr p f) by left. done.
  - apply IH. intros q g Hq. apply (Hr q g). by right.
Qed.

Lemma registrations_split (fs : list Callable) i x :
  fs !! i = Some x →
  registrations fs =
    zip (seq 0 i) (take i fs)
      ++ (i, x) :: zip (seq (S i) (length fs - S i)) (drop (S i) fs).
Proof.
  intros Hi. assert (Hlt : i < length fs) by (by eapply lookup_lt_Some).
  unfold registrations.
  replace (length fs) with (i + S (length fs - S i)) at 1 by lia.
  rewrite seq_app. cbn [seq plus].
  transitivity (zip (seq 0 i ++ i :: seq (S i) (length fs - S i))
                    (take i fs ++ x :: drop (S i) fs)).
  { by rewrite take_drop_middle. }
  apply (zip_with_app pair (seq 0 i) (i :: seq (S i) (length fs - S i))
           (take i fs) (x :: drop (S i) fs)).
  rewrite length_seq, length_take_le; lia.
Qed.

(** One [Disconnect] on a handle below which nothing has been erased. *)
Lemma Disconnect_below (fs : list Callable) b i m :
  b ≤ length fs → i < b →
  (∀ p, p < b → holds (heap m) p {| Destroy := p; isConnected := true |}) →
  Functions (this m) = still_connected m (registrations fs) →
  ∃ m', Disconnect i m = Done (tt, m') ∧
        Functions (this m') = delete i (Functions (this m)) ∧
        Connections (this m') = Connections (this m) ∧
        Idle (this m') = Idle (this m) ∧
        heap m' = <[i := Some {| Destroy := i; isConnected := false |}]> (heap m) ∧
        Functions (this m') = still_connected m' (registrations fs).
Proof.
  intros Hb Hi Hlive Hsync.
  destruct (lookup_lt_is_Some_2 fs i) as [x Hx]; [lia|].
  set (r1 := zip (seq 0 i) (take i fs)).
  set (r2 := zip (seq (S i) (length fs - S i)) (drop (S i) fs)).
  assert (Hregs : registrations fs = r1 ++ [(i, x)] ++ r2)
    by (by apply registrations_split).
  assert (H1 : still_connected m r1 = take i fs).
  { apply still_connected_all; [by rewrite length_seq, length_take_le by lia|].
    intros p Hp. apply elem_of_seq in Hp. eexists. split; [apply Hlive; lia | done]. }
  assert (Hcell : heap m !! i = Some (Some {| Destroy := i; isConnected := true |}))
    by (by apply Hlive).
  assert (HF : Functions (this m) = take i fs ++ x :: still_connected m r2).
  { rewrite Hsync, Hregs, !still_connected_app, H1. f_equal.
    unfold still_connected at 1, heap_load. cbn. by rewrite Hcell. }
  assert (Hlen : i < length (Functions (this m))).
  { rewrite HF, length_app, length_take_le by lia. simpl. lia. }
  eexists. split.
  { rewrite Disconnect_eq, Hcell. cbn [isConnected Destroy].
    rewrite decide_True by done. reflexivity. }
  cbn [this heap Functions Connections Idle].
  split; [done|]. split; [done|]. split; [done|]. split; [done|].
  set (m' := mkMemory _ _).
  assert (Hm' : heap m' = <[i := Some {| Destroy := i; isConnected := false |}]> (heap m))
    by done.
  rewrite Hregs, !still_connected_app.
  rewrite <- (still_connected_ext m m' r1), H1.
  2:{ intros p f Hp. apply elem_of_zip_l, elem_of_seq in Hp.
      rewrite Hm', list_lookup_insert_ne by lia. done. }
  rewrite <- (still_connected_ext m m' r2).
  2:{ intros p f Hp. apply elem_of_zip_l, elem_of_seq in Hp.
      rewrite Hm', list_lookup_insert_ne by lia. done. }
  assert (Hdead : still_connected m' [(i, x)] = []).
  { unfold still_connected, heap_load. cbn -[m'].
    rewrite Hm', list_lookup_insert_eq by (by eapply lookup_lt_Some). done. }
  rewrite Hdead, HF. cbn [app].
  replace i with (length (take i fs)) at 1 by (apply length_take_le; lia).
  apply delete_middle.
Qed.

(** Any number of them, in decreasing order of registration. *)
Lemma Disconnect_decreasing (fs : list Callable) (ps : list ptr) : ∀ b m,
  b ≤ length fs → decreasing b ps →
  (∀ p, p < b → holds (heap m) p {| Destroy := p; isConnected := true |}) →
  Functions (this m) = still_connected m (registrations fs) →
  ∃ m', run_ops throws (OpDisconnect <$> ps) m = Done m' ∧
        Functions (this m') = erase_all ps (Functions (this m)) ∧
        heap m' = flags_cleared ps (heap m) ∧
        Functions (this m') = still_connected m' (registrations fs).
Proof.
  induction ps as [|p ps IH]; intros b m Hb Hdec Hlive Hsync.
  - exists m. done.
  - destruct Hdec as [Hp Hdec].
    destruct (Disconnect_below fs b p m Hb Hp Hlive Hsync)
      as (m1 & HD & HF1 & _ & _ & Hh1 & Hsync1).
    destruct (IH p m1) as (m' & Hrun & HF & Hh & Hsync'); [lia | done | | done |].
    { intros q Hq. unfold holds. rewrite Hh1, list_lookup_insert_ne by lia.
      apply Hlive. lia. }
    exists m'. split.
    { cbn [fmap list_fmap run_ops run_op]. rewrite HD. exact Hrun. }
    split; [by rewrite HF, HF1|]. split; [by rewrite Hh, Hh1 | done].
Qed.

Lemma run_ops_Disconnect_clears (os : list (op Parameters Callable)) : ∀ m m' p c,
  run_ops throws os m = Done m' →
  holds (heap m) p c →
  OpDisconnect p ∈ os →
  ∃ c', holds (heap m') p c' ∧ isConnected c' = false.
Proof.
  induction os as [|o os IH]; intros m m' p c Hrun Hp Hin; [by apply elem_of_nil in Hin|].
  cbn [run_ops] in Hrun.
  destruct (run_op throws o m) as [m1|] eqn:Ho; [|done]. cbn [result_bind] in Hrun.
  assert (Hlater : OpDisconnect p ∈ os → ∃ c', holds (heap m') p c' ∧ isConnected c' = false).
  { intros Hin'. destruct (run_op_alive throws _ _ _ _ _ Ho Hp) as (c1 & Hc1 & _).
    by eapply IH. }
  apply elem_of_cons in Hin as [<- | Hin]; [|by apply Hlater].
  cbn [run_op] in Ho.
  destruct (Disconnect p m) as [[[] m1']|] eqn:HD; [|done]. injection Ho as ->.
  destruct (Disconnect_holds _ _ _ HD) as (c0 & _ & Hc0).
  exists {| Destroy := Destroy c0; isConnected := false |}. split; [|done].
  eapply (run_ops_holds throws); [done.. | by right].
Qed.

(** X3. After any sequence of [Connect] calls on a new signal, handles
    disconnected in decreasing order of registration (a single one, the
    last few in reverse, or any selection taken from the back) are
    disconnected exactly: every call returns, the dispatch sequence is the
    list of listeners whose handle still answers [Connected() = true], and
    exactly the handles disconnected answer [false]. *)
Theorem Disconnect_decreasing_is_exact (fs : list Callable) (ps : list ptr) :
  decreasing (length fs) ps →
  ∃ m,
    run_ops throws (OpDisconnect <$> ps) (connected_signal fs) = Done m ∧
    Functions (this m) = still_connected m (registrations fs) ∧
    ∀ p, p < length fs → Connected p m = Done (bool_decide (p ∉ ps), m).
Proof.
  intros Hdec.
  assert (Hinit : ∀ p, p < length fs →
            holds (heap (connected_signal fs)) p {| Destroy := p; isConnected := true |}).
  { intros p Hp. rewrite connected_signal_eq. unfold holds. cbn [heap].
    by rewrite fresh_cells_holds. }
  destruct (Disconnect_decreasing fs ps (length fs) (connected_signal fs))
    as (m & Hrun & _ & _ & Hsync); [done | done | done | |].
  { rewrite connected_signal_eq at 1. cbn [this Functions]. symmetry.
    apply still_connected_all; [by rewrite length_seq|].
    intros p Hp. apply elem_of_seq in Hp. eexists. split; [apply Hinit; lia | done]. }
  exists m. split; [done|]. split; [done|].
  intros p Hp. case_bool_decide as Hin.
  - rewrite (Connected_holds p m {| Destroy := p; isConnected := true |}); [done|].
    eapply (run_ops_holds throws); [done | by apply Hinit | left].
    intros [q [[= ->] Hq]]%list_elem_of_fmap. done.
  - destruct (run_ops_Disconnect_clears _ _ _ p _ Hrun (Hinit p Hp)) as (c' & Hc' & Hflag).
    { by apply list_elem_of_fmap_2. }
    erewrite Connected_holds by done. by rewrite Hflag.
Qed.

Lemma connected_signal_holds (fs : list Callable) p :
  p < length fs →
  holds (heap (connected_signal fs)) p {| Destroy := p; isConnected := true |}.
Proof.
  intros Hp. rewrite connected_signal_eq. unfold holds. cbn [heap].
  by rewrite fresh_cells_holds.
Qed.

Lemma connected_signal_sync (fs : list Callable) :
  Functions (this (connected_signal fs))
    = still_connected (connected_signal fs) (registrations fs).
Proof.
  rewrite connected_signal_eq at 1. cbn [this Functions]. symmetry.
  apply still_connected_all; [by rewrite length_seq|].
  intros p Hp. apply elem_of_seq in Hp.
  exists {| Destroy := p; isConnected := true |}.
  split; [apply connected_signal_holds; lia | done].
Qed.

(** X4. After any sequence of [Connect] calls on a new signal, two handles
    disconnected in increasing order of registration go wrong in one of two
    ways.  If the second handle is the last one registered, its [Disconnect]
    erases at [end()], which is undefined.  Otherwise both calls return and
    the second one has erased the listener registered right after its own:
    its own listener is still in the dispatch sequence, one position
    earlier, although its handle answers [Connected() = false]. *)
Theorem Disconnect_increasing_erases_next (fs : list Callable) i j :
  i < j → j < length fs →
  (S j = length fs →
     (Disconnect i;; Disconnect j) (connected_signal fs) = Undefined) ∧
  (S j < length fs →
     ∃ m, (Disconnect i;; Disconnect j) (connected_signal fs) = Done (tt, m) ∧
          Functions (this m) = delete j (delete i fs) ∧
          still_connected m (registrations fs) = delete i (delete j fs) ∧
          Functions (this m) !! (j - 1) = fs !! j ∧
          Connected j m = Done (false, m) ∧
          Connected (S j) m = Done (true, m)).
Proof.
  intros Hij Hj.
  set (dead := λ p, Some {| Destroy := p; isConnected := false |}).
  set (m1 := {| this := {| Functions := delete i fs;
                           Connections := seq 0 (length fs); Idle := false |};
                heap := <[i := dead i]> (fresh_cells 0 (length fs)) |}).
  assert (Hlen : length (fresh_cells 0 (length fs)) = length fs).
  { unfold fresh_cells. by rewrite length_fmap, length_seq. }
  assert (H1 : Disconnect i (connected_signal fs) = Done (tt, m1)).
  { rewrite connected_signal_eq, Disconnect_eq. cbn [heap this Functions Connections Idle].
    rewrite fresh_cells_holds by lia. cbn [isConnected Destroy].
    rewrite decide_True by lia. reflexivity. }
  assert (Hcell : heap m1 !! j = Some (Some {| Destroy := j; isConnected := true |})).
  { unfold m1. cbn [heap]. rewrite list_lookup_insert_ne by lia.
    by rewrite fresh_cells_holds. }
  assert (Hlen1 : length (Functions (this m1)) = length fs - 1).
  { unfold m1. cbn [this Functions]. apply length_delete, lookup_lt_is_Some. lia. }
  assert (H2 : (Disconnect i;; Disconnect j) (connected_signal fs) = Disconnect j m1).
  { unfold mbind, M_bind. by rewrite H1. }
  rewrite H2, Disconnect_eq, Hcell. cbn [isConnected Destroy]. split.
  - intros Hlast. by rewrite decide_False by lia.
  - intros Hmore. rewrite decide_True by lia. eexists. split; [reflexivity|].
    cbn [this heap Functions m1].
    split; [done|]. split; [|split; [|split]].
    + destruct (Disconnect_decreasing fs [j; i] (length fs) (connected_signal fs))
        as (m' & _ & HF & Hh & Hsync).
      { done. }
      { cbn. lia. }
      { intros p Hp. by apply connected_signal_holds. }
      { apply connected_signal_sync. }
      rewrite connected_signal_eq in HF, Hh. cbn [this heap Functions] in HF, Hh.
      cbn [erase_all flags_cleared foldl] in HF, Hh.
      rewrite <- HF, Hsync. apply still_connected_ext. intros p f _. cbn [heap].
      rewrite Hh. fold (dead i) (dead j). by rewrite list_insert_insert_ne by lia.
    + rewrite list_lookup_delete_lt by lia. rewrite list_lookup_delete_ge by lia.
      f_equal. lia.
    + rewrite Connected_eq. cbn [heap].
      rewrite list_lookup_insert_eq; [done|]. rewrite length_insert. lia.
    + rewrite Connected_eq. cbn [heap].
      rewrite !list_lookup_insert_ne by lia. by rewrite fresh_cells_holds by lia.
Qed.

(** ** What every history keeps *)

Lemma count_connected_snoc h c :
  count_connected (h ++ [Some c]) = count_connected h + (if isConnected c then 1 else 0).
Proof. unfold count_connected. rewrite sum_list_with_app. simpl. lia. Qed.

Lemma count_connected_clear h p c :
  holds h p c → isConnected c = true →
  count_connected (<[p := Some {| Destroy := Destroy c; isConnected := false |}]> h)
    = count_connected h - 1.
Proof.
  intros Hp Hc. unfold holds in Hp.
  rewrite insert_take_drop by (by eapply lookup_lt_Some).
  rewrite <- (take_drop_middle h p (Some c) Hp) at 3.
  unfold count_connected. rewrite !sum_list_with_app. cbn. rewrite Hc. lia.
Qed.

Lemma run_op_count (o : op Parameters Callable) m m' :
  run_op throws o m = Done m' →
  length (Functions (this m)) = count_connected (heap m) →
  length (Functions (this m')) = count_connected (heap m').
Proof.
  intros Hrun Hm. destruct o as [f | q | q | a' | b']; cbn [run_op] in Hrun.
  - rewrite Connect_eq in Hrun. injection Hrun as <-. cbn [this heap Functions].
    rewrite length_app, count_connected_snoc. simpl. lia.
  - rewrite Disconnect_eq in Hrun.
    destruct (heap m !! q) as [[c0|]|] eqn:Hq; try done.
    destruct (isConnected c0) eqn:Hc0; [|by injection Hrun as <-].
    destruct (decide _) as [Hlt|]; [|done]. injection Hrun as <-.
    cbn [this heap Functions].
    rewrite length_delete by (by apply lookup_lt_is_Some).
    rewrite (count_connected_clear _ _ c0) by done. lia.
  - rewrite Connected_eq in Hrun.
    destruct (heap m !! q) as [[c0|]|]; try done. by injection Hrun as <-.
  - injection Hrun as <-. by rewrite (Fire_Functions throws), (Fire_heap throws).
  - by injection Hrun as <-.
Qed.

(** X5. In every history of calls on a new signal that stays defined, the
    dispatch sequence has as many entries as there are handles that answer
    [Connected() = true], also after a [Disconnect] has erased a listener
    that was not its own. *)
Theorem Functions_count_connected (os : list (op Parameters Callable)) m :
  run_ops throws os ScriptSignal_new = Done m →
  length (Functions (this m)) = count_connected (heap m).
Proof.
  assert (H : ∀ m0, length (Functions (this m0)) = count_connected (heap m0) →
                    run_ops throws os m0 = Done m →
                    length (Functions (this m)) = count_connected (heap m)).
  { induction os as [|o os IH]; intros m0 H0 Hrun; cbn [run_ops] in Hrun.
    - by injection Hrun as <-.
    - destruct (run_op throws o m0) as [m1|] eqn:Ho; [|done].
      apply (IH m1); [by eapply run_op_count | done]. }
  by apply H.
Qed.

(** X6. After any history of calls on a new signal the destructor returns
    and leaves no [Connection] alive: on what is left, [Connected] and
    [Disconnect] through any pointer are undefined, and so is deleting the
    handles of a non-empty [Connections] once more. *)
Theorem handles_dangle_after_destruction (os : list (op Parameters Callable)) m :
  run_ops throws os ScriptSignal_new = Done m →
  ∃ h, ScriptSignal_destructor m = Done h ∧
       (∀ p (s : ScriptSignal Callable),
               Connected p {| this := s; heap := h |} = Undefined ∧
               Disconnect p {| this := s; heap := h |} = Undefined) ∧
       (Connections (this m) ≠ [] → delete_all (Connections (this m)) h = Undefined).
Proof.
  intros Hrun.
  assert (Hown : owns_heap m)
    by (eapply (run_ops_owns_heap throws); [done | apply owns_heap_new]).
  destruct Hown as [HC Hlive]. unfold ScriptSignal_destructor. rewrite HC.
  destruct (delete_all_seq (length (heap m)) 0 (heap m)) as (h & Hdel & Hin & Hout).
  { intros q Hq. apply Hlive. lia. }
  exists h. split; [done|].
  assert (Hdead : ∀ p, h !! p = Some None ∨ h !! p = None).
  { intros p. destruct (decide (p < length (heap m))) as [Hp | Hp].
    - left. apply Hin. lia.
    - right. rewrite Hout by lia. apply lookup_ge_None. lia. }
  split.
  - intros p s. rewrite Connected_eq, Disconnect_eq. cbn [heap].
    by destruct (Hdead p) as [-> | ->].
  - destruct (length (heap m)) as [|n] eqn:Hn; intros Hne; [done|].
    cbn [seq delete_all]. unfold heap_delete. by rewrite Hin by lia.
Qed.

(** ** The example program *)

(** X7. [main] of [Examples/General.cpp] behaves as its comments say: if the
    listener returns it is called once, for the first [Fire], the two
    calls of [Connected] show [1] and then [0], the second [Fire] calls
    nothing, and the destructor frees the connection.  If the listener
    throws, the exception ends [main] after that one call and the
    connection is never freed. *)
Theorem General_main_shows Hello Blue Purple :
  General_main throws Hello Blue Purple =
    match throws Hello Blue with
    | None => Done ([Listener Hello Blue; Boolean true; Boolean false], Returned, [None])
    | Some e => Done ([Listener Hello Blue], Threw e,
                      [Some {| Destroy := 0; isConnected := true |}])
    end.
Proof.
  unfold General_main. rewrite Connect_eq. unfold Fire at 1.
  cbn [this heap Functions Connections Idle ScriptSignal_new app invoke_all].
  destruct (throws Hello Blue); reflexivity.
Qed.

End Registry.

(** * Further properties of the handshake *)

Section Handshake.
Context {Parameters Callable Exn : Type}.
Variable throws : Callable → Parameters → option Exn.

Implicit Types (σ : System Parameters Callable Exn) (p : pc Parameters Exn)
  (t w o : nat) (evs : list (nat * event Parameters Callable)) (α : action)
  (a : Parameters).

(** ** The mutex *)

Lemma step_mutex_held α σ σ' evs :
  step throws α σ = Some (σ', evs) → mutex_held σ → mutex_held σ'.
Proof.
  intros H [Hown Hvalid]. split.
  - intros t' p' Hl.
    step_cases H; thread_lookup; cbn [Current at_pc write_Idle set_Current notify_all];
      try (injection Hl as <-);
      try match type of Hl with
        | _ <$> threads σ !! t' = _ =>
            destruct (threads σ !! t') as [q|] eqn:Hq; [|done];
            injection Hl as <-;
            assert (critical (wake q) = critical q) as -> by (by destruct q)
        end;
      repeat match goal with
        | Ht : threads σ !! _ = Some _ |- _ => pose proof (Hown _ _ Ht); clear Ht
        end;
      cbn [critical] in *; intuition congruence.
  - intros o' Ho'.
    assert (Hlen : ∀ n t p, n < length (threads σ) →
                     n < length (<[t := p]> (threads σ)) ∧
                     n < length (<[t := p]> (wake <$> threads σ)))
      by (intros; rewrite !length_insert, length_fmap; done).
    apply lookup_lt_is_Some.
    step_cases H; cbn [Current threads at_pc write_Idle set_Current notify_all] in *;
      try (injection Ho' as <-);
      try (apply Hlen; eapply lookup_lt_Some; eassumption);
      try (apply Hlen; apply lookup_lt_is_Some; by apply Hvalid);
      try (apply lookup_lt_is_Some; by apply Hvalid);
      try done.
Qed.

Lemma exec_mutex_held sch σ σ' evs :
  exec throws sch σ = Some (σ', evs) → mutex_held σ → mutex_held σ'.
Proof.
  revert σ evs. induction sch as [|α sch IH]; intros σ evs H Hm; cbn [exec] in H.
  - by injection H as <- <-.
  - destruct (step throws α σ) as [[σ1 evs1]|] eqn:Hstep; [|done].
    destruct (exec throws sch σ1) as [[σ2 evs2]|] eqn:Hexec; [|done].
    injection H as <- <-. eapply IH; [done|]. by eapply step_mutex_held.
Qed.

(** X8. When threads call [Fire] and [Wait] on a signal, then under every
    schedule the mutex [Current] is owned by exactly the thread that is
    inside the scope of its lock: in [Fire] the statements after the
    [lock_guard] of line 191 ([Idle = true], [notify_all], the release at
    line 193), in [Wait] the test of the predicate and the return (lines
    212-213), not the sleep.  Two threads are never there together, the
    mutex is free when nobody is, a thread that is calling the listeners
    (lines 187-189) does not hold it, and the owner is never blocked, so
    its next statement can always run. *)
Theorem Current_is_exclusive (m : Memory Callable) (calls : list (pc Parameters Exn))
    sch σ evs :
  (∀ p, p ∈ calls → entry p = true) →
  exec throws sch (spawn m calls) = Some (σ, evs) →
  (∀ t p, threads σ !! t = Some p → (critical p = true ↔ Current σ = Some t)) ∧
  (∀ t1 t2 p1 p2, threads σ !! t1 = Some p1 → threads σ !! t2 = Some p2 →
                  critical p1 = true → critical p2 = true → t1 = t2) ∧
  (∀ t a i, threads σ !! t = Some (FireLoop a i) → Current σ ≠ Some t) ∧
  (∀ o, Current σ = Some o → is_Some (step throws (Run o) σ)).
Proof.
  intros Hcalls Hexec.
  assert (Hinit : mutex_held (spawn m calls)).
  { split; [|done]. intros t p Hl. cbn in *.
    assert (Hp : entry p = true) by (apply Hcalls; by eapply list_elem_of_lookup_2).
    by destruct p. }
  destruct (exec_mutex_held _ _ _ _ Hexec Hinit) as [Hown Hvalid].
  split; [done|]. split; [|split].
  - intros t1 t2 p1 p2 H1 H2 Hc1 Hc2.
    apply (Hown _ _ H1) in Hc1. apply (Hown _ _ H2) in Hc2. congruence.
  - intros t a i Ht Ho. by apply (Hown _ _ Ht) in Ho.
  - intros o Ho. destruct (Hvalid o Ho) as [p Hp].
    assert (Hc : critical p = true) by (by apply (Hown o p Hp)).
    cbn [step]. rewrite (step_thread_at throws _ _ _ Hp).
    destruct p; try discriminate Hc; cbn; try done.
    by destruct (Idle (this (mem σ))).
Qed.



(** ** Time *)

Lemma step_timed α σ σ' evs w p lo :
  step throws α σ = Some (σ', evs) →
  threads σ !! w = Some p →
  (lo ≤ now σ)%Z → timed lo (now σ) p →
  ∃ p', threads σ' !! w = Some p' ∧ (lo ≤ now σ')%Z ∧ timed lo (now σ') p'.
Proof.
  intros H Hw Hlo Hp.
  step_cases H; thread_lookup; cbn [now at_pc write_Idle set_Current notify_all];
    try (rewrite Hw; cbn [fmap option_fmap option_map]);
    try match goal with
      | H1 : threads σ !! w = Some ?q |- _ =>
          lazymatch q with p => fail | _ => idtac end;
          assert (p = q) by congruence; subst p
      end;
    (eexists; split; [reflexivity|]);
    try (destruct p); cbn [timed wake] in *; lia.
Qed.

(** X9. The duration a call of [Wait] returns is never negative and never
    more than the time that passed between the call and the moment looked
    at, whatever the other threads and the scheduler did. *)
Theorem Wait_elapsed_bounds sch σ σ' evs w elapsed :
  threads σ !! w = Some WaitEntry →
  exec throws sch σ = Some (σ', evs) →
  threads σ' !! w = Some (WaitDone elapsed) →
  (0 ≤ elapsed ≤ now σ' - now σ)%Z.
Proof.
  intros Hw Hexec Hw'.
  assert (H : ∀ sch σ1 evs1 p,
            exec throws sch σ1 = Some (σ', evs1) →
            threads σ1 !! w = Some p →
            (now σ ≤ now σ1)%Z → timed (now σ) (now σ1) p →
            ∃ p', threads σ' !! w = Some p' ∧ timed (now σ) (now σ') p').
  { clear. induction sch as [|α sch IH]; intros σ1 evs1 p H Hp Hlo Ht; cbn [exec] in H.
    - injection H as <- <-. by exists p.
    - destruct (step throws α σ1) as [[σ2 evs2]|] eqn:Hstep; [|done].
      destruct (exec throws sch σ2) as [[σ3 evs3]|] eqn:Hexec; [|done].
      injection H as <- <-.
      destruct (step_timed _ _ _ _ _ _ _ Hstep Hp Hlo Ht) as (p2 & Hp2 & Hlo2 & Ht2).
      by eapply IH. }
  destruct (H sch σ evs WaitEntry Hexec Hw) as (p' & Hp' & Ht'); [lia | done |].
  rewrite Hw' in Hp'. injection Hp' as <-. exact Ht'.
Qed.

(** ** One [Fire] and many waiters *)

Lemma invoke_all_never_notifies (fs : list Callable) a :
  notifies (invoke_all throws fs a).1 = false.
Proof.
  induction fs as [|f fs IH]; cbn [invoke_all]; [done|].
  destruct (throws f a); [done|].
  destruct (invoke_all throws fs a) as [evs c]. exact IH.
Qed.

Lemma Fire_Threw a (m : Memory Callable) e :
  (Fire throws a m).1.2 = Threw e →
  (Fire throws a m).2 = m ∧ notifies (Fire throws a m).1.1 = false.
Proof.
  unfold Fire. destruct (Functions (this m)) as [|f fs]; [done|].
  pose proof (invoke_all_never_notifies (f :: fs) a) as Hn.
  destruct (invoke_all throws (f :: fs) a) as [evs [|e']]; [done|].
  intros _. done.
Qed.

Lemma sum_list_with_insert {A} (g : A → nat) (l : list A) i x y :
  l !! i = Some x →
  sum_list_with g (<[i := y]> l) + g x = sum_list_with g l + g y.
Proof.
  revert i. induction l as [|z l IH]; intros [|i] H; try done; simpl in *.
  - injection H as ->. lia.
  - specialize (IH i H). lia.
Qed.

Lemma sum_list_with_le {A} (g h : A → nat) (l : list A) :
  (∀ x, g x ≤ h x) → sum_list_with g l ≤ sum_list_with h l.
Proof. intros H. induction l as [|z l IH]; cbn; [done|]. specialize (H z). lia. Qed.

Lemma sum_list_with_wake n (l : list (pc Parameters Exn)) :
  sum_list_with (steps_left n true) (wake <$> l) = sum_list_with (steps_left n true) l.
Proof. induction l as [|z l IH]; cbn; [done|]. rewrite IH. by destruct z. Qed.

Lemma steps_left_idle n idle p : steps_left n true p ≤ steps_left n idle p.
Proof. destruct p, idle; cbn; lia. Qed.

Lemma step_releasing α σ σ' evs (f : nat) a :
  Functions (this (mem σ)) ≠ [] →
  (∀ g, g ∈ Functions (this (mem σ)) → throws g a = None) →
  step throws α σ = Some (σ', evs) →
  releasing f a σ → releasing f a σ'.
Proof.
  intros HF Hret H [(pf & Hf & Hph) Hoth].
  assert (Hwake : ∀ q : pc Parameters Exn,
            in_Fire (wake q) = in_Fire q ∧ entry (wake q) = entry q)
    by (by intros []).
  step_cases H.
  all: try match goal with
    | Ht : threads _ !! ?t = Some _ |- _ =>
        destruct (decide (t = f)) as [-> | Hne];
        [ rewrite Hf in Ht; injection Ht as ->; cbn [fire_phase] in Hph
        | destruct (Hoth _ _ Hne Ht) as [Hin Hen]; cbn in Hin, Hen; try discriminate ]
    end.
  all: try done.
  all: try match goal with
    | Hl : Functions _ !! _ = Some ?g, Hthrow : throws ?g _ = Some _ |- _ =>
        apply list_elem_of_lookup_2 in Hl; apply Hret in Hl; congruence
    end.
  all: (split;
    [ 
    | intros t' p' Hne' Hl; thread_lookup;
      try (injection Hl as <-; done);
      try (destruct (threads σ !! t') as [q|] eqn:Hq; [|done];
           injection Hl as <-; rewrite !(proj1 (Hwake q)), !(proj2 (Hwake q)));
      by eapply Hoth ]).
  all: try (exists pf; split;
    [ thread_lookup; done
    | destruct pf; cbn [fire_phase] in *; try done;
      cbn [mem this Idle at_pc write_Idle set_Current notify_all set_Idle] in *;
      try congruence;
      (split; [by destruct Hph|]);
      destruct Hph as [HI Hnb]; intros t' Time'; thread_lookup;
      try done; try congruence; try apply Hnb;
      try (exfalso; by eapply Hnb) ]).
  all: (eexists; split;
    [ cbn [threads at_pc write_Idle set_Current notify_all];
      apply list_lookup_insert_eq; rewrite ?length_fmap; by eapply lookup_lt_Some|]);
    cbn [fire_phase mem this Idle at_pc write_Idle set_Current notify_all set_Idle];
    try done.
  - split; [done|]. intros t' Time'. thread_lookup; [done|].
    destruct (threads σ !! t') as [[]|]; done.
  - destruct Hph as [HI Hnb]. split; [done|]. intros t' Time'. thread_lookup; [done|].
    apply Hnb.
Qed.

Lemma step_work α σ σ' evs (f : nat) a :
  step throws α σ = Some (σ', evs) →
  releasing f a σ →
  work σ' + match α with Run _ => 1 | _ => 0 end
  ≤ work σ + 2 * match α with Spurious _ => 1 | _ => 0 end.
Proof.
  intros H [(pf & Hf & Hph) Hoth].
  unfold work. rewrite (step_Functions throws _ _ _ _ H).
  set (n := length (Functions (this (mem σ)))).
  pose proof (sum_list_with_le _ _ (threads σ) (steps_left_idle n (Idle (this (mem σ)))))
    as Hidle.
  step_cases H.
  all: try match goal with
    | Ht : threads _ !! ?t = Some _ |- _ =>
        destruct (decide (t = f)) as [-> | Hne];
        [ rewrite Hf in Ht; injection Ht as ->; cbn [fire_phase] in Hph
        | destruct (Hoth _ _ Hne Ht) as [Hin Hen]; cbn in Hin, Hen; try discriminate ]
    end.
  all: try done.
  all: cbn [threads mem this Idle Functions at_pc write_Idle set_Current notify_all set_Idle].
  all: try match goal with
    | Hl : Functions _ !! _ = Some _ |- _ =>
        apply lookup_lt_Some in Hl; change (length _) with n in Hl
    end.
  all: try match goal with
    | Hl : Functions _ !! _ = None |- _ =>
        apply lookup_ge_None in Hl; change (length _) with n in Hl
    end.
  all: try rewrite Hph in *.
  all: try match goal with
    | Ht : threads _ !! ?t = Some ?p
      |- context [sum_list_with ?g (<[?t := ?q]> (wake <$> ?l))] =>
        let E := fresh "E" in
        assert (E : (wake <$> l) !! t = Some (wake p))
          by (rewrite list_lookup_fmap, Ht; reflexivity);
        pose proof (sum_list_with_insert g _ t _ q E);
        rewrite sum_list_with_wake in *
    | Ht : threads _ !! ?t = Some ?p
      |- context [sum_list_with ?g (<[?t := ?q]> ?l)] =>
        pose proof (sum_list_with_insert g l t p q Ht)
    end.
  all: try destruct (Idle (this (mem σ))).
  all: cbn [steps_left wake] in *.
  all: lia.
Qed.

Lemma exec_releasing sch : ∀ σ σ' evs (f : nat) a,
  Functions (this (mem σ)) ≠ [] →
  (∀ g, g ∈ Functions (this (mem σ)) → throws g a = None) →
  exec throws sch σ = Some (σ', evs) →
  releasing f a σ →
  releasing f a σ' ∧ runs sch + work σ' ≤ work σ + 2 * wake_ups sch.
Proof.
  induction sch as [|α sch IH]; intros σ σ' evs f a HF Hret H Hinv; cbn [exec] in H.
  - injection H as <- <-. split; [done|]. cbn. lia.
  - destruct (step throws α σ) as [[σ1 evs1]|] eqn:Hstep; [|done].
    destruct (exec throws sch σ1) as [[σ2 evs2]|] eqn:Hexec; [|done].
    injection H as <- <-.
    pose proof (step_Functions throws _ _ _ _ Hstep) as HFs.
    pose proof (step_releasing _ _ _ _ _ _ HF Hret Hstep Hinv) as Hinv1.
    pose proof (step_work _ _ _ _ _ _ Hstep Hinv) as Hw.
    destruct (IH σ1 σ2 evs2 f a) as [Hinv2 Hw2]; [by rewrite HFs | by rewrite HFs | done | done |].
    split; [done|]. unfold runs, wake_ups in *. cbn [sum_list_with]. lia.
Qed.

Lemma sum_list_with_bound {A} (g : A → nat) (k : nat) (l : list A) i x :
  l !! i = Some x →
  (∀ j y, j ≠ i → l !! j = Some y → g y ≤ k) →
  sum_list_with g l + k ≤ g x + k * length l.
Proof.
  revert i. induction l as [|z l IH]; intros i Hi H; [done|].
  cbn [sum_list_with length]. destruct i as [|i].
  - injection Hi as ->.
    assert (sum_list_with g l ≤ k * length l); [|lia].
    clear IH. induction l as [|y l IH]; cbn; [lia|].
    assert (g y ≤ k) by (by apply (H 1 y)).
    assert (sum_list_with g l ≤ k * length l); [|lia].
    apply IH. intros [|j] y' Hj Hy'; [done|]. by apply (H (S (S j)) y').
  - assert (g z ≤ k) by (by apply (H 0 z)).
    assert (sum_list_with g l + k ≤ g x + k * length l); [|lia].
    apply (IH i); [done|]. intros j y Hj Hy. apply (H (S j) y); [lia | done].
Qed.

(** X10. One call of [Fire] releases every waiter.  A thread calls
    [Fire(a)] on a signal with listeners, which return, while every other
    thread is inside [Wait] and has executed its reset of [Idle] (asleep,
    or on its way to the lock).  Then under every schedule, with clock
    ticks and spurious wake-ups: once [Fire] has executed [notify_all],
    [Idle] is set and no thread is asleep or goes to sleep again; whenever
    no thread can execute a statement, [Fire] has returned and so has
    every call of [Wait]; and the schedule has executed no more statements
    than the listeners, six per thread, and two per spurious wake-up.  So
    no wake-up is lost and no schedule runs for ever or gets stuck before
    every waiter has returned. *)
Theorem Fire_releases_every_waiter σ (f : nat) a sch σ' evs :
  threads σ !! f = Some (FireEntry a) →
  Current σ = None →
  Functions (this (mem σ)) ≠ [] →
  (∀ g, g ∈ Functions (this (mem σ)) → throws g a = None) →
  (∀ t p, t ≠ f → threads σ !! t = Some p → reset_done p = true) →
  exec throws sch σ = Some (σ', evs) →
  ((threads σ' !! f = Some FireUnlock ∨ threads σ' !! f = Some FireDone) →
   Idle (this (mem σ')) = true ∧
   ∀ t Time, threads σ' !! t ≠ Some (WaitBlocked Time)) ∧
  ((∀ t, step throws (Run t) σ' = None) →
   threads σ' !! f = Some FireDone ∧
   ∀ t p, t ≠ f → threads σ' !! t = Some p → ∃ elapsed, p = WaitDone elapsed) ∧
  runs sch ≤ length (Functions (this (mem σ))) + 6 * length (threads σ) + 2 * wake_ups sch.
Proof.
  intros Hf Hcur HF Hret Hothers Hexec.
  assert (Hinit : releasing f a σ).
  { split; [by exists (FireEntry a)|]. intros t p Hne Hp.
    specialize (Hothers t p Hne Hp). by destruct p. }
  assert (Hmutex : mutex_held σ).
  { split; [|by rewrite Hcur]. intros t p Hp. rewrite Hcur.
    destruct (decide (t = f)) as [-> | Hne].
    - rewrite Hf in Hp. by injection Hp as <-.
    - specialize (Hothers t p Hne Hp). by destruct p. }
  destruct (exec_releasing sch σ σ' evs f a HF Hret Hexec Hinit)
    as [[(pf & Hf' & Hph) Hoth] Hwork].
  destruct (exec_mutex_held _ _ _ _ Hexec Hmutex) as [Hown Hvalid].
  split; [|split].
  - intros [H | H]; rewrite H in Hf'; injection Hf' as <-; exact Hph.
  - intros Hstuck.
    assert (Hfree : Current σ' = None).
    { destruct (Current σ') as [o|] eqn:Ho; [|done]. exfalso.
      destruct (Hvalid o eq_refl) as [p Hp].
      assert (Hc : critical p = true) by (by apply (Hown o p Hp)).
      specialize (Hstuck o). cbn [step] in Hstuck.
      rewrite (step_thread_at throws _ _ _ Hp) in Hstuck.
      destruct p; try discriminate Hc; cbn in Hstuck; try done.
      by destruct (Idle (this (mem σ'))). }
    assert (Hdone : pf = FireDone).
    { pose proof (Hstuck f) as Hs. cbn [step] in Hs.
      rewrite (step_thread_at throws _ _ _ Hf') in Hs.
      destruct pf; try done; cbn in Hs.
      - by destruct (Functions (this (mem σ'))).
      - destruct (Functions (this (mem σ')) !! i); [|done]. by destruct (throws c a0).
      - by rewrite Hfree in Hs. }
    subst pf. split; [done|]. destruct Hph as [HI Hnb].
    intros t p Hne Hp. destruct (Hoth t p Hne Hp) as [Hin Hen].
    pose proof (Hstuck t) as Hs. cbn [step] in Hs.
    rewrite (step_thread_at throws _ _ _ Hp) in Hs.
    destruct p; try discriminate Hin; try discriminate Hen; cbn in Hs;
      rewrite ?Hfree, ?HI in Hs; try done.
    + by destruct (Hnb t Time).
    + by eexists.
  - assert (Hw : work σ ≤ length (Functions (this (mem σ))) + 6 * length (threads σ)).
    { unfold work.
      set (g := steps_left (length (Functions (this (mem σ)))) (Idle (this (mem σ)))).
      pose proof (sum_list_with_bound g 6 (threads σ) f _ Hf) as Hb.
      assert (E1 : g (FireEntry a) = length (Functions (this (mem σ))) + 6) by done.
      rewrite E1 in Hb. 
      assert (sum_list_with g (threads σ) + 6
              ≤ length (Functions (this (mem σ))) + 6 + 6 * length (threads σ)); [|lia].
      apply Hb. intros t p Hne Hp. specialize (Hothers t p Hne Hp). unfold g.
      destruct p; try discriminate Hothers; cbn; destruct (Idle (this (mem σ))); lia. }
    lia.
Qed.
(** ** The dispatch of one call of [Fire] among other calls *)

Lemma events_of_app {E : Type} t (l1 l2 : list (nat * E)) :
  events_of t (l1 ++ l2) = events_of t l1 ++ events_of t l2.
Proof. unfold events_of. by rewrite filter_app, fmap_app. Qed.

Lemma events_of_own {E : Type} t (ev : E) (l : list (nat * E)) :
  events_of t ((t, ev) :: l) = ev :: events_of t l.
Proof. unfold events_of. rewrite filter_cons. cbn. by rewrite decide_True. Qed.

Lemma events_of_other {E : Type} t (u : nat) (ev : E) (l : list (nat * E)) :
  u ≠ t → events_of t ((u, ev) :: l) = events_of t l.
Proof. intros H. unfold events_of. rewrite filter_cons. cbn. by rewrite decide_False. Qed.

Lemma dispatched_wake (fs : list Callable) a p tr :
  dispatched throws fs a p tr → wake p = p.
Proof. by destruct p. Qed.

Lemma step_dispatched α σ σ' evs t a p tr (fs : list Callable) :
  Functions (this (mem σ)) = fs →
  step throws α σ = Some (σ', evs) →
  threads σ !! t = Some p →
  dispatched throws fs a p tr →
  ∃ p', threads σ' !! t = Some p' ∧ dispatched throws fs a p' (tr ++ events_of t evs).
Proof.
  intros Hfs H Hp Hd.
  pose proof (dispatched_wake _ _ _ _ Hd) as Hwake.
  assert (Hlt : t < length (threads σ)) by (by eapply lookup_lt_Some).
  step_cases H.
  all: try match goal with
    | Ht : threads _ !! ?u = Some _ |- _ =>
        destruct (decide (u = t)) as [-> | Hne];
        [ rewrite Hp in Ht; injection Ht as ->; cbn [dispatched] in Hd
        | ]
    end.
  all: try done.
  all: rewrite ?events_of_own, ?events_of_other by done.
  all: change (events_of t []) with (@nil (event Parameters Callable)); rewrite ?app_nil_r.
  all: try (exists p; split; [|exact Hd];
            cbn [threads at_pc write_Idle set_Current notify_all];
            rewrite ?list_lookup_insert_ne by done;
            rewrite ?list_lookup_fmap, Hp; cbn; by rewrite ?Hwake).
  all: (eexists; split;
    [ cbn [threads at_pc write_Idle set_Current notify_all];
      apply list_lookup_insert_eq; by rewrite ?length_fmap |]);
    cbn [dispatched].
  - left. by destruct Hd.
  - destruct Hd as [-> ->]. subst fs. split; [done|]. split; [done|]. split; [|done].
    intros g Hg. by apply elem_of_nil in Hg.
  - destruct Hd as (-> & Hne & Hret & ->). subst fs.
    exists (take i (Functions (this (mem σ)))), c, (drop (S i) (Functions (this (mem σ)))).
    split; [by rewrite take_drop_middle|]. split; [done|]. split; [done|].
    unfold calls. by rewrite fmap_app.
  - destruct Hd as (-> & Hne & Hret & ->). subst fs.
    erewrite take_S_r by eassumption.
    split; [done|]. split; [done|]. split.
    + intros g [Hg | Hg]%elem_of_app; [by apply Hret|].
      apply elem_of_cons in Hg as [-> | Hg]; [done | by apply elem_of_nil in Hg].
    + unfold calls. by rewrite fmap_app.
  - destruct Hd as (-> & Hne & Hret & ->). subst fs.
    rewrite take_ge in * by (by apply lookup_ge_None). done.
  - destruct Hd as (Hne & Hret & ->). done.
  - destruct Hd as (Hne & Hret & ->). by rewrite <- app_assoc.
  - destruct Hd as (Hne & Hret & ->). by rewrite <- app_assoc.
  - destruct Hd as (Hne & Hret & ->). right. by rewrite <- app_assoc.
Qed.

Lemma exec_dispatched sch : ∀ σ σ' evs t a p tr,
  exec throws sch σ = Some (σ', evs) →
  threads σ !! t = Some p →
  dispatched throws (Functions (this (mem σ))) a p tr →
  ∃ p', threads σ' !! t = Some p' ∧
        dispatched throws (Functions (this (mem σ))) a p' (tr ++ events_of t evs).
Proof.
  induction sch as [|α sch IH]; intros σ σ' evs t a p tr H Hp Hd; cbn [exec] in H.
  - injection H as <- <-. exists p. by rewrite app_nil_r.
  - destruct (step throws α σ) as [[σ1 evs1]|] eqn:Hstep; [|done].
    destruct (exec throws sch σ1) as [[σ2 evs2]|] eqn:Hexec; [|done].
    injection H as <- <-.
    destruct (step_dispatched _ _ _ _ _ _ _ _ _ eq_refl Hstep Hp Hd) as (p1 & Hp1 & Hd1).
    rewrite <- (step_Functions throws _ _ _ _ Hstep) in Hd1.
    destruct (IH _ _ _ _ _ _ _ Hexec Hp1 Hd1) as (p2 & Hp2 & Hd2).
    exists p2. split; [done|].
    rewrite events_of_app, app_assoc, <- (step_Functions throws _ _ _ _ Hstep). done.
Qed.

Lemma invoked_calls (fs : list Callable) a (more : list (event Parameters Callable)) :
  invoked more = [] →
  invoked (calls fs a ++ more) = (λ g, (g, a)) <$> fs.
Proof.
  intros H. unfold calls. by rewrite (invoked_app), (invoked_Invoke), H, app_nil_r.
Qed.

(** X11. Calls of [Fire] and [Wait] by other threads do not disturb the
    dispatch of a call of [Fire(a)]: under every schedule, what the thread
    has invoked so far is a prefix of the dispatch sequence, each listener
    once with [a], in order; when the call has returned, every listener
    returned and the thread has invoked all of them and then locked, set
    [Idle], notified and unlocked, or the sequence was empty and it did
    nothing; when the call has ended with an exception, the thread has
    invoked the listeners up to and including the first that throws, which
    threw that exception, and has not touched the mutex or [Idle]. *)
Theorem Fire_dispatch_is_undisturbed σ t a sch σ' evs :
  threads σ !! t = Some (FireEntry a) →
  exec throws sch σ = Some (σ', evs) →
  (∃ i, invoked (events_of t evs) = (λ g, (g, a)) <$> take i (Functions (this (mem σ)))) ∧
  (threads σ' !! t = Some FireDone →
     (∀ g, g ∈ Functions (this (mem σ)) → throws g a = None) ∧
     events_of t evs =
       match Functions (this (mem σ)) with
       | [] => []
       | fs => ((λ g, Invoke g a) <$> fs) ++ [Lock; SetIdle true; NotifyAll; Unlock]
       end) ∧
  (∀ e, threads σ' !! t = Some (FireThrew e) →
     ∃ pre g post,
       Functions (this (mem σ)) = pre ++ g :: post ∧
       (∀ h, h ∈ pre → throws h a = None) ∧
       throws g a = Some e ∧
       events_of t evs = (λ g, Invoke g a) <$> (pre ++ [g])).
Proof.
  intros Ht Hexec.
  destruct (exec_dispatched sch σ σ' evs t a (FireEntry a) [] Hexec Ht) as (p' & Hp' & Hd);
    [done|].
  rewrite app_nil_l in Hd. set (fs := Functions (this (mem σ))) in *.
  split; [|split].
  - destruct p'; cbn [dispatched] in Hd; try done.
    + destruct Hd as [_ ->]. by exists 0.
    + destruct Hd as (_ & _ & _ & ->). exists i.
      rewrite <- (app_nil_r (calls _ _)). by apply invoked_calls.
    + destruct Hd as (_ & _ & ->). exists (length fs). rewrite firstn_all.
      rewrite <- (app_nil_r (calls _ _)). by apply invoked_calls.
    + destruct Hd as (_ & _ & ->). exists (length fs). rewrite firstn_all.
      by apply invoked_calls.
    + destruct Hd as (_ & _ & ->). exists (length fs). rewrite firstn_all.
      by apply invoked_calls.
    + destruct Hd as (_ & _ & ->). exists (length fs). rewrite firstn_all.
      by apply invoked_calls.
    + destruct Hd as [[_ ->] | (_ & _ & ->)]; [by exists 0|].
      exists (length fs). rewrite firstn_all. by apply invoked_calls.
    + destruct Hd as (pre & g & post & E & _ & _ & ->). exists (S (length pre)).
      rewrite E.
      replace (pre ++ g :: post) with ((pre ++ [g]) ++ post) by (by rewrite <- app_assoc).
      rewrite take_app_length' by (rewrite length_app; cbn; lia).
      rewrite <- (app_nil_r (calls _ _)). by apply invoked_calls.
  - intros Hdone. rewrite Hdone in Hp'. injection Hp' as <-. cbn [dispatched] in Hd.
    destruct Hd as [[E ->] | (Hne & Hret & ->)].
    + rewrite E. split; [|done]. intros g Hg. by apply elem_of_nil in Hg.
    + split; [done|]. by destruct fs.
  - intros e He. rewrite He in Hp'. injection Hp' as <-. exact Hd.
Qed.
(** X12. A listener that throws strands the waiters: when a thread runs
    [Fire] while the other threads are inside [Wait] with [Idle] clear, and
    a listener throws, the call ends with that exception without having
    notified, and from then on no schedule releases any of the waiters. *)
Theorem Fire_throw_strands_waiters σ f a e :
  threads σ !! f = Some (FireEntry a) →
  Current σ = None →
  Idle (this (mem σ)) = false →
  (∀ t p, t ≠ f → threads σ !! t = Some p → waiting p = true) →
  (Fire throws a (mem σ)).1.2 = Threw e →
  ∃ n σ' evs,
    exec throws (replicate n (Run f)) σ = Some (σ', evs) ∧
    threads σ' !! f = Some (FireThrew e) ∧
    (∀ t, (t, NotifyAll) ∉ evs) ∧
    ∀ sch σ'' evs',
      exec throws sch σ' = Some (σ'', evs') →
      ∀ t p, threads σ'' !! t = Some p → released p = false.
Proof.
  intros Hf Hcur HI Hothers Hthrow.
  destruct (Fire_thread_alone throws σ f a Hf Hcur)
    as (n & σ' & Hexec & Hmem & Hcur' & Hf' & Hrest).
  destruct (Fire_Threw a (mem σ) e Hthrow) as [Hm Hn].
  rewrite Hthrow in Hf'. rewrite Hn in Hrest. rewrite Hm in Hmem.
  assert (Hs : stranded σ').
  { intros t p Hp. destruct (decide (t = f)) as [-> | Hne].
    - rewrite Hf' in Hp. injection Hp as <-. done.
    - rewrite Hrest in Hp by done.
      destruct (threads σ !! t) as [q|] eqn:Hq; [|done]. injection Hp as <-.
      pose proof (Hothers t q Hne Hq) as Hw. rewrite Hmem.
      by destruct q. }
  eexists n, σ', _. split; [exact Hexec|]. split; [done|]. split.
  { intros t (ev & Heq & Hev)%list_elem_of_fmap. injection Heq as -> <-.
    assert (Hex : notifies (Fire throws a (mem σ)).1.1 = true).
    { unfold notifies. apply existsb_exists. exists NotifyAll.
      split; [by apply list_elem_of_In | done]. }
    congruence. }
  intros sch σ'' evs' Hexec' t p Hp.
  destruct (exec_stranded throws _ _ _ _ Hexec' Hs) as [Hs'' _].
  by destruct (Hs'' t p Hp) as (_ & ? & _).
Qed.

End Handshake.

(** * Properties of the earlier header *)

Section Old_variant.
Context {Parameters Callable Exn : Type}.
Variable throws : Callable → Parameters → option Exn.

Implicit Types (s : Old.ScriptSignal Callable) (h : Old.Handler)
  (σ : Old.System Parameters Callable Exn) (p : Old.pc Parameters Exn)
  (t w : nat) (evs : list (nat * event Parameters Callable)) (α : Old.action)
  (a : Parameters) (f g : Callable).

(** ** Handles are values *)

(** X13. In the earlier header [Connect] followed by [Disconnect] on the
    handle restores the signal, and a further [Disconnect] on that handle
    object does nothing.  A copy of the handle taken before keeps its own
    [Connected] flag: [Disconnect] through the copy erases at the captured
    position once more, which is undefined when the listener was the last
    one, and removes the listener connected after it otherwise. *)
Theorem Old_Disconnect_through_a_copy f g s :
  ∃ h h' hg s1 s2 s3,
    Old.Connect f s = (h, s1) ∧
    Old.Disconnect h s1 = Done (h', s) ∧
    Old.Connected h' = false ∧
    Old.Disconnect h' s = Done (h', s) ∧
    Old.Disconnect h s = Undefined ∧
    Old.Connect g s1 = (hg, s2) ∧
    Old.Disconnect h s2 = Done (h', s3) ∧
    Old.Connections s3 = Old.Connections s ++ [g] ∧
    Old.Disconnect h s3 = Done (h', s) ∧
    Old.Connected hg = true.
Proof.
  destruct s as [v idle].
  set (h := {| Old.ExternDisconnect := length v; Old.Connected := true |}).
  set (h' := {| Old.ExternDisconnect := length v; Old.Connected := false |}).
  set (hg := {| Old.ExternDisconnect := S (length v); Old.Connected := true |}).
  set (s1 := {| Old.Connections := v ++ [f]; Old.Idle := idle |}).
  set (s2 := {| Old.Connections := (v ++ [f]) ++ [g]; Old.Idle := idle |}).
  set (s3 := {| Old.Connections := v ++ [g]; Old.Idle := idle |}).
  assert (Herase : ∀ (l : list Callable) idle',
            Old.Disconnect h {| Old.Connections := l; Old.Idle := idle' |}
            = if decide (length v < length l)
              then Done (h', {| Old.Connections := delete (length v) l; Old.Idle := idle' |})
              else Undefined).
  { intros l idle'. unfold Old.Disconnect, vector_erase. cbn.
    by destruct (decide _). }
  assert (H1 : delete (length v) (v ++ [f]) = v).
  { rewrite (delete_middle v [] f). apply app_nil_r. }
  assert (H2 : delete (length v) ((v ++ [f]) ++ [g]) = v ++ [g]).
  { rewrite <- app_assoc. apply (delete_middle v [g] f). }
  assert (H3 : delete (length v) (v ++ [g]) = v).
  { rewrite (delete_middle v [] g). apply app_nil_r. }
  exists h, h', hg, s1, s2, s3.
  split.
  { unfold Old.Connect, h, s1. cbn. rewrite length_app. cbn.
    by replace (length v + 1 - 1) with (length v) by lia. }
  split.
  { unfold s1. rewrite (Herase _ _), decide_True by (rewrite length_app; simpl; lia).
    by rewrite H1. }
  split; [done|]. split; [done|]. split.
  { rewrite (Herase _ _). by rewrite decide_False by lia. }
  split.
  { unfold Old.Connect, hg, s1, s2. cbn. rewrite !length_app. cbn.
    by replace (length v + 1 + 1 - 1) with (S (length v)) by lia. }
  split.
  { unfold s2. rewrite (Herase _ _), decide_True by (rewrite !length_app; simpl; lia).
    by rewrite H2. }
  split; [done|]. split; [|done].
  unfold s3. rewrite (Herase _ _), decide_True by (rewrite length_app; simpl; lia).
  by rewrite H3.
Qed.

(** ** Steps *)

Lemma Old_step_thread_at t σ p :
  Old.threads σ !! t = Some p →
  Old.step_thread throws t σ
    = if Old.in_Fire p then Old.Fire_step throws t p σ else Old.Wait_step t p σ.
Proof. intros Ht. unfold Old.step_thread. by rewrite Ht. Qed.

Lemma Old_exec_app sch1 sch2 σ σ1 σ2 evs1 evs2 :
  Old.exec throws sch1 σ = Some (σ1, evs1) →
  Old.exec throws sch2 σ1 = Some (σ2, evs2) →
  Old.exec throws (sch1 ++ sch2) σ = Some (σ2, evs1 ++ evs2).
Proof.
  revert σ evs1. induction sch1 as [|α sch1 IH]; intros σ evs1 H1 H2;
    cbn [Old.exec app] in *.
  - by injection H1 as <- <-.
  - destruct (Old.step throws α σ) as [[σ' evs']|]; [|done].
    destruct (Old.exec throws sch1 σ') as [[σ'' evs'']|] eqn:E; [|done].
    injection H1 as <- <-. rewrite (IH _ _ E H2). by rewrite app_assoc.
Qed.

(** While [Idle] is set, a thread polling it keeps polling unless the step
    is the [Idle = false] of a call of [Fire]. *)
Lemma Old_step_polling α σ σ' evs w p :
  Old.step throws α σ = Some (σ', evs) →
  Old.threads σ !! w = Some p → Old.polling p = true →
  Old.Idle (Old.mem σ) = true →
  (∃ u : nat, u ≠ w ∧ evs = [(u, SetIdle false)] ∧ Old.threads σ' !! w = Some p) ∨
  (∃ p', Old.threads σ' !! w = Some p' ∧ Old.polling p' = true ∧
         Old.Idle (Old.mem σ') = true).
Proof.
  intros H Hw Hp HI.
  Old.step_cases H; Old.thread_lookup;
    try match goal with
      | H1 : Old.threads σ !! w = Some ?q |- _ =>
          lazymatch q with p => fail | _ => idtac end;
          assert (p = q) by congruence; subst p; cbn in Hp; try discriminate Hp
      end;
    try congruence.
  all: try (right; eexists; split; [reflexivity || eassumption|]; split; done).
  all: try (left; eexists; split; [eassumption|]; split; done).
Qed.

Lemma Old_step_unreturned α σ σ' evs w p :
  Old.step throws α σ = Some (σ', evs) →
  Old.threads σ !! w = Some p → Old.unreturned p = true →
  ∃ p', Old.threads σ' !! w = Some p' ∧
        (Old.unreturned p' = true ∨ ∃ e, p' = Old.WaitDone e ∧ evs = [(w, Return e)]).
Proof.
  intros H Hw Hp.
  Old.step_cases H; Old.thread_lookup;
    try match goal with
      | H1 : Old.threads σ !! w = Some ?q |- _ =>
          lazymatch q with p => fail | _ => idtac end;
          assert (p = q) by congruence; subst p; cbn in Hp; try discriminate Hp
      end;
    try congruence.
  all: try (eexists; split; [reflexivity || eassumption|]; left; done).
  eexists. split; [reflexivity|]. right. by eexists.
Qed.

Lemma Old_step_WaitDone α σ σ' evs w e :
  Old.step throws α σ = Some (σ', evs) →
  Old.threads σ !! w = Some (Old.WaitDone e) →
  Old.threads σ' !! w = Some (Old.WaitDone e).
Proof.
  intros H Hw. Old.step_cases H; Old.thread_lookup; congruence.
Qed.

Lemma Old_exec_WaitDone sch σ σ' evs w e :
  Old.exec throws sch σ = Some (σ', evs) →
  Old.threads σ !! w = Some (Old.WaitDone e) →
  Old.threads σ' !! w = Some (Old.WaitDone e).
Proof.
  revert σ evs. induction sch as [|α sch IH]; intros σ evs H Hw; cbn [Old.exec] in H.
  - by injection H as <- <-.
  - destruct (Old.step throws α σ) as [[σ1 evs1]|] eqn:Hstep; [|done].
    destruct (Old.exec throws sch σ1) as [[σ2 evs2]|] eqn:Hexec; [|done].
    injection H as <- <-. eapply IH; [done|]. by eapply Old_step_WaitDone.
Qed.

Lemma Old_exec_unreturned sch σ σ' evs w p e :
  Old.exec throws sch σ = Some (σ', evs) →
  Old.threads σ !! w = Some p → Old.unreturned p = true →
  Old.threads σ' !! w = Some (Old.WaitDone e) →
  ∃ evs1 evs2, evs = evs1 ++ (w, Return e) :: evs2.
Proof.
  revert σ evs p. induction sch as [|α sch IH]; intros σ evs p H Hw Hp Hw';
    cbn [Old.exec] in H.
  - injection H as <- <-. rewrite Hw in Hw'. injection Hw' as ->. done.
  - destruct (Old.step throws α σ) as [[σ1 evs1]|] eqn:Hstep; [|done].
    destruct (Old.exec throws sch σ1) as [[σ2 evs2]|] eqn:Hexec; [|done].
    injection H as <- <-.
    destruct (Old_step_unreturned _ _ _ _ _ _ Hstep Hw Hp)
      as (p1 & Hw1 & [Hp1 | (e1 & -> & ->)]).
    + destruct (IH _ _ _ Hexec Hw1 Hp1 Hw') as (l1 & l2 & ->).
      exists (evs1 ++ l1), l2. by rewrite app_assoc.
    + assert (E := Old_exec_WaitDone _ _ _ _ _ _ Hexec Hw1). rewrite E in Hw'.
      injection Hw' as ->. by exists [], evs2.
Qed.

(** X14. In the earlier header a call of [Wait] that starts while [Idle]
    is set returns only after another thread has executed the
    [Idle = false] with which [Fire] begins its round of calls: [Wait]
    sees a [Fire] only while that [Fire] is under way. *)
Theorem Old_Wait_returns_only_during_Fire sch σ σ' evs w elapsed :
  Old.Idle (Old.mem σ) = true →
  Old.threads σ !! w = Some Old.WaitEntry →
  Old.exec throws sch σ = Some (σ', evs) →
  Old.threads σ' !! w = Some (Old.WaitDone elapsed) →
  ∃ (u : nat) evs1 evs2 evs3,
    u ≠ w ∧ evs = evs1 ++ (u, SetIdle false) :: evs2 ++ (w, Return elapsed) :: evs3.
Proof.
  intros HI Hw Hexec Hw'.
  assert (H : ∀ sch σ1 evs1 p,
            Old.exec throws sch σ1 = Some (σ', evs1) →
            Old.threads σ1 !! w = Some p → Old.polling p = true →
            Old.Idle (Old.mem σ1) = true →
            ∃ (u : nat) l1 l2 l3,
              u ≠ w ∧ evs1 = l1 ++ (u, SetIdle false) :: l2 ++ (w, Return elapsed) :: l3).
  { clear sch σ evs HI Hw Hexec.
    induction sch as [|α sch IH]; intros σ1 evs1 p H Hp Hpoll HI1; cbn [Old.exec] in H.
    - injection H as <- <-. rewrite Hp in Hw'. injection Hw' as ->. done.
    - destruct (Old.step throws α σ1) as [[σ2 evs2]|] eqn:Hstep; [|done].
      destruct (Old.exec throws sch σ2) as [[σ3 evs3]|] eqn:Hexec; [|done].
      injection H as <- <-.
      destruct (Old_step_polling _ _ _ _ _ _ Hstep Hp Hpoll HI1)
        as [(u & Hu & -> & Hp2) | (p2 & Hp2 & Hpoll2 & HI2)].
      + destruct (Old_exec_unreturned _ _ _ _ _ _ elapsed Hexec Hp2) as (l2 & l3 & ->);
          [by destruct p | done |].
        by exists u, [], l2, l3.
      + destruct (IH _ _ _ Hexec Hp2 Hpoll2 HI2) as (u & l1 & l2 & l3 & Hu & ->).
        exists u, (evs2 ++ l1), l2, l3. by rewrite <- app_assoc. }
  by apply (H sch σ evs Old.WaitEntry).
Qed.

(** ** A listener that throws *)

(** X15. In the earlier header a listener that throws leaves [Idle] clear
    for good: [Fire] ends with the exception and [Idle = false], and from
    then on a call of [Wait] returns at its first test, with no further
    [Fire] at all. *)
Theorem Old_throw_leaves_Idle_clear a s e :
  (Old.Fire throws a s).1.2 = Threw e →
  Old.Idle (Old.Fire throws a s).2 = false ∧
  Old.Connections (Old.Fire throws a s).2 = Old.Connections s ∧
  ∀ (ths : list (Old.pc Parameters Exn)) clock w,
    ths !! w = Some Old.WaitEntry →
    ∃ σ',
      Old.exec throws [Old.Run w; Old.Run w; Old.Run w]
        {| Old.mem := (Old.Fire throws a s).2; Old.threads := ths; Old.now := clock |}
      = Some (σ', [(w, Return 0%Z)]) ∧
      Old.threads σ' !! w = Some (Old.WaitDone 0).
Proof.
  unfold Old.Fire. destruct (Old.Connections s) as [|f0 fs] eqn:HC; [done|].
  destruct (invoke_all throws (f0 :: fs) a) as [evs0 [|e']]; [done|].
  intros _. cbn [fst snd Old.Idle Old.Connections].
  split; [done|]. split; [done|].
  intros ths clock w Hw.
  assert (Hlt : w < length ths) by (by eapply lookup_lt_Some).
  set (σ0 := Old.mkSystem _ _ _).
  set (σ1 := Old.at_pc w (Old.WaitSpin (Old.now σ0)) σ0).
  set (σ2 := Old.at_pc w (Old.WaitReturn (Old.now σ0)) σ1).
  set (σ3 := Old.at_pc w (Old.WaitDone 0) σ2).
  exists σ3. split.
  - cbn [Old.exec Old.step].
    rewrite (Old_step_thread_at w σ0 Old.WaitEntry) by done.
    cbn [Old.in_Fire Old.Wait_step]. fold σ1.
    assert (E1 : Old.threads σ1 !! w = Some (Old.WaitSpin (Old.now σ0)))
      by (unfold σ1; cbn; by apply list_lookup_insert_eq).
    rewrite (Old_step_thread_at w σ1 _ E1). cbn [Old.in_Fire Old.Wait_step].
    assert (I1 : Old.Idle (Old.mem σ1) = false) by done. rewrite I1. fold σ2.
    assert (E2 : Old.threads σ2 !! w = Some (Old.WaitReturn (Old.now σ0))).
    { unfold σ2, σ1. cbn. apply list_lookup_insert_eq. by rewrite length_insert. }
    rewrite (Old_step_thread_at w σ2 _ E2). cbn [Old.in_Fire Old.Wait_step].
    assert (N2 : (Old.now σ2 - Old.now σ0 = 0)%Z) by (cbn; lia). rewrite N2.
    change (Old.to_int 0) with 0%Z. fold σ3. done.
  - unfold σ3, σ2, σ1. cbn. apply list_lookup_insert_eq. by rewrite !length_insert.
Qed.

(** ** A [Fire] between two tests of [Wait] *)

Lemma Old_FireLoop_alone (rest : list Callable) : ∀ (pre : list Callable) σ t a,
  Old.Connections (Old.mem σ) = pre ++ rest →
  Old.threads σ !! t = Some (Old.FireLoop a (length pre)) →
  ∃ n σ',
    Old.exec throws (replicate n (Old.Run t)) σ
      = Some (σ', (λ ev, (t, ev)) <$> (invoke_all throws rest a).1) ∧
    Old.mem σ' = Old.mem σ ∧
    Old.threads σ' = <[t := match (invoke_all throws rest a).2 with
                            | Returned => Old.FireSet
                            | Threw e => Old.FireThrew e
                            end]> (Old.threads σ).
Proof.
  induction rest as [|f rest IH]; intros pre σ t a HF Ht.
  - exists 1, (Old.at_pc t Old.FireSet σ). cbn [replicate Old.exec Old.step].
    rewrite (Old_step_thread_at _ _ _ Ht). cbn [Old.in_Fire Old.Fire_step].
    rewrite HF, app_nil_r, lookup_ge_None_2 by done. done.
  - assert (Hf : Old.Connections (Old.mem σ) !! length pre = Some f).
    { rewrite HF. by apply list_lookup_middle. }
    cbn [invoke_all]. destruct (throws f a) as [e|] eqn:Hthrow.
    + exists 1, (Old.at_pc t (Old.FireThrew e) σ). cbn [replicate Old.exec Old.step].
      rewrite (Old_step_thread_at _ _ _ Ht). cbn [Old.in_Fire Old.Fire_step].
      by rewrite Hf, Hthrow.
    + destruct (IH (pre ++ [f]) (Old.at_pc t (Old.FireLoop a (S (length pre))) σ) t a)
        as (n & σ' & Hexec & Hmem & Hthr).
      { cbn. by rewrite <- app_assoc. }
      { cbn. rewrite length_app, Nat.add_1_r.
        apply list_lookup_insert_eq. by eapply lookup_lt_Some. }
      destruct (invoke_all throws rest a) as [evs c].
      exists (S n), σ'. cbn [replicate Old.exec Old.step].
      rewrite (Old_step_thread_at _ _ _ Ht). cbn [Old.in_Fire Old.Fire_step].
      rewrite Hf, Hthrow, Hexec. cbn [fst snd] in *.
      split; [done|]. split; [done|].
      rewrite Hthr. cbn. apply list_insert_insert_eq.
Qed.

(** Once [Idle] is set and no call of [Fire] is under way or about to
    start, nothing changes for the threads that poll. *)
Lemma Old_step_settled α σ σ' evs :
  Old.step throws α σ = Some (σ', evs) →
  Old.Idle (Old.mem σ) = true →
  (∀ t p, Old.threads σ !! t = Some p → Old.quiet p = true) →
  Old.Idle (Old.mem σ') = true ∧
  ∀ t p', Old.threads σ' !! t = Some p' →
    Old.quiet p' = true ∧
    ∃ p0, Old.threads σ !! t = Some p0 ∧ Old.polling p0 = Old.polling p'.
Proof.
  intros H HI Hq.
  Old.step_cases H;
    try match goal with
      | Ht : Old.threads σ !! _ = Some _ |- _ =>
          pose proof (Hq _ _ Ht) as Hquiet; cbn in Hquiet; try discriminate Hquiet
      end;
    try congruence.
  all: split; [done|]; intros t' p' Hl; Old.thread_lookup;
       try (injection Hl as <-; split; [done|]; eexists; split; [eassumption|done]);
       (split; [by eapply Hq | by exists p']).
Qed.

Lemma Old_exec_settled sch σ σ' evs :
  Old.exec throws sch σ = Some (σ', evs) →
  Old.Idle (Old.mem σ) = true →
  (∀ t p, Old.threads σ !! t = Some p → Old.quiet p = true) →
  ∀ t p', Old.threads σ' !! t = Some p' →
    ∃ p0, Old.threads σ !! t = Some p0 ∧ Old.polling p0 = Old.polling p'.
Proof.
  revert σ evs. induction sch as [|α sch IH]; intros σ evs H HI Hq t p' Hp';
    cbn [Old.exec] in H.
  - injection H as <- <-. by exists p'.
  - destruct (Old.step throws α σ) as [[σ1 evs1]|] eqn:Hstep; [|done].
    destruct (Old.exec throws sch σ1) as [[σ2 evs2]|] eqn:Hexec; [|done].
    injection H as <- <-.
    destruct (Old_step_settled _ _ _ _ Hstep HI Hq) as [HI1 Hq1].
    destruct (IH _ _ Hexec HI1 (λ t p Hp, proj1 (Hq1 t p Hp)) t p' Hp')
      as (p1 & Hp1 & E1).
    destruct (Hq1 t p1 Hp1) as (_ & p0 & Hp0 & E0).
    exists p0. split; [done | congruence].
Qed.

(** X16. In the earlier header a [Fire] that runs from start to end between
    two tests of [Wait] is missed: the listeners are all called and [Fire]
    returns, but the threads polling [Idle] find it set again and keep
    polling under every later schedule. *)
Theorem Old_Fire_between_polls_is_missed σ (u : nat) a :
  Old.threads σ !! u = Some (Old.FireEntry a) →
  Old.Idle (Old.mem σ) = true →
  (∀ t p, t ≠ u → Old.threads σ !! t = Some p → Old.polling p = true) →
  (∀ g, g ∈ Old.Connections (Old.mem σ) → throws g a = None) →
  ∃ n σ' evs,
    Old.exec throws (replicate n (Old.Run u)) σ = Some (σ', evs) ∧
    evs.*2 = (Old.Fire throws a (Old.mem σ)).1.1 ∧
    invoked evs.*2 = (λ g, (g, a)) <$> Old.Connections (Old.mem σ) ∧
    Old.threads σ' !! u = Some Old.FireDone ∧
    ∀ sch σ'' evs',
      Old.exec throws sch σ' = Some (σ'', evs') →
      ∀ t p, t ≠ u → Old.threads σ'' !! t = Some p → Old.polling p = true.
Proof.
  intros Hu HI Hothers Hret.
  assert (Hlt : u < length (Old.threads σ)) by (by eapply lookup_lt_Some).
  assert (Hfinish : ∀ σ',
            Old.Idle (Old.mem σ') = true →
            Old.threads σ' = <[u := Old.FireDone]> (Old.threads σ) →
            ∀ sch σ'' evs',
              Old.exec throws sch σ' = Some (σ'', evs') →
              ∀ t p, t ≠ u → Old.threads σ'' !! t = Some p → Old.polling p = true).
  { intros σ' HI' Hthr sch σ'' evs' Hexec t p Htu Hp.
    assert (Hq : ∀ t p, Old.threads σ' !! t = Some p → Old.quiet p = true).
    { intros t0 p0 Hp0. rewrite Hthr in Hp0.
      destruct (decide (u = t0)) as [<- | Hne].
      - rewrite list_lookup_insert_eq in Hp0 by done. by injection Hp0 as <-.
      - rewrite list_lookup_insert_ne in Hp0 by done.
        pose proof (Hothers t0 p0 (not_eq_sym Hne) Hp0). by destruct p0. }
    destruct (Old_exec_settled _ _ _ _ Hexec HI' Hq t p Hp) as (p0 & Hp0 & <-).
    rewrite Hthr, list_lookup_insert_ne in Hp0 by done. by eapply Hothers. }
  destruct (Old.Connections (Old.mem σ)) as [|f0 fs] eqn:HC.
  - set (σ' := Old.at_pc u Old.FireDone σ).
    exists 1, σ', []. split.
    { cbn [replicate Old.exec Old.step]. rewrite (Old_step_thread_at _ _ _ Hu).
      cbn [Old.in_Fire Old.Fire_step]. by rewrite HC. }
    split; [by unfold Old.Fire; rewrite HC|]. split; [done|].
    split; [by apply list_lookup_insert_eq|]. by apply Hfinish.
  - set (σ1 := Old.at_pc u (Old.FireClear a) σ).
    set (σ2 := Old.at_pc u (Old.FireLoop a 0) (Old.write_Idle false σ1)).
    assert (H12 : Old.exec throws [Old.Run u; Old.Run u] σ
                  = Some (σ2, [(u, SetIdle false)])).
    { cbn [Old.exec Old.step]. rewrite (Old_step_thread_at _ _ _ Hu).
      cbn [Old.in_Fire Old.Fire_step]. rewrite HC. fold σ1.
      assert (E1 : Old.threads σ1 !! u = Some (Old.FireClear a))
        by (unfold σ1; cbn; by apply list_lookup_insert_eq).
      rewrite (Old_step_thread_at _ _ _ E1). cbn [Old.in_Fire Old.Fire_step]. done. }
    destruct (Old_FireLoop_alone (f0 :: fs) [] σ2 u a) as (n & σ3 & H3 & Hmem3 & Hthr3).
    { unfold σ2, σ1. cbn. by rewrite HC. }
    { unfold σ2, σ1. cbn. apply list_lookup_insert_eq. by rewrite length_insert. }
    assert (Hinv : invoke_all throws (f0 :: fs) a
                   = ((λ g, Invoke g a) <$> f0 :: fs, Returned)).
    { apply invoke_all_returns. intros g Hg. by apply Hret. }
    rewrite Hinv in H3, Hthr3. cbn [fst snd] in H3, Hthr3.
    set (σ4 := Old.at_pc u Old.FireDone (Old.write_Idle true σ3)).
    assert (H4 : Old.exec throws [Old.Run u] σ3 = Some (σ4, [(u, SetIdle true)])).
    { cbn [Old.exec Old.step].
      assert (E3 : Old.threads σ3 !! u = Some Old.FireSet).
      { rewrite Hthr3. apply list_lookup_insert_eq. unfold σ2, σ1. cbn.
        by rewrite !length_insert. }
      rewrite (Old_step_thread_at _ _ _ E3). cbn [Old.in_Fire Old.Fire_step]. done. }
    pose proof (Old_exec_app _ _ _ _ _ _ _ H12 H3) as H123.
    pose proof (Old_exec_app _ _ _ _ _ _ _ H123 H4) as Hall.
    assert (Hsch : ([Old.Run u; Old.Run u] ++ replicate n (Old.Run u)) ++ [Old.Run u]
                   = replicate (2 + n + 1) (Old.Run u)).
    { change [Old.Run u; Old.Run u] with (replicate 2 (Old.Run u)).
      change [Old.Run u] with (replicate 1 (Old.Run u)).
      by rewrite <- !replicate_add. }
    rewrite Hsch in Hall.
    eexists (2 + n + 1), σ4, _. split; [exact Hall|].
    assert (Hevs : (([(u, SetIdle false)]
                     ++ ((λ ev, (u, ev)) <$> ((λ g, Invoke g a) <$> f0 :: fs)))
                     ++ [(u, SetIdle true)]).*2
                   = SetIdle false :: ((λ g, Invoke g a) <$> f0 :: fs) ++ [SetIdle true]).
    { assert (Huntag : ∀ l : list (event Parameters Callable),
                ((λ ev, (u, ev)) <$> l).*2 = l).
      { intros l. rewrite <- list_fmap_compose. apply list_fmap_id. }
      rewrite !fmap_app, Huntag. done. }
    split.
    { rewrite Hevs. unfold Old.Fire. by rewrite HC, Hinv. }
    split.
    { rewrite Hevs. change (SetIdle false :: ?l) with ([SetIdle false] ++ l).
      rewrite !invoked_app, invoked_Invoke. cbn. by rewrite app_nil_r. }
    split.
    { unfold σ4. cbn. apply list_lookup_insert_eq. rewrite Hthr3.
      unfold σ2, σ1. cbn. by rewrite !length_insert. }
    apply Hfinish; [done|].
    unfold σ4. cbn. rewrite Hthr3. unfold σ2, σ1. cbn.
    by rewrite !list_insert_insert_eq.
Qed.

End Old_variant.

(** * Instances *)

Local Open Scope string_scope.
Local Open Scope list_scope.

Lemma Fire_invokes_connected_in_order_witness :
  (∀ f, f ∈ ["A"; "B"; "C"] → Demo.throws f "Blue" = None) ∧
  ∃ ps m,
    Connect_all ["A"; "B"; "C"] ScriptSignal_new = Done (ps, m) ∧
    length ps = 3 ∧
    still_connected m (zip ps ["A"; "B"; "C"]) = ["A"; "B"; "C"] ∧
    invoked (Fire Demo.throws "Blue" m).1.1
      = (λ f, (f, "Blue")) <$> still_connected m (zip ps ["A"; "B"; "C"]) ∧
    (Fire Demo.throws "Blue" m).1.2 = Returned.
Proof.
  assert (H : ∀ f, f ∈ ["A"; "B"; "C"] → Demo.throws f "Blue" = None).
  { intros f Hf. repeat (apply elem_of_cons in Hf as [-> | Hf]; [reflexivity|]).
    by apply elem_of_nil in Hf. }
  split; [exact H|].
  exact (Fire_invokes_connected_in_order Demo.throws ["A"; "B"; "C"] "Blue" H).
Defined.

Lemma Connect_same_callable_twice_witness :
  (∀ g, g ∈ Functions (this Demo.one_listener) ++ ["Twice"] →
        Demo.throws g "Blue" = None) ∧
  ∃ p1 p2 m2,
    (p1 ← Connect "Twice"; p2 ← Connect "Twice"; mret (p1, p2)) Demo.one_listener
      = Done ((p1, p2), m2) ∧
    p1 ≠ p2 ∧
    Functions (this m2) = Functions (this Demo.one_listener) ++ ["Twice"; "Twice"] ∧
    Connected p1 m2 = Done (true, m2) ∧
    Connected p2 m2 = Done (true, m2) ∧
    invoked (Fire Demo.throws "Blue" m2).1.1
      = ((λ g, (g, "Blue")) <$> Functions (this Demo.one_listener))
          ++ [("Twice", "Blue"); ("Twice", "Blue")] ∧
    (∃ m3, Disconnect p1 m2 = Done (tt, m3) ∧
           Connected p1 m3 = Done (false, m3) ∧
           Connected p2 m3 = Done (true, m3) ∧
           invoked (Fire Demo.throws "Blue" m3).1.1
             = ((λ g, (g, "Blue")) <$> Functions (this Demo.one_listener))
                 ++ [("Twice", "Blue")]) ∧
    (∃ m3, Disconnect p2 m2 = Done (tt, m3) ∧
           Connected p2 m3 = Done (false, m3) ∧
           Connected p1 m3 = Done (true, m3) ∧
           invoked (Fire Demo.throws "Blue" m3).1.1
             = ((λ g, (g, "Blue")) <$> Functions (this Demo.one_listener))
                 ++ [("Twice", "Blue")]).
Proof.
  assert (H : ∀ g, g ∈ Functions (this Demo.one_listener) ++ ["Twice"] →
                   Demo.throws g "Blue" = None).
  { intros g Hg. vm_compute in Hg.
    repeat (apply elem_of_cons in Hg as [-> | Hg]; [reflexivity|]).
    by apply elem_of_nil in Hg. }
  split; [exact H|].
  exact (Connect_same_callable_twice Demo.throws "Twice" "Blue" Demo.one_listener H).
Defined.

Lemma Fire_propagates_throw_witness :
  Functions (this Demo.with_thrower) = ["A"] ++ "Boom" :: ["C"] ∧
  (∀ g, g ∈ ["A"] → Demo.throws g "Blue" = None) ∧
  Demo.throws "Boom" "Blue" = Some "Boom: Blue" ∧
  Fire Demo.throws "Blue" Demo.with_thrower
    = ((λ g, Invoke g "Blue") <$> (["A"] ++ ["Boom"]), Threw "Boom: Blue",
       Demo.with_thrower) ∧
  invoked (Fire Demo.throws "Blue" Demo.with_thrower).1.1
    = (λ g, (g, "Blue")) <$> (["A"] ++ ["Boom"]) ∧
  notifies (Fire Demo.throws "Blue" Demo.with_thrower).1.1 = false ∧
  Idle (this (Fire Demo.throws "Blue" Demo.with_thrower).2) = Idle (this Demo.with_thrower).
Proof.
  assert (H1 : Functions (this Demo.with_thrower) = ["A"] ++ "Boom" :: ["C"])
    by reflexivity.
  assert (H2 : ∀ g, g ∈ ["A"] → Demo.throws g "Blue" = None).
  { intros g Hg. apply elem_of_cons in Hg as [-> | Hg]; [reflexivity|].
    by apply elem_of_nil in Hg. }
  assert (H3 : Demo.throws "Boom" "Blue" = Some "Boom: Blue") by reflexivity.
  split; [exact H1|]. split; [exact H2|]. split; [exact H3|].
  exact (Fire_propagates_throw Demo.throws "Blue" Demo.with_thrower
           ["A"] ["C"] "Boom" "Boom: Blue" H1 H2 H3).
Defined.

Lemma Disconnect_idempotent_witness :
  Disconnect 0 Demo.one_listener = Done (tt, Demo.one_listener_disconnected) ∧
  Connected 0 Demo.one_listener_disconnected
    = Done (false, Demo.one_listener_disconnected) ∧
  Disconnect 0 Demo.one_listener_disconnected
    = Done (tt, Demo.one_listener_disconnected) ∧
  ∀ (os : list (op string string)) m2,
    run_ops Demo.throws os Demo.one_listener_disconnected = Done m2 →
    Connected 0 m2 = Done (false, m2) ∧ Disconnect 0 m2 = Done (tt, m2).
Proof.
  assert (H : Disconnect 0 Demo.one_listener
              = Done (tt, Demo.one_listener_disconnected)) by reflexivity.
  split; [exact H|].
  exact (Disconnect_idempotent Demo.throws 0 Demo.one_listener
           Demo.one_listener_disconnected H).
Defined.

Lemma Connect_starts_Connected_witness :
  ∃ m1 m2,
    Connect "Hello" ScriptSignal_new = Done (0, m1) ∧
    Connected 0 m1 = Done (true, m1) ∧
    run_ops Demo.throws [OpFire "Blue"; OpConnect "B"; OpDisconnect 1; OpWait true] m1
      = Done m2 ∧
    Connected 0 m2 = Done (true, m2).
Proof.
  destruct (Connect_starts_Connected Demo.throws "Hello" ScriptSignal_new)
    as (p & m1 & HC & Hconn & Hlater).
  rewrite Connect_eq in HC. injection HC as <- <-.
  eexists _, _. split; [reflexivity|]. split; [exact Hconn|].
  split; [vm_compute; reflexivity|].
  apply (Hlater [OpFire "Blue"; OpConnect "B"; OpDisconnect 1; OpWait true]).
  - intros Hin. repeat (apply elem_of_cons in Hin as [Hin | Hin]; [discriminate|]).
    by apply elem_of_nil in Hin.
  - vm_compute. reflexivity.
Defined.

Lemma Fire_empty_is_noop_witness :
  Functions (this (ScriptSignal_new (Callable := string))) = [] ∧
  Fire Demo.throws "Blue" ScriptSignal_new = ([], Returned, ScriptSignal_new) ∧
  (∀ (σ : System string string string) t,
     mem σ = ScriptSignal_new → threads σ !! t = Some (FireEntry "Blue") →
     step Demo.throws (Run t) σ = Some (at_pc t FireDone σ, [])) ∧
  (∀ (calls : list (pc string string)) sch σ' evs,
     (∀ p, p ∈ calls → entry p = true) →
     exec Demo.throws sch (spawn ScriptSignal_new calls) = Some (σ', evs) →
     (∀ t, ((t, SetIdle true) ∉ evs) ∧ ((t, NotifyAll) ∉ evs) ∧
           ∀ f a', (t, Invoke f a') ∉ evs) ∧
     (∀ w p, threads σ' !! w = Some p → released p = false)).
Proof.
  assert (H : Functions (this (ScriptSignal_new (Callable := string))) = [])
    by reflexivity.
  split; [exact H|].
  exact (Fire_empty_is_noop Demo.throws "Blue" ScriptSignal_new H).
Defined.

Lemma Wait_returns_only_after_later_Fire_witness :
  consistent Demo.wait_and_fire ∧
  threads Demo.wait_and_fire !! 0 = Some WaitEntry ∧
  exec Demo.throws Demo.wait_then_fire Demo.wait_and_fire
    = Some (Demo.waited_and_fired,
            [(0, SetIdle false); (0, Lock); (0, Unlock); (0, Block);
             (1, Invoke "Hello" "Blue"); (1, Lock); (1, SetIdle true);
             (1, NotifyAll); (1, Unlock);
             (0, Lock); (0, Unlock); (0, Return 5000%Z)]) ∧
  threads Demo.waited_and_fired !! 0 = Some (WaitDone 5000) ∧
  Functions (this (mem Demo.wait_and_fire)) ≠ [] ∧
  ∃ f evs1 evs2 evs3 evs4,
    f ≠ 0 ∧
    [(0, SetIdle false); (0, Lock); (0, Unlock); (0, Block);
     (1, Invoke "Hello" "Blue"); (1, Lock); (1, SetIdle true);
     (1, NotifyAll); (1, Unlock);
     (0, Lock); (0, Unlock); (0, Return 5000%Z)]
    = evs1 ++ (0, SetIdle false) :: evs2
           ++ (f, SetIdle true) :: evs3
           ++ (0, Return 5000%Z) :: evs4.
Proof.
  assert (H1 : consistent Demo.wait_and_fire).
  { intros t p Hl Hp. destruct t as [|[|t]]; cbn in Hl; [| |done];
      injection Hl as <-; discriminate Hp. }
  assert (H2 : threads Demo.wait_and_fire !! 0 = Some WaitEntry) by reflexivity.
  assert (H3 : exec Demo.throws Demo.wait_then_fire Demo.wait_and_fire
               = Some (Demo.waited_and_fired,
                       [(0, SetIdle false); (0, Lock); (0, Unlock); (0, Block);
                        (1, Invoke "Hello" "Blue"); (1, Lock); (1, SetIdle true);
                        (1, NotifyAll); (1, Unlock);
                        (0, Lock); (0, Unlock); (0, Return 5000%Z)]))
    by (vm_compute; reflexivity).
  assert (H4 : threads Demo.waited_and_fired !! 0 = Some (WaitDone 5000))
    by reflexivity.
  split; [exact H1|]. split; [exact H2|]. split; [exact H3|]. split; [exact H4|].
  exact (Wait_returns_only_after_later_Fire Demo.throws Demo.wait_then_fire
           Demo.wait_and_fire Demo.waited_and_fired _ 0 5000%Z H1 H2 H3 H4).
Defined.

Lemma Wait_reset_outside_lock_loses_wakeup_witness :
  Demo.throws "Hello" "Blue" = None ∧
  ∃ σ,
    exec Demo.throws lost_wakeup Demo.wait_and_fire
      = Some (σ, [(1, Invoke "Hello" "Blue"); (1, Lock); (1, SetIdle true);
                  (0, SetIdle false);
                  (1, NotifyAll); (1, Unlock);
                  (0, Lock); (0, Unlock); (0, Block)]) ∧
    threads σ = [WaitBlocked 0; FireDone] ∧
    Idle (this (mem σ)) = false ∧
    ∀ sch σ' evs,
      exec Demo.throws sch σ = Some (σ', evs) →
      ∃ p, threads σ' !! 0 = Some p ∧ waiting p = true.
Proof.
  assert (H : Demo.throws "Hello" "Blue" = None) by reflexivity.
  split; [exact H|].
  exact (Wait_reset_outside_lock_loses_wakeup Demo.throws "Hello" "Blue" H).
Defined.

Lemma Disconnect_keeps_Connections_witness :
  run_ops Demo.throws Demo.two_connects ScriptSignal_new = Done Demo.two_listeners ∧
  Disconnect 1 Demo.two_listeners = Done (tt, Demo.two_listeners_B_disconnected) ∧
  Connections (this Demo.two_listeners_B_disconnected)
    = Connections (this Demo.two_listeners) ∧
  Idle (this Demo.two_listeners_B_disconnected) = Idle (this Demo.two_listeners) ∧
  1 ∈ Connections (this Demo.two_listeners_B_disconnected) ∧
  (∀ q, q ≠ 1 →
        heap Demo.two_listeners_B_disconnected !! q = heap Demo.two_listeners !! q) ∧
  (∃ c, holds (heap Demo.two_listeners) 1 c ∧
        holds (heap Demo.two_listeners_B_disconnected) 1
          {| Destroy := Destroy c; isConnected := false |}) ∧
  ∀ (os : list (op string string)) m2,
    run_ops Demo.throws os Demo.two_listeners_B_disconnected = Done m2 →
    1 ∈ Connections (this m2) ∧
    (∃ c', holds (heap m2) 1 c') ∧
    ∃ h, ScriptSignal_destructor m2 = Done h ∧
         ∀ q, q ∈ Connections (this m2) → h !! q = Some None.
Proof.
  assert (H1 : run_ops Demo.throws Demo.two_connects ScriptSignal_new
               = Done Demo.two_listeners) by reflexivity.
  assert (H2 : Disconnect 1 Demo.two_listeners
               = Done (tt, Demo.two_listeners_B_disconnected)) by reflexivity.
  split; [exact H1|]. split; [exact H2|].
  exact (Disconnect_keeps_Connections Demo.throws Demo.two_connects 1
           Demo.two_listeners Demo.two_listeners_B_disconnected H1 H2).
Defined.

(** * Instances of the further properties *)

Lemma Disconnect_decreasing_is_exact_witness :
  decreasing (length ["A"; "B"; "C"; "D"]) [3; 1] ∧
  ∃ m,
    run_ops Demo.throws (OpDisconnect <$> [3; 1]) (connected_signal ["A"; "B"; "C"; "D"])
      = Done m ∧
    Functions (this m) = still_connected m (registrations ["A"; "B"; "C"; "D"]) ∧
    ∀ p, p < length ["A"; "B"; "C"; "D"] →
         Connected p m = Done (bool_decide (p ∉ [3; 1]), m).
Proof.
  assert (H : decreasing (length ["A"; "B"; "C"; "D"]) [3; 1]) by (simpl; lia).
  split; [exact H|].
  exact (Disconnect_decreasing_is_exact Demo.throws ["A"; "B"; "C"; "D"] [3; 1] H).
Defined.

Lemma Disconnect_increasing_erases_next_witness :
  0 < 1 ∧ 1 < length ["A"; "B"; "C"] ∧
  (2 = length ["A"; "B"; "C"] →
     (Disconnect 0;; Disconnect 1) (connected_signal ["A"; "B"; "C"]) = Undefined) ∧
  (2 < length ["A"; "B"; "C"] →
     ∃ m, (Disconnect 0;; Disconnect 1) (connected_signal ["A"; "B"; "C"]) = Done (tt, m) ∧
          Functions (this m) = delete 1 (delete 0 ["A"; "B"; "C"]) ∧
          still_connected m (registrations ["A"; "B"; "C"])
            = delete 0 (delete 1 ["A"; "B"; "C"]) ∧
          Functions (this m) !! (1 - 1) = ["A"; "B"; "C"] !! 1 ∧
          Connected 1 m = Done (false, m) ∧
          Connected 2 m = Done (true, m)).
Proof.
  assert (H1 : 0 < 1) by lia.
  assert (H2 : 1 < length ["A"; "B"; "C"]) by (simpl; lia).
  split; [exact H1|]. split; [exact H2|].
  exact (Disconnect_increasing_erases_next Demo.throws ["A"; "B"; "C"] 0 1 H1 H2).
Defined.

Lemma Functions_count_connected_witness :
  run_ops Demo.throws Scenes.stale_history ScriptSignal_new = Done Scenes.stale_memory ∧
  length (Functions (this Scenes.stale_memory)) = count_connected (heap Scenes.stale_memory).
Proof.
  assert (H : run_ops Demo.throws Scenes.stale_history ScriptSignal_new
              = Done Scenes.stale_memory) by reflexivity.
  split; [exact H|].
  exact (Functions_count_connected Demo.throws Scenes.stale_history Scenes.stale_memory H).
Defined.

Lemma handles_dangle_after_destruction_witness :
  run_ops Demo.throws Scenes.stale_history ScriptSignal_new = Done Scenes.stale_memory ∧
  ∃ h, ScriptSignal_destructor Scenes.stale_memory = Done h ∧
       (∀ p (s : ScriptSignal string),
               Connected p {| this := s; heap := h |} = Undefined ∧
               Disconnect p {| this := s; heap := h |} = Undefined) ∧
       (Connections (this Scenes.stale_memory) ≠ [] →
        delete_all (Connections (this Scenes.stale_memory)) h = Undefined).
Proof.
  assert (H : run_ops Demo.throws Scenes.stale_history ScriptSignal_new
              = Done Scenes.stale_memory) by reflexivity.
  split; [exact H|].
  exact (handles_dangle_after_destruction Demo.throws Scenes.stale_history
           Scenes.stale_memory H).
Defined.

Lemma Current_is_exclusive_witness :
  (∀ p, p ∈ [WaitEntry; FireEntry "Blue"] →
        entry (Parameters := string) (Exn := string) p = true) ∧
  exec Demo.throws Scenes.until_locked (spawn Demo.one_listener [WaitEntry; FireEntry "Blue"])
    = Some (Scenes.locked_by_Fire,
            [(0, SetIdle false); (0, Lock); (0, Unlock); (0, Block);
             (1, Invoke "Hello" "Blue"); (1, Lock)]) ∧
  (∀ t p, threads Scenes.locked_by_Fire !! t = Some p →
          (critical p = true ↔ Current Scenes.locked_by_Fire = Some t)) ∧
  (∀ t1 t2 p1 p2,
     threads Scenes.locked_by_Fire !! t1 = Some p1 →
     threads Scenes.locked_by_Fire !! t2 = Some p2 →
     critical p1 = true → critical p2 = true → t1 = t2) ∧
  (∀ t a i, threads Scenes.locked_by_Fire !! t = Some (FireLoop a i) →
            Current Scenes.locked_by_Fire ≠ Some t) ∧
  (∀ o, Current Scenes.locked_by_Fire = Some o →
        is_Some (step Demo.throws (Run o) Scenes.locked_by_Fire)).
Proof.
  assert (H1 : ∀ p, p ∈ [WaitEntry; FireEntry "Blue"] →
                    entry (Parameters := string) (Exn := string) p = true).
  { intros p Hp. apply elem_of_cons in Hp as [->|Hp]; [reflexivity|].
    apply elem_of_cons in Hp as [->|Hp]; [reflexivity|].
    by apply elem_of_nil in Hp. }
  assert (H2 : exec Demo.throws Scenes.until_locked
                 (spawn Demo.one_listener [WaitEntry; FireEntry "Blue"])
               = Some (Scenes.locked_by_Fire,
                       [(0, SetIdle false); (0, Lock); (0, Unlock); (0, Block);
                        (1, Invoke "Hello" "Blue"); (1, Lock)]))
    by (vm_compute; reflexivity).
  split; [exact H1|]. split; [exact H2|].
  exact (Current_is_exclusive Demo.throws Demo.one_listener [WaitEntry; FireEntry "Blue"]
           Scenes.until_locked Scenes.locked_by_Fire _ H1 H2).
Defined.

Lemma Wait_elapsed_bounds_witness :
  threads Demo.wait_and_fire !! 0 = Some WaitEntry ∧
  exec Demo.throws Demo.wait_then_fire Demo.wait_and_fire
    = Some (Demo.waited_and_fired,
            [(0, SetIdle false); (0, Lock); (0, Unlock); (0, Block);
             (1, Invoke "Hello" "Blue"); (1, Lock); (1, SetIdle true);
             (1, NotifyAll); (1, Unlock);
             (0, Lock); (0, Unlock); (0, Return 5000%Z)]) ∧
  threads Demo.waited_and_fired !! 0 = Some (WaitDone 5000) ∧
  (0 ≤ 5000 ≤ now Demo.waited_and_fired - now Demo.wait_and_fire)%Z.
Proof.
  assert (H1 : threads Demo.wait_and_fire !! 0 = Some WaitEntry) by reflexivity.
  assert (H2 : exec Demo.throws Demo.wait_then_fire Demo.wait_and_fire
               = Some (Demo.waited_and_fired,
                       [(0, SetIdle false); (0, Lock); (0, Unlock); (0, Block);
                        (1, Invoke "Hello" "Blue"); (1, Lock); (1, SetIdle true);
                        (1, NotifyAll); (1, Unlock);
                        (0, Lock); (0, Unlock); (0, Return 5000%Z)]))
    by (vm_compute; reflexivity).
  assert (H3 : threads Demo.waited_and_fired !! 0 = Some (WaitDone 5000)) by reflexivity.
  split; [exact H1|]. split; [exact H2|]. split; [exact H3|].
  exact (Wait_elapsed_bounds Demo.throws Demo.wait_then_fire Demo.wait_and_fire
           Demo.waited_and_fired _ 0 5000%Z H1 H2 H3).
Defined.

Lemma Fire_releases_every_waiter_witness :
  threads Scenes.two_asleep !! 2 = Some (FireEntry "Blue") ∧
  Current Scenes.two_asleep = None ∧
  Functions (this (mem Scenes.two_asleep)) ≠ [] ∧
  (∀ g, g ∈ Functions (this (mem Scenes.two_asleep)) → Demo.throws g "Blue" = None) ∧
  (∀ t p, t ≠ 2 → threads Scenes.two_asleep !! t = Some p → reset_done p = true) ∧
  exec Demo.throws Scenes.woken_early Scenes.two_asleep
    = Some (Scenes.all_returned,
            [(0, Lock); (0, Unlock); (0, Block);
             (2, Invoke "Hello" "Blue"); (2, Lock); (2, SetIdle true);
             (2, NotifyAll); (2, Unlock);
             (1, Lock); (1, Unlock); (1, Return 9%Z);
             (0, Lock); (0, Unlock); (0, Return 12%Z)]) ∧
  ((threads Scenes.all_returned !! 2 = Some FireUnlock ∨
    threads Scenes.all_returned !! 2 = Some FireDone) →
   Idle (this (mem Scenes.all_returned)) = true ∧
   ∀ t Time, threads Scenes.all_returned !! t ≠ Some (WaitBlocked Time)) ∧
  ((∀ t, step Demo.throws (Run t) Scenes.all_returned = None) →
   threads Scenes.all_returned !! 2 = Some FireDone ∧
   ∀ t p, t ≠ 2 → threads Scenes.all_returned !! t = Some p →
          ∃ elapsed, p = WaitDone elapsed) ∧
  (runs Scenes.woken_early
   ≤ length (Functions (this (mem Scenes.two_asleep)))
     + 6 * length (threads Scenes.two_asleep) + 2 * wake_ups Scenes.woken_early)%nat.
Proof.
  assert (H1 : threads Scenes.two_asleep !! 2 = Some (FireEntry "Blue")) by reflexivity.
  assert (H2 : Current Scenes.two_asleep = None) by reflexivity.
  assert (H3 : Functions (this (mem Scenes.two_asleep)) ≠ []) by (vm_compute; discriminate).
  assert (H4 : ∀ g, g ∈ Functions (this (mem Scenes.two_asleep)) →
                    Demo.throws g "Blue" = None).
  { intros g Hg. change (g ∈ ["Hello"]) in Hg.
    apply elem_of_cons in Hg as [->|Hg]; [reflexivity|].
    by apply elem_of_nil in Hg. }
  assert (H5 : ∀ t p, t ≠ 2 → threads Scenes.two_asleep !! t = Some p →
                      reset_done p = true).
  { intros t p Ht Hl. destruct t as [|[|[|t]]]; cbn in Hl.
    - injection Hl as <-. reflexivity.
    - injection Hl as <-. reflexivity.
    - by destruct Ht.
    - discriminate Hl. }
  assert (H6 : exec Demo.throws Scenes.woken_early Scenes.two_asleep
               = Some (Scenes.all_returned,
                       [(0, Lock); (0, Unlock); (0, Block);
                        (2, Invoke "Hello" "Blue"); (2, Lock); (2, SetIdle true);
                        (2, NotifyAll); (2, Unlock);
                        (1, Lock); (1, Unlock); (1, Return 9%Z);
                        (0, Lock); (0, Unlock); (0, Return 12%Z)]))
    by (vm_compute; reflexivity).
  split; [exact H1|]. split; [exact H2|]. split; [exact H3|]. split; [exact H4|].
  split; [exact H5|]. split; [exact H6|].
  exact (Fire_releases_every_waiter Demo.throws Scenes.two_asleep 2 "Blue"
           Scenes.woken_early Scenes.all_returned _ H1 H2 H3 H4 H5 H6).
Defined.

Lemma Fire_dispatch_is_undisturbed_witness :
  threads Demo.wait_and_fire !! 1 = Some (FireEntry "Blue") ∧
  exec Demo.throws Demo.wait_then_fire Demo.wait_and_fire
    = Some (Demo.waited_and_fired,
            [(0, SetIdle false); (0, Lock); (0, Unlock); (0, Block);
             (1, Invoke "Hello" "Blue"); (1, Lock); (1, SetIdle true);
             (1, NotifyAll); (1, Unlock);
             (0, Lock); (0, Unlock); (0, Return 5000%Z)]) ∧
  (∃ i, invoked (events_of 1
                   [(0, SetIdle false); (0, Lock); (0, Unlock); (0, Block);
                    (1, Invoke "Hello" "Blue"); (1, Lock); (1, SetIdle true);
                    (1, NotifyAll); (1, Unlock);
                    (0, Lock); (0, Unlock); (0, Return 5000%Z)])
        = (λ g, (g, "Blue")) <$> take i (Functions (this (mem Demo.wait_and_fire)))) ∧
  (threads Demo.waited_and_fired !! 1 = Some FireDone →
     (∀ g, g ∈ Functions (this (mem Demo.wait_and_fire)) → Demo.throws g "Blue" = None) ∧
     events_of 1
       [(0, SetIdle false); (0, Lock); (0, Unlock); (0, Block);
        (1, Invoke "Hello" "Blue"); (1, Lock); (1, SetIdle true);
        (1, NotifyAll); (1, Unlock);
        (0, Lock); (0, Unlock); (0, Return 5000%Z)]
     = match Functions (this (mem Demo.wait_and_fire)) with
       | [] => []
       | fs => ((λ g, Invoke g "Blue") <$> fs) ++ [Lock; SetIdle true; NotifyAll; Unlock]
       end) ∧
  (∀ e, threads Demo.waited_and_fired !! 1 = Some (FireThrew e) →
     ∃ pre g post,
       Functions (this (mem Demo.wait_and_fire)) = pre ++ g :: post ∧
       (∀ h, h ∈ pre → Demo.throws h "Blue" = None) ∧
       Demo.throws g "Blue" = Some e ∧
       events_of 1
         [(0, SetIdle false); (0, Lock); (0, Unlock); (0, Block);
          (1, Invoke "Hello" "Blue"); (1, Lock); (1, SetIdle true);
          (1, NotifyAll); (1, Unlock);
          (0, Lock); (0, Unlock); (0, Return 5000%Z)]
       = (λ g, Invoke g "Blue") <$> (pre ++ [g])).
Proof.
  assert (H1 : threads Demo.wait_and_fire !! 1 = Some (FireEntry "Blue")) by reflexivity.
  assert (H2 : exec Demo.throws Demo.wait_then_fire Demo.wait_and_fire
               = Some (Demo.waited_and_fired,
                       [(0, SetIdle false); (0, Lock); (0, Unlock); (0, Block);
                        (1, Invoke "Hello" "Blue"); (1, Lock); (1, SetIdle true);
                        (1, NotifyAll); (1, Unlock);
                        (0, Lock); (0, Unlock); (0, Return 5000%Z)]))
    by (vm_compute; reflexivity).
  split; [exact H1|]. split; [exact H2|].
  exact (Fire_dispatch_is_undisturbed Demo.throws Demo.wait_and_fire 1 "Blue"
           Demo.wait_then_fire Demo.waited_and_fired _ H1 H2).
Defined.

Lemma Fire_throw_strands_waiters_witness :
  threads Scenes.asleep_before_throw !! 1 = Some (FireEntry "Blue") ∧
  Current Scenes.asleep_before_throw = None ∧
  Idle (this (mem Scenes.asleep_before_throw)) = false ∧
  (∀ t p, t ≠ 1 → threads Scenes.asleep_before_throw !! t = Some p → waiting p = true) ∧
  (Fire Demo.throws "Blue" (mem Scenes.asleep_before_throw)).1.2 = Threw "Boom: Blue" ∧
  ∃ n σ' evs,
    exec Demo.throws (replicate n (Run 1)) Scenes.asleep_before_throw = Some (σ', evs) ∧
    threads σ' !! 1 = Some (FireThrew "Boom: Blue") ∧
    (∀ t, (t, NotifyAll) ∉ evs) ∧
    ∀ sch σ'' evs',
      exec Demo.throws sch σ' = Some (σ'', evs') →
      ∀ t p, threads σ'' !! t = Some p → released p = false.
Proof.
  assert (H1 : threads Scenes.asleep_before_throw !! 1 = Some (FireEntry "Blue"))
    by reflexivity.
  assert (H2 : Current Scenes.asleep_before_throw = None) by reflexivity.
  assert (H3 : Idle (this (mem Scenes.asleep_before_throw)) = false) by reflexivity.
  assert (H4 : ∀ t p, t ≠ 1 → threads Scenes.asleep_before_throw !! t = Some p →
                      waiting p = true).
  { intros t p Ht Hl. destruct t as [|[|t]]; cbn in Hl.
    - injection Hl as <-. reflexivity.
    - by destruct Ht.
    - discriminate Hl. }
  assert (H5 : (Fire Demo.throws "Blue" (mem Scenes.asleep_before_throw)).1.2
               = Threw "Boom: Blue") by (vm_compute; reflexivity).
  split; [exact H1|]. split; [exact H2|]. split; [exact H3|]. split; [exact H4|].
  split; [exact H5|].
  exact (Fire_throw_strands_waiters Demo.throws Scenes.asleep_before_throw 1 "Blue"
           "Boom: Blue" H1 H2 H3 H4 H5).
Defined.

Lemma Old_Wait_returns_only_during_Fire_witness :
  Old.Idle (Old.mem Scenes.old_wait_and_fire) = true ∧
  Old.threads Scenes.old_wait_and_fire !! 0 = Some Old.WaitEntry ∧
  Old.exec Demo.throws Scenes.old_seen Scenes.old_wait_and_fire
    = Some (Scenes.old_seen_end, [(1, SetIdle false); (0, Return 5%Z)]) ∧
  Old.threads Scenes.old_seen_end !! 0 = Some (Old.WaitDone 5) ∧
  ∃ (u : nat) evs1 evs2 evs3,
    u ≠ 0 ∧
    [(1, SetIdle false); (0, Return 5%Z)]
    = evs1 ++ (u, SetIdle (Parameters := string) (Callable := string) false)
           :: evs2 ++ (0, Return 5%Z) :: evs3.
Proof.
  assert (H1 : Old.Idle (Old.mem Scenes.old_wait_and_fire) = true) by reflexivity.
  assert (H2 : Old.threads Scenes.old_wait_and_fire !! 0 = Some Old.WaitEntry)
    by reflexivity.
  assert (H3 : Old.exec Demo.throws Scenes.old_seen Scenes.old_wait_and_fire
               = Some (Scenes.old_seen_end, [(1, SetIdle false); (0, Return 5%Z)]))
    by (vm_compute; reflexivity).
  assert (H4 : Old.threads Scenes.old_seen_end !! 0 = Some (Old.WaitDone 5))
    by reflexivity.
  split; [exact H1|]. split; [exact H2|]. split; [exact H3|]. split; [exact H4|].
  exact (Old_Wait_returns_only_during_Fire Demo.throws Scenes.old_seen
           Scenes.old_wait_and_fire Scenes.old_seen_end _ 0 5%Z H1 H2 H3 H4).
Defined.

Lemma Old_throw_leaves_Idle_clear_witness :
  (Old.Fire Demo.throws "Blue" Scenes.old_thrower).1.2 = Threw "Boom: Blue" ∧
  Old.Idle (Old.Fire Demo.throws "Blue" Scenes.old_thrower).2 = false ∧
  Old.Connections (Old.Fire Demo.throws "Blue" Scenes.old_thrower).2
    = Old.Connections Scenes.old_thrower ∧
  ∀ (ths : list (Old.pc string string)) clock w,
    ths !! w = Some Old.WaitEntry →
    ∃ σ',
      Old.exec Demo.throws [Old.Run w; Old.Run w; Old.Run w]
        {| Old.mem := (Old.Fire Demo.throws "Blue" Scenes.old_thrower).2;
           Old.threads := ths; Old.now := clock |}
      = Some (σ', [(w, Return 0%Z)]) ∧
      Old.threads σ' !! w = Some (Old.WaitDone 0).
Proof.
  assert (H : (Old.Fire Demo.throws "Blue" Scenes.old_thrower).1.2 = Threw "Boom: Blue")
    by (vm_compute; reflexivity).
  split; [exact H|].
  exact (Old_throw_leaves_Idle_clear Demo.throws "Blue" Scenes.old_thrower
           "Boom: Blue" H).
Defined.

Lemma Old_Fire_between_polls_is_missed_witness :
  Old.threads Scenes.old_polling !! 1 = Some (Old.FireEntry "Blue") ∧
  Old.Idle (Old.mem Scenes.old_polling) = true ∧
  (∀ t p, t ≠ 1 → Old.threads Scenes.old_polling !! t = Some p → Old.polling p = true) ∧
  (∀ g, g ∈ Old.Connections (Old.mem Scenes.old_polling) → Demo.throws g "Blue" = None) ∧
  ∃ n σ' evs,
    Old.exec Demo.throws (replicate n (Old.Run 1)) Scenes.old_polling = Some (σ', evs) ∧
    evs.*2 = (Old.Fire Demo.throws "Blue" (Old.mem Scenes.old_polling)).1.1 ∧
    invoked evs.*2 = (λ g, (g, "Blue")) <$> Old.Connections (Old.mem Scenes.old_polling) ∧
    Old.threads σ' !! 1 = Some Old.FireDone ∧
    ∀ sch σ'' evs',
      Old.exec Demo.throws sch σ' = Some (σ'', evs') →
      ∀ t p, t ≠ 1 → Old.threads σ'' !! t = Some p → Old.polling p = true.
Proof.
  assert (H1 : Old.threads Scenes.old_polling !! 1 = Some (Old.FireEntry "Blue"))
    by reflexivity.
  assert (H2 : Old.Idle (Old.mem Scenes.old_polling) = true) by reflexivity.
  assert (H3 : ∀ t p, t ≠ 1 → Old.threads Scenes.old_polling !! t = Some p →
                      Old.polling p = true).
  { intros t p Ht Hl. destruct t as [|[|t]]; cbn in Hl.
    - injection Hl as <-. reflexivity.
    - by destruct Ht.
    - discriminate Hl. }
  assert (H4 : ∀ g, g ∈ Old.Connections (Old.mem Scenes.old_polling) →
                    Demo.throws g "Blue" = None).
  { intros g Hg. change (g ∈ ["Hello"]) in Hg.
    apply elem_of_cons in Hg as [->|Hg]; [reflexivity|].
    by apply elem_of_nil in Hg. }
  split; [exact H1|]. split; [exact H2|]. split; [exact H3|]. split; [exact H4|].
  exact (Old_Fire_between_polls_is_missed Demo.throws Scenes.old_polling 1 "Blue"
           H1 H2 H3 H4).
Defined.
